(** * Angle Render Orchestrator: a shallow embedding of the camera module

    The development follows [Camera] and its helpers (preset tables,
    [snapToNearest], [buildAnglePrompt], [extractImageList],
    [findNearestImageIndex], [submitAngle], [pollJob], [runQueue] and
    [startBatch]) and proves the properties stated about them.

    Conventions of the embedding:
    - a JavaScript [number] that carries a measurement (angles, distances,
      render settings) is an IEEE binary64 value, Rocq's primitive [float];
      counters and array indices (run epoch, cursor, selection) are [Z] or
      [nat];
    - an [async] function is a finite tree whose inner nodes are its
      suspension points ([await fetch], [await res.json()], [await wait],
      [await] of another [async] function) and its synchronous reads and
      writes of the component state; what the network answers and when is
      left to the environment;
    - the cooperative scheduler is a step relation that resumes one suspended
      continuation at a time, in any order;
    - [startBatch] is cut at [await runQueue(...)] into [startBatch_begin]
      and [startBatch_finish], and [runQueue] is the state of its runners. *)

From Stdlib Require Import ZArith List Bool String Ascii Lia Floats.
From Stdlib Require Import DecimalString Permutation Wellfounded.
Import ListNotations.

Set Warnings "-inexact-float,-register-all".
Set Implicit Arguments.

(** ** JavaScript numbers *)

Open Scope string_scope.
Open Scope float_scope.

(** [Math.abs(option - value)] *)
Definition dist (option value : float) : float := abs (option - value).

(** ** Preset tables *)

(** An object literal whose property names are numeric literals, in source
    order. *)
Definition preset_map := list (float * string).

Definition AZIMUTH_MAP : preset_map :=
  [ (0, "front view");
    (45, "front-right quarter view");
    (90, "right side view");
    (135, "back-right quarter view");
    (180, "back view");
    (225, "back-left quarter view");
    (270, "left side view");
    (315, "front-left quarter view") ].

Definition ELEVATION_MAP : preset_map :=
  [ (-30, "low-angle shot");
    (0, "eye-level shot");
    (30, "elevated shot");
    (60, "high-angle shot") ].

Definition DISTANCE_MAP : preset_map :=
  [ (0.6, "close-up");
    (1.0, "medium shot");
    (1.4, "wide shot") ].

(** A property name is an array index when it is the canonical form of an
    integer in [0, 2^32 - 2]; such names are enumerated first, in ascending
    order, and the remaining names follow in insertion order. *)
Definition is_array_index (k : float) : bool :=
  match Prim2SF k with
  | S754_zero _ => true
  | S754_finite false m e =>
      ((0 <=? e)%Z || (Z.pos m mod 2 ^ (- e) =? 0)%Z) && (k <? 4294967295)
  | _ => false
  end.

(** [Array.prototype.sort((a, b) => a - b)]: a stable sort; [x] is placed
    before the first element that the comparator does not put before it. *)
Fixpoint sort_insert (x : float) (l : list float) : list float :=
  match l with
  | [] => [x]
  | y :: t => if (y - x <? 0) then y :: sort_insert x t else x :: y :: t
  end.

Definition sort_numeric (l : list float) : list float :=
  fold_right sort_insert [] l.

(** [Object.keys(o).map((value) => Number(value))] *)
Definition own_keys (o : preset_map) : list float :=
  let ks := map fst o in
  sort_numeric (filter is_array_index ks)
    ++ filter (fun k => negb (is_array_index k)) ks.

Definition ANGLE_PRESETS : list float := sort_numeric (own_keys AZIMUTH_MAP).
Definition ANGLE_COUNT : nat := List.length ANGLE_PRESETS.
Definition ELEVATION_PRESETS : list float := sort_numeric (own_keys ELEVATION_MAP).
Definition DISTANCE_PRESETS : list float := sort_numeric (own_keys DISTANCE_MAP).
Definition MAX_PARALLEL : Z := 3.

(** ** Prompt builder *)

(** The callback of [options.reduce] in [snapToNearest]. *)
Definition closer (value nearest option : float) : float :=
  if dist option value <? dist nearest value then option else nearest.

(** [options.reduce(f)] without an initial value starts from the first
    element and raises a [TypeError] on an empty array ([None]). *)
Definition snapToNearest (value : float) (options : list float) : option float :=
  match options with
  | [] => None
  | first :: rest => Some (fold_left (closer value) rest first)
  end.

(** [MAP[key]] *)
Fixpoint lookup_preset (m : preset_map) (key : float) : option string :=
  match m with
  | [] => None
  | (k, v) :: m' => if (k =? key) then Some v else lookup_preset m' key
  end.

(** Interpolation of a possibly missing property in a template literal. *)
Definition show (v : option string) : string :=
  match v with Some s => s | None => "undefined" end.

(** A string is held as the UTF-8 bytes of its text.  [trim] strips the
    white space and the line terminators of the language: the code points
    U+0009 to U+000D, U+0020, U+00A0, U+1680, U+2000 to U+200A, U+2028,
    U+2029, U+202F, U+205F, U+3000 and U+FEFF.  The first six are one byte
    long. *)
Definition is_space (c : ascii) : bool :=
  match c with
  | " "%char | "009"%char | "010"%char | "011"%char | "012"%char | "013"%char => true
  | _ => false
  end.

(** U+00A0, the only one of two bytes: [C2 A0]. *)
Definition is_space2 (a b : ascii) : bool :=
  (nat_of_ascii a =? 194)%nat && (nat_of_ascii b =? 160)%nat.

(** Those of three bytes: U+1680 is [E1 9A 80]; U+2000 to U+200A, U+2028,
    U+2029 and U+202F are [E2 80 80] to [E2 80 8A], [E2 80 A8], [E2 80 A9]
    and [E2 80 AF]; U+205F is [E2 81 9F]; U+3000 is [E3 80 80]; U+FEFF is
    [EF BB BF]. *)
Definition is_space3 (a b c : ascii) : bool :=
  let x := nat_of_ascii a in
  let y := nat_of_ascii b in
  let z := nat_of_ascii c in
  ((x =? 225) && (y =? 154) && (z =? 128)
   || (x =? 226) && (y =? 128)
      && ((128 <=? z) && (z <=? 138) || (z =? 168) || (z =? 169) || (z =? 175))
   || (x =? 226) && (y =? 129) && (z =? 159)
   || (x =? 227) && (y =? 128) && (z =? 128)
   || (x =? 239) && (y =? 187) && (z =? 191))%nat.

(** Drops the leading characters recognised by [is_space], [two] and
    [three]. *)
Fixpoint strip (two : ascii -> ascii -> bool) (three : ascii -> ascii -> ascii -> bool)
  (s : string) : string :=
  match s with
  | String a s1 =>
      if is_space a then strip two three s1
      else
        match s1 with
        | String b s2 =>
            if two a b then strip two three s2
            else
              match s2 with
              | String c s3 => if three a b c then strip two three s3 else s
              | EmptyString => s
              end
        | EmptyString => s
        end
  | EmptyString => EmptyString
  end.

(** [s.trimStart()] *)
Definition trim_start (s : string) : string := strip is_space2 is_space3 s.

Fixpoint string_rev_onto (s acc : string) : string :=
  match s with
  | EmptyString => acc
  | String c s' => string_rev_onto s' (String c acc)
  end.

Definition string_rev (s : string) : string := string_rev_onto s EmptyString.

(** [s.trim()]: the end is stripped on the reversed bytes, where the bytes
    of a character come in reverse order. *)
Definition trim (s : string) : string :=
  string_rev
    (strip (fun a b => is_space2 b a) (fun a b c => is_space3 c b a)
       (string_rev (trim_start s))).

Definition buildAnglePrompt (azimuth elevation distance : float) (extraPrompt : string)
  : option string :=
  match snapToNearest azimuth ANGLE_PRESETS,
        snapToNearest elevation ELEVATION_PRESETS,
        snapToNearest distance DISTANCE_PRESETS with
  | Some azimuthSnap, Some elevationSnap, Some distanceSnap =>
      let anglePrompt :=
        "<sks> " ++ show (lookup_preset AZIMUTH_MAP azimuthSnap) ++ " "
          ++ show (lookup_preset ELEVATION_MAP elevationSnap) ++ " "
          ++ show (lookup_preset DISTANCE_MAP distanceSnap) in
      let suffix := trim extraPrompt in
      Some (if String.eqb suffix "" then anglePrompt else anglePrompt ++ " " ++ suffix)
  | _, _, _ => None
  end.


(** ** Response payloads

    A parsed JSON body, extended with [undefined] for the result of reading a
    missing property.  Numeric leaves are only tested for truthiness and
    printed, and the model keeps the integers. *)

Inductive jsval : Type :=
| JUndefined
| JNull
| JBool (b : bool)
| JNum (n : Z)
| JStr (s : string)
| JArr (items : list jsval)
| JObj (props : list (string * jsval)).

(** Own properties of an object, found by name. *)
Fixpoint assoc (name : string) (props : list (string * jsval)) : jsval :=
  match props with
  | [] => JUndefined
  | (k, v) :: rest => if String.eqb k name then v else assoc name rest
  end.

(** [v?.name]: none of the names read by this module is a built-in property
    of a string, number, boolean or array. *)
Definition get (v : jsval) (name : string) : jsval :=
  match v with
  | JObj props => assoc name props
  | _ => JUndefined
  end.

(** [a ?? b] *)
Definition nullish (a b : jsval) : jsval :=
  match a with
  | JUndefined | JNull => b
  | _ => a
  end.

Definition truthy (v : jsval) : bool :=
  match v with
  | JUndefined | JNull => false
  | JBool b => b
  | JNum n => negb (n =? 0)%Z
  | JStr s => negb (String.eqb s "")
  | JArr _ | JObj _ => true
  end.

(** [a || b] *)
Definition js_or (a b : jsval) : jsval := if truthy a then a else b.

Definition show_Z (n : Z) : string := NilZero.string_of_int (Z.to_int n).
Definition show_nat (n : nat) : string := NilZero.string_of_uint (Nat.to_uint n).

Fixpoint join (sep : string) (parts : list string) : string :=
  match parts with
  | [] => ""
  | [p] => p
  | p :: rest => p ++ sep ++ join sep rest
  end.

(** The number that [JNum n] stands for is the binary64 value nearest to
    [n], ties to even: [n] itself up to 2^53, and beyond that [n] rounded to
    53 significant bits. *)
Definition double_of_Z (m : Z) : Z :=
  let b := Z.log2 m in
  if (b <? 53)%Z then m
  else
    let sh := (b - 52)%Z in
    let q := Z.shiftr m sh in
    let r := (m - Z.shiftl q sh)%Z in
    let half := Z.shiftl 1 (sh - 1) in
    let q' := if ((half <? r) || ((r =? half) && Z.odd q))%Z then (q + 1)%Z else q in
    Z.shiftl q' sh.

(** The shortest decimal [s * 10^e] that reads back as the binary64 value
    [x], and the nearest to [x] among the shortest; the search starts from
    the exponent [e] and goes down. *)
Fixpoint shortest_decimal (e : nat) (x : Z) : Z * nat :=
  let p := (10 ^ Z.of_nat e)%Z in
  let lo := (x / p)%Z in
  let hi := (lo + 1)%Z in
  let lo_ok := ((0 <? lo) && (double_of_Z (lo * p) =? x))%Z in
  let hi_ok := (double_of_Z (hi * p) =? x)%Z in
  let nearer :=
    if (x - lo * p <? hi * p - x)%Z then lo
    else if (hi * p - x <? x - lo * p)%Z then hi
    else if Z.even lo then lo else hi in
  match lo_ok, hi_ok with
  | true, true => (nearer, e)
  | true, false => (lo, e)
  | false, true => (hi, e)
  | false, false =>
      match e with
      | O => (x, O)
      | S e' => shortest_decimal e' x
      end
  end.

Fixpoint zeros (n : nat) : string :=
  match n with
  | O => ""
  | S n' => String "0" (zeros n')
  end.

(** [String(x)] for a positive integral number [x]: the digits of the
    shortest decimal, followed by zeros below 10^21 and in exponent
    notation from there on. *)
Definition show_number (m : Z) : string :=
  let x := double_of_Z m in
  if (2 ^ 1024 <=? x)%Z then "Infinity"
  else
    let '(s, e) := shortest_decimal (String.length (show_Z x)) x in
    let digits := show_Z s in
    if (x <? 10 ^ 21)%Z then digits ++ zeros e
    else
      let exponent := show_nat (String.length digits + e - 1) in
      match digits with
      | String d EmptyString => String d ("e+" ++ exponent)
      | String d rest => String d ("." ++ rest ++ "e+" ++ exponent)
      | EmptyString => digits
      end.

(** [String(v)] *)
Fixpoint js_String (v : jsval) : string :=
  match v with
  | JUndefined => "undefined"
  | JNull => "null"
  | JBool true => "true"
  | JBool false => "false"
  | JNum n =>
      if (Z.abs n <? 2 ^ 53)%Z then show_Z n
      else if (n <? 0)%Z then "-" ++ show_number (- n)
      else show_number n
  | JStr s => s
  | JArr items =>
      join "," (map (fun item => match item with
                                 | JUndefined | JNull => ""
                                 | _ => js_String item
                                 end) items)
  | JObj _ => "[object Object]"
  end.

Definition lower (c : ascii) : ascii :=
  let n := nat_of_ascii c in
  if ((65 <=? n) && (n <=? 90))%nat then ascii_of_nat (n + 32) else c.

(** [s.toLowerCase()] on the letters of the ASCII range. *)
Fixpoint toLowerCase (s : string) : string :=
  match s with
  | EmptyString => EmptyString
  | String c s' => String (lower c) (toLowerCase s')
  end.

(** [hay.includes(needle)] *)
Fixpoint includes (needle hay : string) : bool :=
  String.prefix needle hay ||
  match hay with
  | EmptyString => false
  | String _ hay' => includes needle hay'
  end.

Definition normalizeImage (value : jsval) : option string :=
  match value with
  | JStr s =>
      if String.eqb s "" then None
      else if String.prefix "data:" s || String.prefix "http" s then Some s
      else Some ("data:image/png;base64," ++ s)
  | _ => None
  end.

(** [.filter(Boolean)] over the results of [normalizeImage]. *)
Fixpoint filter_Boolean (l : list (option string)) : list string :=
  match l with
  | [] => []
  | Some s :: rest => s :: filter_Boolean rest
  | None :: rest => filter_Boolean rest
  end.

(** The first loop of [extractImageList]. *)
Fixpoint first_image_list (listCandidates : list jsval) : option (list string) :=
  match listCandidates with
  | [] => None
  | candidate :: rest =>
      match candidate with
      | JArr items =>
          let normalized :=
            filter_Boolean
              (map (fun item =>
                      normalizeImage
                        (nullish (get item "image")
                           (nullish (get item "url") (nullish (get item "data") item))))
                 items) in
          match normalized with
          | [] => first_image_list rest
          | _ :: _ => Some normalized
          end
      | _ => first_image_list rest
      end
  end.

(** The second loop of [extractImageList]. *)
Fixpoint first_single_image (singleCandidates : list jsval) : list string :=
  match singleCandidates with
  | [] => []
  | candidate :: rest =>
      match normalizeImage candidate with
      | Some normalized => [normalized]
      | None => first_single_image rest
      end
  end.

Definition extractImageList (payload : jsval) : list string :=
  let output := nullish (get payload "output") (nullish (get payload "result") payload) in
  let listCandidates :=
    [get output "images"; get output "outputs"; get output "output_images";
     get output "data"; get payload "images"] in
  match first_image_list listCandidates with
  | Some normalized => normalized
  | None =>
      first_single_image
        [get output "image"; get output "output_image"; get output "output_image_base64";
         get output "message"; get output "data"; get payload "image"; get payload "data"]
  end.

Definition extractJobId (payload : jsval) : jsval :=
  js_or (get payload "id")
    (js_or (get payload "jobId")
       (js_or (get payload "job_id") (get (get payload "output") "id"))).

(** ** View records and selection *)

Inductive Status := Squeued | Srunning | Sdone | Serror.

Record AngleResult := mkAngleResult {
  id : string;
  azimuth : float;
  elevation : float;
  distance : float;
  status : Status;
  image : option string;
  seed : option float;
  error : option string
}.

Definition wrapIndex (value length : Z) : Z :=
  if (length =? 0)%Z then 0%Z
  else Z.rem (Z.rem value length + length) length.

(** [items[index]] for an integral [index]. *)
Definition at_index (A : Type) (items : list A) (index : Z) : option A :=
  if (index <? 0)%Z then None else nth_error items (Z.to_nat index).

(** [items[index]?.image], as a condition. *)
Definition has_image (items : list AngleResult) (index : Z) : bool :=
  match at_index items index with
  | Some item =>
      match image item with
      | Some s => negb (String.eqb s "")
      | None => false
      end
  | None => false
  end.

(** The [for] loop of [findNearestImageIndex]; [n] counts the offsets left. *)
Fixpoint scan_offsets (index : Z) (items : list AngleResult) (n : nat) (offset : Z) : Z :=
  match n with
  | O => (-1)%Z
  | S n' =>
      let right := wrapIndex (index + offset) (Z.of_nat (List.length items)) in
      let left := wrapIndex (index - offset) (Z.of_nat (List.length items)) in
      if has_image items right then right
      else if has_image items left then left
      else scan_offsets index items n' (offset + 1)
  end.

Definition findNearestImageIndex (index : Z) (items : list AngleResult) : Z :=
  match items with
  | [] => (-1)%Z
  | _ :: _ =>
      if has_image items index then index
      else scan_offsets index items (List.length items - 1) 1
  end.

(** ** Component state and asynchronous code *)

(** The state of [Camera] that the render pipeline reads and writes:
    [runIdRef.current] and the [useState] cells it sets.  State setters are
    applied in call order. *)
Record store := mkStore {
  runIdRef : Z;
  results : list AngleResult;
  selectedIndex : Z;
  statusMessage : string;
  isRunning : bool
}.

Definition set_runIdRef (runId : Z) (s : store) : store :=
  mkStore runId (results s) (selectedIndex s) (statusMessage s) (isRunning s).

Definition setResults (f : list AngleResult -> list AngleResult) (s : store) : store :=
  mkStore (runIdRef s) (f (results s)) (selectedIndex s) (statusMessage s) (isRunning s).

Definition setSelectedIndex (f : Z -> Z) (s : store) : store :=
  mkStore (runIdRef s) (results s) (f (selectedIndex s)) (statusMessage s) (isRunning s).

Definition setStatusMessage (message : string) (s : store) : store :=
  mkStore (runIdRef s) (results s) (selectedIndex s) message (isRunning s).

Definition setIsRunning (b : bool) (s : store) : store :=
  mkStore (runIdRef s) (results s) (selectedIndex s) (statusMessage s) b.

(** The values of the other hooks, as captured by the callbacks of one
    render: the settings, and the [results] array that [applyImageAt] closed
    over. *)
Module Hooks.
Record t := mk {
  prompt : string;
  elevation : float;
  distance : float;
  guidanceScale : float;
  steps : float;
  width : float;
  height : float;
  seed : float;
  randomizeSeed : bool;
  results : list AngleResult
}.
End Hooks.

(** The [input] object posted by [submitAngle]. *)
Module Input.
Record t := mk {
  image_base64 : string;
  prompt : string;
  guidance_scale : float;
  num_inference_steps : float;
  width : float;
  height : float;
  seed : float;
  randomize_seed : bool;
  worker_mode : string
}.
End Input.

Inductive request :=
| PostRender (input : Input.t)
| GetStatus (jobId : string).

(** What [await fetch(...)] produces: a rejection, or a response with its
    [ok] flag. *)
Inductive fetch_reply :=
| FetchRejected (message : string)
| FetchResponse (ok : bool).

(** An [async] function body.  [Get] and [Put] run synchronously; the other
    inner nodes are suspension points: [AwaitFetch] for [await fetch(req)],
    [AwaitJson] for [await res.json()] ([None] when the body does not parse),
    [AwaitWait] for [await wait(ms)] and [AwaitCall] for the turn taken by
    awaiting the promise of another [async] function.  Every value thrown in
    this module is an [Error]; [Throw] keeps its message, which is all the
    [catch] blocks read. *)
Inductive async (A : Type) : Type :=
| Ret (a : A)
| Throw (message : string)
| Get (k : store -> async A)
| Put (f : store -> store) (k : async A)
| AwaitFetch (req : request) (k : fetch_reply -> async A)
| AwaitJson (k : option jsval -> async A)
| AwaitWait (ms : Z) (k : async A)
| AwaitCall (k : async A).

Arguments Ret {A} a.
Arguments Throw {A} message.
Arguments Get {A} k.
Arguments Put {A} f k.
Arguments AwaitFetch {A} req k.
Arguments AwaitJson {A} k.
Arguments AwaitWait {A} ms k.
Arguments AwaitCall {A} k.

Fixpoint bind (A B : Type) (m : async A) (f : A -> async B) : async B :=
  match m with
  | Ret a => f a
  | Throw message => Throw message
  | Get k => Get (fun s => bind (k s) f)
  | Put g k => Put g (bind k f)
  | AwaitFetch req k => AwaitFetch req (fun r => bind (k r) f)
  | AwaitJson k => AwaitJson (fun d => bind (k d) f)
  | AwaitWait ms k => AwaitWait ms (bind k f)
  | AwaitCall k => AwaitCall (bind k f)
  end.

(** [try { m } catch (error) { handler(error.message) }] *)
Fixpoint try_catch (A : Type) (m : async A) (handler : string -> async A) : async A :=
  match m with
  | Ret a => Ret a
  | Throw message => handler message
  | Get k => Get (fun s => try_catch (k s) handler)
  | Put g k => Put g (try_catch k handler)
  | AwaitFetch req k => AwaitFetch req (fun r => try_catch (k r) handler)
  | AwaitJson k => AwaitJson (fun d => try_catch (k d) handler)
  | AwaitWait ms k => AwaitWait ms (try_catch k handler)
  | AwaitCall k => AwaitCall (try_catch k handler)
  end.

(** [await callee(...)]: the caller resumes, with the value or the
    rejection, on a later turn than the one that settled the callee. *)
Definition await_call (A : Type) (callee : async A) : async A :=
  try_catch (bind callee (fun a => AwaitCall (Ret a)))
            (fun message => AwaitCall (Throw message)).

Declare Scope async_scope.
Delimit Scope async_scope with async.
Notation "x <- m ;; k" := (bind m (fun x => k))
  (at level 61, m at next level, right associativity) : async_scope.
Notation "m ;;; k" := (bind m (fun _ => k))
  (at level 61, right associativity) : async_scope.
Open Scope async_scope.

(** A state setter call. *)
Definition update (f : store -> store) : async unit := Put f (Ret tt).

(** Where a synchronous run stops. *)
Inductive paused (A : Type) : Type :=
| Finished (a : A)
| Raised (message : string)
| Suspended (p : async A).

Arguments Finished {A} a.
Arguments Raised {A} message.
Arguments Suspended {A} p.

(** Runs [p] up to its next suspension point; also counts the state writes
    it performs on the way. *)
Fixpoint run_sync (A : Type) (p : async A) (s : store) : paused A * store * nat :=
  match p with
  | Ret a => (Finished a, s, O)
  | Throw message => (Raised message, s, O)
  | Get k => run_sync (k s) s
  | Put f k => let '(o, s', n) := run_sync k (f s) in (o, s', S n)
  | _ => (Suspended p, s, O)
  end.

(** The event that resumes a suspended function. *)
Inductive reply :=
| FetchSettled (r : fetch_reply)
| JsonSettled (data : option jsval)
| TimerFired
| CallSettled.

Definition resume (A : Type) (p : async A) (r : reply) : option (async A) :=
  match p, r with
  | AwaitFetch _ k, FetchSettled x => Some (k x)
  | AwaitJson k, JsonSettled d => Some (k d)
  | AwaitWait _ k, TimerFired => Some k
  | AwaitCall k, CallSettled => Some k
  | _, _ => None
  end.

(** *** One function run to its end against a scripted environment

    At its [n]-th suspension the function receives the reply the environment
    has for it, and finds the state as the rest of the program left it in the
    meantime ([meanwhile n]). *)
Record world := mkWorld {
  fetch_at : nat -> request -> fetch_reply;
  json_at : nat -> option jsval;
  meanwhile : nat -> store -> store
}.

Record run_log (A : Type) := mkLog {
  outcome : paused A;
  final : store;
  requests : list request;
  delays : list Z
}.

Fixpoint exec (A : Type) (w : world) (n : nat) (p : async A) (s : store) : run_log A :=
  match p with
  | Ret a => mkLog (Finished a) s [] []
  | Throw message => mkLog (Raised message) s [] []
  | Get k => exec w n (k s) s
  | Put f k => exec w n k (f s)
  | AwaitFetch req k =>
      let l := exec w (S n) (k (fetch_at w n req)) (meanwhile w n s) in
      mkLog (outcome l) (final l) (req :: requests l) (delays l)
  | AwaitJson k => exec w (S n) (k (json_at w n)) (meanwhile w n s)
  | AwaitWait ms k =>
      let l := exec w (S n) k (meanwhile w n s) in
      mkLog (outcome l) (final l) (requests l) (ms :: delays l)
  | AwaitCall k => exec w (S n) k (meanwhile w n s)
  end.

(** ** Job submitter and job poller *)

(** [array.map((item, index) => f(item, index))] *)
Fixpoint mapi_from (A B : Type) (f : A -> nat -> B) (start : nat) (l : list A) : list B :=
  match l with
  | [] => []
  | x :: rest => f x start :: mapi_from f (S start) rest
  end.

Definition mapi (A B : Type) (f : A -> nat -> B) (l : list A) : list B := mapi_from f 0 l.

(** [await res.json().catch(() => ({}))] *)
Definition parsed (body : option jsval) : jsval :=
  match body with
  | Some data => data
  | None => JObj []
  end.

(** [new Error(a || b)], by its message. *)
Definition message_of (v : jsval) (fallback : string) : string :=
  js_String (js_or v (JStr fallback)).

(** What [submitAngle] resolves to: [{ images }] or [{ jobId }]. *)
Inductive submitted :=
| Images (images : list string)
| Job (jobId : jsval).

Definition submitAngle (h : Hooks.t) (anglePrompt payload : string) : async submitted :=
  if String.eqb payload "" then Throw "Image is missing."
  else
    let input :=
      Input.mk payload anglePrompt (Hooks.guidanceScale h) (Hooks.steps h)
        (Hooks.width h) (Hooks.height h) (Hooks.seed h) (Hooks.randomizeSeed h)
        "comfyui" in
    AwaitFetch (PostRender input) (fun res =>
      match res with
      | FetchRejected message => Throw message
      | FetchResponse ok =>
          AwaitJson (fun body =>
            let data := parsed body in
            if negb ok then
              Throw (message_of (js_or (get data "error") (get data "message")) "Request failed.")
            else
              match extractImageList data with
              | (_ :: _) as images => Ret (Images images)
              | [] =>
                  let jobId := extractJobId data in
                  if truthy jobId then Ret (Job jobId) else Throw "Missing job id."
              end)
      end).

Inductive poll_status := Pcancelled | Pdone.

Record polled := mkPolled {
  poll_status_of : poll_status;
  poll_images : list string
}.

(** [String(data?.status || data?.state || '').toLowerCase()] *)
Definition status_text (data : jsval) : string :=
  toLowerCase (js_String (js_or (js_or (get data "status") (get data "state")) (JStr ""))).

(** [status.includes('fail')] *)
Definition failure_marked (data : jsval) : bool := includes "fail" (status_text data).

(** [runIdRef.current !== runId] *)
Definition superseded (runId : Z) (s : store) : bool := negb (runIdRef s =? runId)%Z.

(** The [for] loop of [pollJob], with [remaining] iterations to go from
    counter [i] on. *)
Fixpoint poll_loop (jobId : jsval) (runId : Z) (remaining : nat) (i : Z) : async polled :=
  match remaining with
  | O => Throw "Render timed out."
  | S remaining' =>
      Get (fun s =>
        if superseded runId s then Ret (mkPolled Pcancelled [])
        else
          AwaitFetch (GetStatus (js_String jobId)) (fun res =>
            match res with
            | FetchRejected message => Throw message
            | FetchResponse ok =>
                AwaitJson (fun body =>
                  let data := parsed body in
                  if negb ok then
                    Throw (message_of (js_or (get data "error") (get data "message"))
                             "Status request failed.")
                  else
                    if failure_marked data then
                      Throw (message_of (get data "error") "Render failed.")
                    else
                      match extractImageList data with
                      | (_ :: _) as images => Ret (mkPolled Pdone images)
                      | [] => AwaitWait (1500 + i * 40) (poll_loop jobId runId remaining' (i + 1))
                      end)
            end))
  end.

Definition pollJob (jobId : jsval) (runId : Z) : async polled :=
  poll_loop jobId runId 120 0.

(** ** Render orchestrator *)

Module View.
Record t := mk {
  azimuth : float;
  elevation : float;
  distance : float
}.
End View.

Definition buildViews (h : Hooks.t) : list View.t :=
  map (fun angle => View.mk angle (Hooks.elevation h) (Hooks.distance h)) ANGLE_PRESETS.

Definition applyImageAt (h : Hooks.t) (index : nat) (img : string) : async unit :=
  update (setResults (fun prev =>
    mapi (fun item itemIndex =>
            mkAngleResult (id item) (azimuth item) (elevation item) (distance item)
              (if (itemIndex =? index)%nat then Sdone else status item)
              (if (itemIndex =? index)%nat then Some img else image item)
              (seed item) (error item)) prev)) ;;;
  update (setSelectedIndex (fun prev =>
    if (prev =? Z.of_nat index)%Z then prev
    else if negb (has_image (Hooks.results h) prev) then Z.of_nat index
    else prev)).

(** [{ ...item, status, error }] at [index], the other items unchanged. *)
Definition mark (index : nat) (st : Status) (err : option string)
  (prev : list AngleResult) : list AngleResult :=
  mapi (fun item itemIndex =>
          if (itemIndex =? index)%nat then
            mkAngleResult (id item) (azimuth item) (elevation item) (distance item)
              st (image item) (seed item) err
          else item) prev.

(** One element of [tasks] in [startBatch]. *)
Definition task (h : Hooks.t) (runId : Z) (payload : string) (view : View.t) (index : nat)
  : async unit :=
  Get (fun s =>
    if superseded runId s then Ret tt
    else
      update (setResults (mark index Srunning None)) ;;;
      match buildAnglePrompt (View.azimuth view) (View.elevation view) (View.distance view)
              (Hooks.prompt h) with
      | None => Throw "Reduce of empty array with no initial value"
      | Some anglePrompt =>
          try_catch
            (submitted <- await_call (submitAngle h anglePrompt payload) ;;
             Get (fun s =>
               if superseded runId s then Ret tt
               else
                 match submitted with
                 | Images (img :: _) => applyImageAt h index img
                 | Images [] => Ret tt
                 | Job jobId =>
                     polled <- await_call (pollJob jobId runId) ;;
                     Get (fun s =>
                       if superseded runId s then Ret tt
                       else
                         match poll_status_of polled, poll_images polled with
                         | Pdone, img :: _ => applyImageAt h index img
                         | _, _ => Ret tt
                         end)
                 end))
            (fun message =>
               Get (fun s =>
                 if superseded runId s then Ret tt
                 else
                   update (setResults (mark index Serror (Some message))) ;;;
                   update (setStatusMessage message)))
      end).

(** [startBatch] up to the call of [runQueue]: [None] when it returns at
    once, otherwise the new epoch and the task list.  [makeId i] is the
    identifier drawn for the [i]-th view. *)
Definition startBatch_begin (h : Hooks.t) (makeId : nat -> string) (payload : string)
  : async (option (Z * list (async unit))) :=
  if String.eqb payload "" then Ret None
  else
    Get (fun s =>
      let runId := (runIdRef s + 1)%Z in
      update (set_runIdRef runId) ;;;
      update (setIsRunning true) ;;;
      update (setStatusMessage ("Rendering " ++ show_nat ANGLE_COUNT ++ " angles...")) ;;;
      let views := buildViews h in
      update (setResults (fun _ =>
        mapi (fun view i =>
                mkAngleResult (makeId i) (View.azimuth view) (View.elevation view)
                  (View.distance view) Squeued None None None) views)) ;;;
      update (setSelectedIndex (fun _ => 0%Z)) ;;;
      Ret (Some (runId, mapi (fun view index => task h runId payload view index) views))).

(** [startBatch] after [await runQueue(tasks, MAX_PARALLEL)] has settled:
    the rest of the [try] block, or the [catch] block with the rejection
    message, then the [finally] block. *)
Definition startBatch_finish (runId : Z) (rejection : option string) : async unit :=
  match rejection with
  | None =>
      Get (fun s =>
        if (runIdRef s =? runId)%Z then update (setStatusMessage "Completed.") else Ret tt)
  | Some message =>
      update (setStatusMessage message) ;;;
      update (setResults (map (fun item =>
        mkAngleResult (id item) (azimuth item) (elevation item) (distance item)
          Serror (image item) (seed item) (Some message))))
  end ;;;
  Get (fun s =>
    if (runIdRef s =? runId)%Z then update (setIsRunning false) else Ret tt).

(** ** Bounded task runner

    A runner is one of the [async] closures created by [Array.from] in
    [runQueue].  It is either awaiting the task it claimed, which is itself
    suspended at [p]; or its task has settled and the runner resumes on a
    later turn; or it has returned; or it has rejected. *)
Inductive runner :=
| Awaiting (index : nat) (p : async unit)
| Settled (index : nat) (rejection : option string)
| Returned
| Rejected (message : string).

(** The state of one call of [runQueue]: the shared [cursor] and the
    runners, together with two histories kept for the statements below:
    [claimed] lists the pairs (runner, index) in the order the tasks were
    started, and [resolved] the indices of the tasks that have settled. *)
Record queue := mkQueue {
  cursor : nat;
  runners : list runner;
  claimed : list (nat * nat);
  resolved : list nat
}.

Definition settle (index : nat) (o : paused unit) : runner :=
  match o with
  | Finished _ => Settled index None
  | Raised message => Settled index (Some message)
  | Suspended p => Awaiting index p
  end.

Definition settled_now (index : nat) (o : paused unit) : list nat :=
  match o with
  | Suspended _ => []
  | _ => [index]
  end.

(** [runners[w] = r] *)
Fixpoint set_runner (w : nat) (r : runner) (l : list runner) : list runner :=
  match l, w with
  | [], _ => []
  | _ :: rest, O => r :: rest
  | x :: rest, S w' => x :: set_runner w' r rest
  end.

(** One pass of the loop body of runner [w]: [const index = cursor;
    cursor += 1; if (index >= tasks.length) return; await tasks[index]()],
    up to the suspension of the [await]. *)
Definition claim (tasks : list (async unit)) (w : nat) (q : queue) (s : store)
  : runner * queue * store * nat :=
  let index := cursor q in
  match nth_error tasks index with
  | None => (Returned, mkQueue (S index) (runners q) (claimed q) (resolved q), s, O)
  | Some t =>
      let '(o, s', n) := run_sync t s in
      (settle index o,
       mkQueue (S index) (runners q) (claimed q ++ [(w, index)])
         (resolved q ++ settled_now index o),
       s', n)
  end.

Definition with_runners (q : queue) (l : list runner) : queue :=
  mkQueue (cursor q) l (claimed q) (resolved q).

(** [Array.from({ length: n }, async () => { ... })]: the runners are
    created in order, and each runs to its first suspension when it is
    created. *)
Fixpoint launch (tasks : list (async unit)) (n : nat) (q : queue) (s : store)
  : queue * store :=
  match n with
  | O => (q, s)
  | S n' =>
      let '(r, q1, s1, _) := claim tasks (List.length (runners q)) q s in
      launch tasks n' (with_runners q1 (runners q1 ++ [r])) s1
  end.

(** [Math.max(1, concurrency)], as an array length. *)
Definition runner_count (concurrency : Z) : nat := Z.to_nat (Z.max 1 concurrency).

(** [runQueue(tasks, concurrency)] up to [await Promise.all(runners)]. *)
Definition runQueue (tasks : list (async unit)) (concurrency : Z) (s : store)
  : queue * store :=
  launch tasks (runner_count concurrency) (mkQueue 0 [] [] []) s.

(** One turn of the scheduler on behalf of [runQueue], from state [s], with
    the number of state writes made during the turn:
    - an event resumes the task awaited by runner [w], which runs to its
      next suspension or settles;
    - runner [w], whose task has fulfilled, takes its next pass;
    - runner [w], whose task has rejected, rejects. *)
Inductive qstep (tasks : list (async unit)) (q : queue) (s : store)
  : queue -> store -> nat -> Prop :=
| qstep_event w index p r p' o s' n :
    nth_error (runners q) w = Some (Awaiting index p) ->
    resume p r = Some p' ->
    run_sync p' s = (o, s', n) ->
    qstep tasks q s
      (mkQueue (cursor q) (set_runner w (settle index o) (runners q)) (claimed q)
         (resolved q ++ settled_now index o)) s' n
| qstep_next w index r q1 s1 n :
    nth_error (runners q) w = Some (Settled index None) ->
    claim tasks w q s = (r, q1, s1, n) ->
    qstep tasks q s (with_runners q1 (set_runner w r (runners q1))) s1 n
| qstep_reject w index message :
    nth_error (runners q) w = Some (Settled index (Some message)) ->
    qstep tasks q s (with_runners q (set_runner w (Rejected message) (runners q))) s O.

(** The queue states that follow one another, whatever the component state
    is at each turn. *)
Definition qnext (tasks : list (async unit)) (q q' : queue) : Prop :=
  exists s s' n, qstep tasks q s q' s' n.

Inductive qreach (tasks : list (async unit)) (q0 : queue) : queue -> Prop :=
| qreach_here : qreach tasks q0 q0
| qreach_step q q' : qreach tasks q0 q -> qnext tasks q q' -> qreach tasks q0 q'.

(** The same turn as a function: runner [w] receives the event [r], or,
    with no event, takes its next pass or rejects. *)
Definition turn (tasks : list (async unit)) (q : queue) (s : store) (w : nat)
  (r : option reply) : option (queue * store) :=
  match nth_error (runners q) w, r with
  | Some (Awaiting index p), Some rep =>
      match resume p rep with
      | Some p' =>
          let '(o, s', _) := run_sync p' s in
          Some (mkQueue (cursor q) (set_runner w (settle index o) (runners q)) (claimed q)
                  (resolved q ++ settled_now index o), s')
      | None => None
      end
  | Some (Settled index None), None =>
      let '(r', q1, s1, _) := claim tasks w q s in
      Some (with_runners q1 (set_runner w r' (runners q1)), s1)
  | Some (Settled index (Some message)), None =>
      Some (with_runners q (set_runner w (Rejected message) (runners q)), s)
  | _, _ => None
  end.

(** A scripted execution: the turns of [script], in order. *)
Fixpoint drive (tasks : list (async unit)) (script : list (nat * option reply))
  (q : queue) (s : store) : option (queue * store) :=
  match script with
  | [] => Some (q, s)
  | (w, r) :: rest =>
      match turn tasks q s w r with
      | Some (q', s') => drive tasks rest q' s'
      | None => None
      end
  end.

(** The states of [runQueue(tasks, concurrency)] during an execution. *)
Definition running_queue (tasks : list (async unit)) (concurrency : Z) (q : queue) : Prop :=
  exists s0, qreach tasks (fst (runQueue tasks concurrency s0)) q.

(** The tasks that have been started and have not settled. *)
Definition in_flight (q : queue) : list nat :=
  filter (fun index => negb (existsb (Nat.eqb index) (resolved q))) (map snd (claimed q)).

(** What can be seen of the outcome of a scripted execution: the tasks in
    flight, the claims, and the status and image of each view. *)
Definition observe (x : option (queue * store))
  : option (list nat * list (nat * nat) * list Status * list (option string)) :=
  match x with
  | Some (q, s) => Some (in_flight q, claimed q, map status (results s), map image (results s))
  | None => None
  end.

(** [Promise.all(runners)] has fulfilled. *)
Definition all_returned (q : queue) : Prop :=
  Forall (fun r => r = Returned) (runners q).

(** No turn is left to take. *)
Definition quiescent (tasks : list (async unit)) (q : queue) : Prop :=
  forall q', ~ qnext tasks q q'.

(** How [await Promise.all(runners)] settles: fulfilled ([None]) once every
    runner has returned, rejected as soon as one runner has. *)
Inductive joins (q : queue) : option string -> Prop :=
| joins_fulfilled : all_returned q -> joins q None
| joins_rejected w message :
    nth_error (runners q) w = Some (Rejected message) -> joins q (Some message).

(** A task that never rejects: no [throw] escapes it. *)
Fixpoint never_throws (A : Type) (p : async A) : Prop :=
  match p with
  | Ret _ => True
  | Throw _ => False
  | Get k => forall s, never_throws (k s)
  | Put _ k => never_throws k
  | AwaitFetch _ k => forall r, never_throws (k r)
  | AwaitJson k => forall d, never_throws (k d)
  | AwaitWait _ k => never_throws k
  | AwaitCall k => never_throws k
  end.

(** ** The whole pipeline: runs sharing the component state *)

Record run := mkRun {
  run_id : Z;
  run_tasks : list (async unit);
  run_queue : queue;
  run_joined : bool
}.

Record system := mkSystem {
  sys_store : store;
  sys_runs : list run
}.

Fixpoint set_run (k : nat) (r : run) (l : list run) : list run :=
  match l, k with
  | [], _ => []
  | _ :: rest, O => r :: rest
  | x :: rest, S k' => x :: set_run k' r rest
  end.

(** Who takes a turn: a call of [startBatch] from an event handler, or a
    continuation that belongs to the [k]-th run started so far.  A turn is
    labelled with its actor and with the number of state writes it makes
    (for a handler, those of [startBatch] before it launches the runners). *)
Inductive actor :=
| Handler
| OfRun (k : nat).

Inductive sys_step (sys : system) : actor -> system -> nat -> Prop :=
| sys_start h makeId payload runId tasks s1 n1 q s2 :
    run_sync (startBatch_begin h makeId payload) (sys_store sys)
      = (Finished (Some (runId, tasks)), s1, n1) ->
    runQueue tasks MAX_PARALLEL s1 = (q, s2) ->
    sys_step sys Handler
      (mkSystem s2 (sys_runs sys ++ [mkRun runId tasks q false])) n1
| sys_turn k r q' s' n :
    nth_error (sys_runs sys) k = Some r ->
    qstep (run_tasks r) (run_queue r) (sys_store sys) q' s' n ->
    sys_step sys (OfRun k)
      (mkSystem s' (set_run k (mkRun (run_id r) (run_tasks r) q' (run_joined r))
                      (sys_runs sys))) n
| sys_join k r rejection o s' n :
    nth_error (sys_runs sys) k = Some r ->
    run_joined r = false ->
    joins (run_queue r) rejection ->
    run_sync (startBatch_finish (run_id r) rejection) (sys_store sys) = (o, s', n) ->
    sys_step sys (OfRun k)
      (mkSystem s' (set_run k (mkRun (run_id r) (run_tasks r) (run_queue r) true)
                      (sys_runs sys))) n.

Inductive sys_reach (s0 : store) : system -> Prop :=
| sys_reach_init : sys_reach s0 (mkSystem s0 [])
| sys_reach_step sys a sys' n :
    sys_reach s0 sys -> sys_step sys a sys' n -> sys_reach s0 sys'.

(** The system after a call of [startBatch] with a non-empty payload. *)
Definition started (h : Hooks.t) (makeId : nat -> string) (payload : string)
  (sys : system) : system :=
  let runId := (runIdRef (sys_store sys) + 1)%Z in
  let tasks := mapi (fun view index => task h runId payload view index) (buildViews h) in
  let s1 :=
    mkStore runId
      (mapi (fun view i =>
               mkAngleResult (makeId i) (View.azimuth view) (View.elevation view)
                 (View.distance view) Squeued None None None) (buildViews h))
      0 ("Rendering " ++ show_nat ANGLE_COUNT ++ " angles...") true in
  mkSystem (snd (runQueue tasks MAX_PARALLEL s1))
    (sys_runs sys ++ [mkRun runId tasks (fst (runQueue tasks MAX_PARALLEL s1)) false]).

(** A turn of runner [w] of the [k]-th run, as a function. *)
Definition sys_turn_of (sys : system) (k w : nat) (rep : option reply) : option system :=
  match nth_error (sys_runs sys) k with
  | Some r =>
      match turn (run_tasks r) (run_queue r) (sys_store sys) w rep with
      | Some (q', s') =>
          Some (mkSystem s' (set_run k (mkRun (run_id r) (run_tasks r) q' (run_joined r))
                               (sys_runs sys)))
      | None => None
      end
  | None => None
  end.

(** Scripted turns of the [k]-th run. *)
Fixpoint sys_drive (sys : system) (k : nat) (script : list (nat * option reply))
  : option system :=
  match script with
  | [] => Some sys
  | (w, rep) :: rest =>
      match sys_turn_of sys k w rep with
      | Some sys' => sys_drive sys' k rest
      | None => None
      end
  end.

(** What the user sees of a system: the epoch, the status line, and the
    status and image of each view. *)
Definition display (x : option system)
  : option (Z * string * list Status * list (option string)) :=
  match x with
  | Some sys =>
      Some (runIdRef (sys_store sys), statusMessage (sys_store sys),
            map status (results (sys_store sys)), map image (results (sys_store sys)))
  | None => None
  end.

(** ** Vocabulary of the statements *)

(** Snapping leaves the members of [presets] unchanged, and snapping twice
    is snapping once. *)
Definition snap_idempotent_on (presets : list float) : Prop :=
  (forall p, In p presets -> snapToNearest p presets = Some p) /\
  (forall value, exists r,
      snapToNearest value presets = Some r /\ snapToNearest r presets = Some r).

(** The status endpoint, as [pollJob] meets it in [w], always answers with a
    successful HTTP status and a body that holds neither an extractable
    image nor a failure-marked status. *)
Definition never_resolves (w : world) : Prop :=
  (forall k req, fetch_at w k req = FetchResponse true) /\
  (forall k, extractImageList (parsed (json_at w k)) = [] /\
             failure_marked (parsed (json_at w k)) = false).

(** Nothing else in [w] changes the run epoch. *)
Definition epoch_kept (w : world) : Prop :=
  forall k s, runIdRef (meanwhile w k s) = runIdRef s.

(** The records a new run starts from: one per view, all queued. *)
Definition queued_results (h : Hooks.t) (makeId : nat -> string) : list AngleResult :=
  mapi (fun angle i =>
          mkAngleResult (makeId i) angle (Hooks.elevation h) (Hooks.distance h)
            Squeued None None None) ANGLE_PRESETS.

(** The component state when [startBatch] reaches [runQueue]. *)
Definition state_at_dispatch (h : Hooks.t) (makeId : nat -> string) (s : store) : store :=
  mkStore (runIdRef s + 1) (queued_results h makeId) 0 "Rendering 8 angles..." true.

(** The task a runner is waiting for, if any. *)
Definition awaited_by (r : runner) : list nat :=
  match r with
  | Awaiting index _ => [index]
  | _ => []
  end.

Definition awaited (l : list runner) : list nat := flat_map awaited_by l.

(** The histories agree with the cursor and the runners: the tasks started
    are those below the cursor, in order; each is resolved or awaited by a
    runner; a runner returns only once the cursor has passed the last task;
    and every claim was made by one of the runners. *)
Record queue_inv (tasks : list (async unit)) (q : queue) : Prop := mkQueueInv {
  inv_started : map snd (claimed q) = seq 0 (Nat.min (cursor q) (List.length tasks));
  inv_flight : Permutation (map snd (claimed q)) (resolved q ++ awaited (runners q));
  inv_returned : In Returned (runners q) -> (List.length tasks <= cursor q)%nat;
  inv_owner : forall w i, In (w, i) (claimed q) -> (w < List.length (runners q))%nat
}.

(** [p] is stopped at one of its suspension points. *)
Definition suspension (A : Type) (p : async A) : Prop :=
  exists r p', resume p r = Some p'.

(** A runner that waits, waits for an event. *)
Definition runner_waits (r : runner) : Prop :=
  match r with
  | Awaiting _ p => suspension p
  | _ => True
  end.

(** A runner none of whose tasks has rejected or can reject. *)
Definition runner_clean (r : runner) : Prop :=
  match r with
  | Awaiting _ p => never_throws p
  | Settled _ (Some _) => False
  | Settled _ None => True
  | Returned => True
  | Rejected _ => False
  end.

(** The runners of an execution wait for events only, and reject only if a
    task can. *)
Definition runners_inv (tasks : list (async unit)) (q : queue) : Prop :=
  Forall runner_waits (runners q) /\
  (Forall (@never_throws unit) tasks -> Forall runner_clean (runners q)).

(** One event taken by a runner: [r'] follows [r]. *)
Definition rstep (r' r : runner) : Prop :=
  exists index p rep p' s,
    r = Awaiting index p /\ resume p rep = Some p' /\
    r' = settle index (fst (fst (run_sync p' s))).

(** One event taken by one of the runners of a list. *)
Definition lstep (l' l : list runner) : Prop :=
  exists w r r', nth_error l w = Some r /\ rstep r' r /\ l' = set_runner w r' l.

Definition live (r : runner) : nat :=
  match r with
  | Awaiting _ _ | Settled _ _ => 1
  | _ => 0
  end.

(** Passes and rejections still to come, at most. *)
Definition fuel (tasks : list (async unit)) (q : queue) : nat :=
  (List.length tasks - cursor q) + list_sum (map live (runners q)).

(** *** Stale continuations

    [p], run from [s] to its next suspension point or to its end, calls no
    state setter. *)
Definition quiet_at (A : Type) (p : async A) (s : store) : Prop :=
  snd (run_sync p s) = 0%nat.

(** [p] calls no state setter when it runs in a state whose epoch is not
    [runId]. *)
Definition quiet_under (A : Type) (runId : Z) (p : async A) : Prop :=
  forall s, runIdRef s <> runId -> quiet_at p s.

(** At every suspension point that [p] can reach, the continuation is quiet
    when it is resumed under another epoch than [runId]. *)
Fixpoint guarded (A : Type) (runId : Z) (p : async A) : Prop :=
  match p with
  | Ret _ => True
  | Throw _ => True
  | Get k => forall s, guarded runId (k s)
  | Put _ k => guarded runId k
  | AwaitFetch _ k => forall r, quiet_under runId (k r) /\ guarded runId (k r)
  | AwaitJson k => forall d, quiet_under runId (k d) /\ guarded runId (k d)
  | AwaitWait _ k => quiet_under runId k /\ guarded runId k
  | AwaitCall k => quiet_under runId k /\ guarded runId k
  end.

(** [p] does nothing to the state once [runId] is superseded, whether it is
    started or resumed. *)
Definition epoch_safe (A : Type) (runId : Z) (p : async A) : Prop :=
  quiet_under runId p /\ guarded runId p.

(** No state write of [p] changes the run epoch. *)
Fixpoint keeps_epoch (A : Type) (p : async A) : Prop :=
  match p with
  | Ret _ => True
  | Throw _ => True
  | Get k => forall s, keeps_epoch (k s)
  | Put f k => (forall s, runIdRef (f s) = runIdRef s) /\ keeps_epoch k
  | AwaitFetch _ k => forall r, keeps_epoch (k r)
  | AwaitJson k => forall d, keeps_epoch (k d)
  | AwaitWait _ k => keeps_epoch k
  | AwaitCall k => keeps_epoch k
  end.

(** [p] calls no state setter at all. *)
Fixpoint putless (A : Type) (p : async A) : Prop :=
  match p with
  | Ret _ => True
  | Throw _ => True
  | Get k => forall s, putless (k s)
  | Put _ _ => False
  | AwaitFetch _ k => forall r, putless (k r)
  | AwaitJson k => forall d, putless (k d)
  | AwaitWait _ k => putless k
  | AwaitCall k => putless k
  end.

(** What the orchestrator relies on for each of its tasks. *)
Definition task_ok (runId : Z) (p : async unit) : Prop :=
  epoch_safe runId p /\ keeps_epoch p /\ never_throws p.

Definition runner_ok (runId : Z) (r : runner) : Prop :=
  match r with
  | Awaiting _ p => guarded runId p /\ keeps_epoch p /\ never_throws p
  | Settled _ (Some _) => False
  | Settled _ None => True
  | Returned => True
  | Rejected _ => False
  end.

Definition run_ok (r : run) : Prop :=
  Forall (task_ok (run_id r)) (run_tasks r) /\
  Forall (runner_ok (run_id r)) (runners (run_queue r)).

(** The runs were started one after the other, each under the epoch that
    follows the current one: their epochs increase, and none exceeds the
    current epoch. *)
Fixpoint epochs_increase (current : Z) (runs : list run) : Prop :=
  match runs with
  | [] => True
  | r :: rest =>
      match rest with
      | [] => (run_id r <= current)%Z
      | r' :: _ => (run_id r < run_id r')%Z /\ epochs_increase current rest
      end
  end.

Definition sys_inv (sys : system) : Prop :=
  Forall run_ok (sys_runs sys) /\
  epochs_increase (runIdRef (sys_store sys)) (sys_runs sys).

(** A turn is possible. *)
Definition can_sys_turn (x : option system) : bool :=
  match x with
  | Some _ => true
  | None => false
  end.

(** *** Rejections and the attempts of the poller *)

(** The task awaited by the runner has rejected with [message]: the runner
    rejects at its next turn, or has done so. *)
Definition ended_by (message : string) (r : runner) : Prop :=
  match r with
  | Settled _ (Some m) => m = message
  | Rejected m => m = message
  | _ => False
  end.

(** The indices claimed by runner [w], in order. *)
Definition claims_of (w : nat) (l : list (nat * nat)) : list nat :=
  map snd (filter (fun c => (fst c =? w)%nat) l).

(** The number of suspension points that [p] passes in [w] before it
    settles. *)
Fixpoint awaits (A : Type) (w : world) (n : nat) (p : async A) (s : store) : nat :=
  match p with
  | Ret _ => O
  | Throw _ => O
  | Get k => awaits w n (k s) s
  | Put f k => awaits w n k (f s)
  | AwaitFetch req k => S (awaits w (S n) (k (fetch_at w n req)) (meanwhile w n s))
  | AwaitJson k => S (awaits w (S n) (k (json_at w n)) (meanwhile w n s))
  | AwaitWait _ k => S (awaits w (S n) k (meanwhile w n s))
  | AwaitCall k => S (awaits w (S n) k (meanwhile w n s))
  end.

(** The state in which [pollJob], started in [s] at suspension [n], finds
    the component at the start of its attempt [j], when each attempt before
    has passed its three suspension points (request, body, wait). *)
Fixpoint state_at_attempt (w : world) (n : nat) (s : store) (j : nat) : store :=
  match j with
  | O => s
  | S j' =>
      state_at_attempt w (S (S (S n)))
        (meanwhile w (S (S n)) (meanwhile w (S n) (meanwhile w n s))) j'
  end.

(** The status request sent at suspension [n] is answered with a successful
    HTTP status and a body that holds neither an extractable image nor a
    failure-marked status. *)
Definition attempt_pending (w : world) (jobId : jsval) (n : nat) : Prop :=
  fetch_at w n (GetStatus (js_String jobId)) = FetchResponse true /\
  extractImageList (parsed (json_at w (S n))) = [] /\
  failure_marked (parsed (json_at w (S n))) = false.

(** The attempts before attempt [j] have all gone through: each found the
    epoch of the run and was left pending. *)
Definition pending_before (w : world) (jobId : jsval) (runId : Z) (n : nat) (s : store)
  (j : nat) : Prop :=
  forall k, (k < j)%nat ->
    runIdRef (state_at_attempt w n s k) = runId /\ attempt_pending w jobId (n + 3 * k).

(** ** Sample data for the examples *)

Definition sample_result (img : option string) : AngleResult :=
  mkAngleResult "view" 0 0 1 (match img with Some _ => Sdone | None => Squeued end)
    img None None.

Definition sample_hooks : Hooks.t :=
  Hooks.mk "clean studio photo, centered subject, soft rim light" 20 1.0 3.5 16 512 512
    1234 true [].

Definition sample_store : store :=
  mkStore 0 [] 0 "Upload an image to render all angles." false.

(** A status endpoint that answers every request with HTTP 200 and the body
    [{ status: "IN_PROGRESS" }], while nothing else touches the state. *)
Definition world_in_progress : world :=
  mkWorld (fun _ _ => FetchResponse true)
          (fun _ => Some (JObj [("status", JStr "IN_PROGRESS")]))
          (fun _ s => s).

(** A status endpoint that answers every request with HTTP 500 and an empty
    object. *)
Definition world_http_error : world :=
  mkWorld (fun _ _ => FetchResponse false) (fun _ => Some (JObj [])) (fun _ s => s).

(** A status endpoint that stays in progress while a new run is started
    during the first request. *)
Definition world_superseded : world :=
  mkWorld (fun _ _ => FetchResponse true)
          (fun _ => Some (JObj [("status", JStr "IN_PROGRESS")]))
          (fun n s => if (n =? 0)%nat then set_runIdRef (runIdRef s + 1) s else s).

(** A status endpoint that answers the second request with HTTP 502 and
    the body [{ error: "upstream down" }]. *)
Definition world_upstream_error : world :=
  mkWorld (fun n _ => FetchResponse (n <? 3)%nat)
          (fun n => if (n <? 3)%nat
                    then Some (JObj [("status", JStr "IN_PROGRESS")])
                    else Some (JObj [("error", JStr "upstream down")]))
          (fun _ s => s).

(** One runner and three tasks, the second of which rejects. *)
Definition tasks_second_rejects : list (async unit) := [Ret tt; Throw "boom"; Ret tt].

(** Texts outside the ASCII range, by their bytes: U+00A0, U+3000, U+FEFF,
    U+2028 and the letter U+00E0. *)
Definition no_break_space : string := String "194" (String "160" "").
Definition ideographic_space : string := String "227" (String "128" (String "128" "")).
Definition byte_order_mark : string := String "239" (String "187" (String "191" "")).
Definition line_separator : string := String "226" (String "128" (String "168" "")).
Definition a_grave : string := String "195" (String "160" "").

(** Identifiers drawn by [makeId], for the examples. *)
Definition sample_makeId (i : nat) : string := "id-" ++ show_nat i.

(** The state and the tasks of a first run, as [startBatch] hands them to
    [runQueue]. *)
Definition sample_dispatch : store := state_at_dispatch sample_hooks sample_makeId sample_store.

Definition sample_tasks : list (async unit) :=
  mapi (fun view index => task sample_hooks 1 "aGVsbG8=" view index) (buildViews sample_hooks).

(** The render endpoint answers the first view with an inline image: the
    response arrives, its body is parsed, [submitAngle] hands over to the
    task, the task settles, and the runner takes its next pass. *)
Definition script_first_view_done : list (nat * option reply) :=
  [ (0%nat, Some (FetchSettled (FetchResponse true)));
    (0%nat, Some (JsonSettled (Some (JObj [("images", JArr [JStr "aGVsbG8="])]))));
    (0%nat, Some CallSettled);
    (0%nat, None) ].

(** A task that rejects, followed by one that does nothing. *)
Definition tasks_first_rejects : list (async unit) := [Throw "boom"; Ret tt].

(** Two uploads in a row: the second run starts while the three first tasks
    of the first run are waiting for the render endpoint. *)
Definition sys_one_run : system :=
  started sample_hooks sample_makeId "aGVsbG8=" (mkSystem sample_store []).

Definition sys_two_runs : system :=
  started sample_hooks sample_makeId "d29ybGQ=" sys_one_run.

(** The answer to a request of the first run: an inline image. *)
Definition late_answer : list (nat * option reply) :=
  [ (0%nat, Some (FetchSettled (FetchResponse true)));
    (0%nat, Some (JsonSettled (Some (JObj [("images", JArr [JStr "b2xk"])]))));
    (0%nat, Some CallSettled) ].

(** The second status call completes with one image. *)
Definition world_completes : world :=
  mkWorld (fun _ _ => FetchResponse true)
          (fun n => if (n <? 3)%nat
                    then Some (JObj [("status", JStr "IN_PROGRESS")])
                    else Some (JObj [("status", JStr "COMPLETED");
                                     ("images", JArr [JStr "aGVsbG8="])]))
          (fun _ s => s).

(** ** Further code: image payloads on their way in and out

    [toBase64] of the camera module cuts the payload out of the data URL
    that the file reader produced; [stripDataUrl] of the render proxy
    ([functions/api/qwen.ts]) does the same on the server side. *)

(** [s.split(sep)] for a one-character separator. *)
Fixpoint split_on (sep : ascii) (s : string) : list string :=
  match s with
  | EmptyString => [EmptyString]
  | String c s' =>
      if Ascii.eqb c sep then EmptyString :: split_on sep s'
      else
        match split_on sep s' with
        | part :: parts => String c part :: parts
        | [] => [String c EmptyString]
        end
  end.

Definition toBase64 (dataUrl : string) : string :=
  match split_on ","%char dataUrl with
  | _ :: second :: _ => second
  | _ => dataUrl
  end.

(** [s.indexOf(c)], with [None] for [-1]. *)
Fixpoint index_of (c : ascii) (s : string) : option nat :=
  match s with
  | EmptyString => None
  | String c' s' =>
      if Ascii.eqb c' c then Some O
      else match index_of c s' with
           | Some i => Some (S i)
           | None => None
           end
  end.

(** [s.slice(n)] for [0 <= n]. *)
Fixpoint slice_from (n : nat) (s : string) : string :=
  match n, s with
  | O, _ => s
  | S n', String _ s' => slice_from n' s'
  | S _, EmptyString => EmptyString
  end.

Definition stripDataUrl (value : string) : string :=
  match index_of ","%char value with
  | Some comma => if String.prefix "data:" value then slice_from (comma + 1) value else value
  | None => value
  end.

(** What [normalizeImage] hands out: a non-empty string that starts with
    [data:] or [http]. *)
Definition is_normal (s : string) : bool :=
  negb (String.eqb s "") && (String.prefix "data:" s || String.prefix "http" s).

(** The distance between two positions of a ring of [n] views. *)
Definition ring_dist (n i j : Z) : Z := Z.min ((j - i) mod n) ((i - j) mod n).

(** A status endpoint that stays in progress while run 7 is started during
    the second status request. *)
Definition world_restarted : world :=
  mkWorld (fun _ _ => FetchResponse true)
          (fun _ => Some (JObj [("status", JStr "IN_PROGRESS")]))
          (fun n s => if (n =? 4)%nat then set_runIdRef 7 s else s).

(** The time spent in [wait], in milliseconds. *)
Definition total_delay (l : list Z) : Z := fold_right Z.add 0%Z l.

(** ** Further code: the viewer and its handlers *)

(** [displayIndex] and [displayImage] of a render in state [s]. *)
Definition displayIndex (s : store) : Z :=
  findNearestImageIndex (selectedIndex s) (results s).

Definition displayImage (s : store) : option string :=
  if (0 <=? displayIndex s)%Z then
    match at_index (results s) (displayIndex s) with
    | Some item => image item
    | None => None
    end
  else None.

(** [handleSelect(index)], as the handler of a render whose [results] is
    [rs].  A number that is not integral is no index of the array, and the
    handler returns. *)
Definition handleSelect (rs : list AngleResult) (index : Z) (s : store) : store :=
  match at_index rs index with
  | None => s
  | Some _ => setSelectedIndex (fun _ => index) s
  end.

(** [handleKeyDown(event)], by [event.key]. *)
Definition handleKeyDown (rs : list AngleResult) (key : string) (s : store) : store :=
  match rs with
  | [] => s
  | _ :: _ =>
      let s1 :=
        if String.eqb key "ArrowRight"
        then setSelectedIndex
               (fun prev => wrapIndex (prev + 1) (Z.of_nat (List.length ANGLE_PRESETS))) s
        else s in
      if String.eqb key "ArrowLeft"
      then setSelectedIndex
             (fun prev => wrapIndex (prev - 1) (Z.of_nat (List.length ANGLE_PRESETS))) s1
      else s1
  end.

(** The page: the turns of the render pipeline, and the clicks and key
    presses of the user.  An input event is handled by the handlers of the
    latest render, whose [results] is the current value of the state. *)
Inductive page_step (sys : system) : system -> Prop :=
| page_pipeline a sys' n :
    sys_step sys a sys' n -> page_step sys sys'
| page_select index :
    page_step sys
      (mkSystem (handleSelect (results (sys_store sys)) index (sys_store sys)) (sys_runs sys))
| page_key key :
    page_step sys
      (mkSystem (handleKeyDown (results (sys_store sys)) key (sys_store sys)) (sys_runs sys)).

Inductive page_reach (s0 : store) : system -> Prop :=
| page_reach_init : page_reach s0 (mkSystem s0 [])
| page_reach_step sys sys' :
    page_reach s0 sys -> page_step sys sys' -> page_reach s0 sys'.

(** Every state write of [p] leads from a state that satisfies [P] to a
    state that satisfies [P]. *)
Fixpoint writes_keep (A : Type) (P : store -> Prop) (p : async A) : Prop :=
  match p with
  | Ret _ => True
  | Throw _ => True
  | Get k => forall s, writes_keep P (k s)
  | Put f k => (forall s, P s -> P (f s)) /\ writes_keep P k
  | AwaitFetch _ k => forall r, writes_keep P (k r)
  | AwaitJson k => forall d, writes_keep P (k d)
  | AwaitWait _ k => writes_keep P k
  | AwaitCall k => writes_keep P k
  end.

(** Every value that [p] can return satisfies [Q]. *)
Fixpoint yields (A : Type) (Q : A -> Prop) (p : async A) : Prop :=
  match p with
  | Ret a => Q a
  | Throw _ => True
  | Get k => forall s, yields Q (k s)
  | Put _ k => yields Q k
  | AwaitFetch _ k => forall r, yields Q (k r)
  | AwaitJson k => forall d, yields Q (k d)
  | AwaitWait _ k => yields Q k
  | AwaitCall k => yields Q k
  end.

Definition runner_keeps (P : store -> Prop) (r : runner) : Prop :=
  match r with
  | Awaiting _ p => writes_keep P p
  | _ => True
  end.

Definition run_keeps (P : store -> Prop) (r : run) : Prop :=
  Forall (writes_keep P) (run_tasks r) /\ Forall (runner_keeps P) (runners (run_queue r)).

(** A record of the result list is well formed: a view that is done has an
    image, and an image is a non-empty string that starts with [data:] or
    [http]. *)
Definition view_ok (r : AngleResult) : Prop :=
  (status r = Sdone -> image r <> None) /\
  (forall img, image r = Some img -> is_normal img = true).

(** What the page maintains once a run has been started: the result list
    holds one record per azimuth preset, in preset order; the selection is
    an index of the presets; and every record is well formed. *)
Definition page_inv (s : store) : Prop :=
  map azimuth (results s) = ANGLE_PRESETS /\
  (0 <= selectedIndex s < Z.of_nat (List.length ANGLE_PRESETS))%Z /\
  Forall view_ok (results s).

(** The run started last, if any. *)
Definition latest_run (sys : system) : option run :=
  nth_error (sys_runs sys) (List.length (sys_runs sys) - 1).

(** [P] does not depend on the result list, the selection or the status
    message. *)
Definition framed (P : store -> Prop) : Prop :=
  (forall f s, P s -> P (setResults f s)) /\
  (forall f s, P s -> P (setSelectedIndex f s)) /\
  (forall message s, P s -> P (setStatusMessage message s)).

(** The images that [submitAngle] and [pollJob] hand to their caller. *)
Definition images_normal (l : list string) : Prop :=
  Forall (fun img => is_normal img = true) l.

Definition submitted_normal (r : submitted) : Prop :=
  match r with
  | Images images => images_normal images
  | Job _ => True
  end.

(** The component as it is mounted. *)
Definition initial_store : store :=
  mkStore 0 [] 0 "Upload an image to render all angles." false.

(** Two uploads, then the left arrow key. *)
Definition page_sample : system :=
  mkSystem (handleKeyDown (results (sys_store sys_two_runs)) "ArrowLeft" (sys_store sys_two_runs))
           (sys_runs sys_two_runs).

(** The epoch of the [k]-th run started since the state [s0]. *)
Definition epoch_of_run (s0 : store) (k : nat) : Z := (runIdRef s0 + Z.of_nat k + 1)%Z.

(** No runner has rejected or is about to. *)
Definition no_rejection (q : queue) : Prop :=
  forall w, match nth_error (runners q) w with
            | Some (Rejected _) | Some (Settled _ (Some _)) => False
            | _ => True
            end.

(** ** Further code: the render proxy

    The handlers of [functions/api/qwen.ts] up to the request they send
    upstream. *)

Module Env.
Record t := mk {
  RUNPOD_API_KEY : option string;
  RUNPOD_ENDPOINT_URL : option string;
  COMFY_ORG_API_KEY : option string;
  RUNPOD_WORKER_MODE : option string
}.
End Env.

(** [!value] for a string that may be undefined or null. *)
Definition missing (value : option string) : bool :=
  match value with
  | Some s => String.eqb s ""
  | None => true
  end.

(** [value.replace(/\/$/, '')] *)
Fixpoint strip_trailing_slash (s : string) : string :=
  match s with
  | EmptyString => EmptyString
  | String c rest =>
      match rest with
      | EmptyString => if Ascii.eqb c "/" then EmptyString else s
      | String _ _ => String c (strip_trailing_slash rest)
      end
  end.

Definition resolveEndpoint (env : Env.t) : option string :=
  option_map strip_trailing_slash (Env.RUNPOD_ENDPOINT_URL env).

(** What a handler does: it answers at once with [jsonResponse({ error },
    status)], or it calls the upstream endpoint and relays the answer. *)
Inductive proxy_reply (A : Type) : Type :=
| Refused (status : Z) (error : string)
| Upstream (call : A).

Arguments Refused {A} status error.
Arguments Upstream {A} call.

(** The status call: [fetch(`${endpoint}/status/${encodeURIComponent(id)}`)]
    with its [Authorization] header. *)
Record status_call := mkStatusCall {
  status_prefix : string;
  status_id : string;
  status_authorization : string
}.

(** [onRequestGet], by the [id] parameter of the request URL. *)
Definition onRequestGet (env : Env.t) (id : option string) : proxy_reply status_call :=
  match id with
  | None => Refused 400 "id is required."
  | Some id =>
      if String.eqb id "" then Refused 400 "id is required."
      else if missing (Env.RUNPOD_API_KEY env) then Refused 500 "RUNPOD_API_KEY is not set."
      else
        match resolveEndpoint env, Env.RUNPOD_API_KEY env with
        | Some endpoint, Some key =>
            if String.eqb endpoint "" then Refused 500 "RUNPOD_ENDPOINT_URL is not set."
            else Upstream (mkStatusCall (endpoint ++ "/status/") id ("Bearer " ++ key))
        | _, _ => Refused 500 "RUNPOD_ENDPOINT_URL is not set."
        end
  end.

(** Where [onRequestPost] takes the image from: the URL it goes on to
    fetch, or the payload of the request. *)
Inductive image_source :=
| FromUrl (url : string)
| Inline (imageBase64 : string).

(** The outcome of the first stage of [onRequestPost] (lines 144 to 177),
    the one that finds the image.  Either the handler answers at once with
    [jsonResponse({ error }, status)], or it goes on with [source]: an
    inline image, which is the value of [imageBase64] from there on (the
    later stages read the variable and never assign it), or a URL that
    [fetchImageBase64] is about to fetch, which can still end in a 400.
    Going on is not yet an upstream call: the later stages choose the
    worker mode, load the workflow and the node map, and can answer 500
    before any request is sent. *)
Inductive image_stage :=
| ImageRefused (status : Z) (error : string)
| ImageFound (source : image_source).

(** [onRequestPost] up to line 177; [body] is the parsed request body, if
    it parses. *)
Definition onRequestPost_image (env : Env.t) (body : option jsval) : image_stage :=
  if missing (Env.RUNPOD_API_KEY env) then ImageRefused 500 "RUNPOD_API_KEY is not set."
  else if missing (resolveEndpoint env) then ImageRefused 500 "RUNPOD_ENDPOINT_URL is not set."
  else
    let payload := match body with Some v => v | None => JNull end in
    if negb (truthy payload) then ImageRefused 400 "Invalid request body."
    else
      let input := nullish (get payload "input") payload in
      let imageValue :=
        nullish (get input "image_base64") (nullish (get input "image") (get input "image_url")) in
      if negb (truthy imageValue) then ImageRefused 400 "image is required."
      else
        let inline :=
          let imageBase64 := stripDataUrl (js_String imageValue) in
          if String.eqb imageBase64 "" then ImageRefused 400 "image is empty."
          else ImageFound (Inline imageBase64) in
        match get input "image_url" with
        | JStr url => if String.eqb url "" then inline else ImageFound (FromUrl url)
        | _ => inline
        end.

(** The body that [submitAngle] posts, as far as the proxy reads the image
    from it: [{ input: { image_base64: payload, ... } }]. *)
Definition render_body (payload : string) (others : list (string * jsval)) : jsval :=
  JObj [("input", JObj (("image_base64", JStr payload) :: others))].

Definition sample_env : Env.t :=
  Env.mk (Some "key-1") (Some "https://api.example.test/v2/abc/") None None.

(** * Properties *)

(** ** Comparison of binary64 values *)

(** Case analysis over three specification-level floats. *)
Ltac sf_cases a b c :=
  destruct a as [?s|?s| |?s ?m ?e], b as [?s|?s| |?s ?m ?e],
           c as [?s|?s| |?s ?m ?e];
  simpl; try discriminate; try reflexivity;
  repeat match goal with s : bool |- _ => destruct s end;
  simpl; try congruence.

(** Lexicographic comparison of exponent and mantissa. *)
Ltac sf_lex :=
  repeat match goal with
    | |- context [(?x ?= ?y)%Z] => destruct (Z.compare_spec x y)
    end; try congruence; try lia; subst;
  change (PosDef.Pos.compare_cont Eq) with Pos.compare;
  repeat match goal with
    | |- context [(?x ?= ?y)%positive] => destruct (Pos.compare_spec x y)
    end; simpl; try congruence; try lia.

Lemma SFcompare_Lt_trans a b c :
  SFcompare a b = Some Lt -> SFcompare b c = Some Lt -> SFcompare a c = Some Lt.
Proof. sf_cases a b c; sf_lex. Qed.

Lemma SFcompare_Eq_Lt a b c :
  SFcompare a b = Some Eq -> SFcompare b c = Some Lt -> SFcompare a c = Some Lt.
Proof. sf_cases a b c; sf_lex. Qed.

Lemma SFcompare_irrefl a : SFcompare a a <> Some Lt.
Proof.
  destruct a as [s|s| |s m e]; simpl; try destruct s; try congruence;
    rewrite Z.compare_refl; change (PosDef.Pos.compare_cont Eq) with Pos.compare;
    rewrite Pos.compare_refl; simpl; congruence.
Qed.

Lemma ltb_Lt x y : (x <? y) = true <-> SFcompare (Prim2SF x) (Prim2SF y) = Some Lt.
Proof.
  rewrite ltb_spec. unfold SFltb.
  destruct (SFcompare (Prim2SF x) (Prim2SF y)) as [[ | | ]|]; split; congruence.
Qed.

Lemma eqb_Eq x y : (x =? y) = true <-> SFcompare (Prim2SF x) (Prim2SF y) = Some Eq.
Proof.
  rewrite eqb_spec. unfold SFeqb.
  destruct (SFcompare (Prim2SF x) (Prim2SF y)) as [[ | | ]|]; split; congruence.
Qed.

Lemma float_ltb_trans x y z : (x <? y) = true -> (y <? z) = true -> (x <? z) = true.
Proof. rewrite !ltb_Lt. apply SFcompare_Lt_trans. Qed.

Lemma float_eqb_ltb x y z : (x =? y) = true -> (y <? z) = true -> (x <? z) = true.
Proof. rewrite eqb_Eq, !ltb_Lt. apply SFcompare_Eq_Lt. Qed.

Lemma float_ltb_irrefl x : (x <? x) = false.
Proof.
  destruct (x <? x) eqn:E; [|reflexivity].
  apply ltb_Lt in E. now apply SFcompare_irrefl in E.
Qed.

Lemma float_leb_ltb_eqb x y : (x <=? y) = (x <? y) || (x =? y).
Proof.
  rewrite leb_spec, ltb_spec, eqb_spec. unfold SFleb, SFltb, SFeqb.
  destruct (SFcompare (Prim2SF x) (Prim2SF y)) as [[ | | ]|]; reflexivity.
Qed.

(** If [x] is not nearer than [n] and [o] is nearer than [n], then [x] is
    neither nearer than [o] nor as near. *)
Lemma not_nearer_than_closer x o n :
  (x <? n) = false -> (o <? n) = true -> (x <=? o) = false.
Proof.
  intros Hx Ho. rewrite float_leb_ltb_eqb.
  destruct (x <? o) eqn:E1.
  - rewrite (float_ltb_trans E1 Ho) in Hx. discriminate.
  - destruct (x =? o) eqn:E2; [|reflexivity].
    rewrite (float_eqb_ltb E2 Ho) in Hx. discriminate.
Qed.

Lemma float_leb_false_ltb x y : (x <=? y) = false -> (x <? y) = false.
Proof. rewrite float_leb_ltb_eqb. now destruct (x <? y). Qed.

(** ** The preset lists, evaluated *)

Lemma ANGLE_PRESETS_eq : ANGLE_PRESETS = [0; 45; 90; 135; 180; 225; 270; 315].
Proof. vm_compute. reflexivity. Qed.

Lemma ELEVATION_PRESETS_eq : ELEVATION_PRESETS = [-30; 0; 30; 60].
Proof. vm_compute. reflexivity. Qed.

Lemma DISTANCE_PRESETS_eq : DISTANCE_PRESETS = [0.6; 1.0; 1.4].
Proof. vm_compute. reflexivity. Qed.

Lemma own_keys_ELEVATION : own_keys ELEVATION_MAP = [0; 30; 60; -30].
Proof. vm_compute. reflexivity. Qed.

Lemma own_keys_DISTANCE : own_keys DISTANCE_MAP = [1.0; 0.6; 1.4].
Proof. vm_compute. reflexivity. Qed.

Lemma ANGLE_COUNT_eq : ANGLE_COUNT = 8%nat.
Proof. vm_compute. reflexivity. Qed.

(** ** Preset snapping *)

Example snap_tie_first : snapToNearest 22.5 ANGLE_PRESETS = Some 0.
Proof. vm_compute. reflexivity. Qed.

Example snap_tie_first_reversed : snapToNearest 22.5 [45; 0] = Some 45.
Proof. vm_compute. reflexivity. Qed.

Example snap_default_elevation : snapToNearest 20 ELEVATION_PRESETS = Some 30.
Proof. vm_compute. reflexivity. Qed.

Example snap_empty : snapToNearest 20 [] = None.
Proof. reflexivity. Qed.

Example buildAnglePrompt_front :
  buildAnglePrompt 0 20 1.0 "  clean studio photo " =
  Some "<sks> front view elevated shot medium shot clean studio photo".
Proof. vm_compute. reflexivity. Qed.

(** The invariant of the [reduce] loop: [n], the option kept so far, sits at
    position [i] of the options [pre] seen so far, none of them is nearer
    than [n], and the ones before position [i] are strictly farther. *)
Lemma fold_closer_first_minimiser value :
  forall (rest pre : list float) (n : float) (i : nat),
    nth_error pre i = Some n ->
    (forall o, In o pre -> (dist o value <? dist n value) = false) ->
    (forall j o, (j < i)%nat -> nth_error pre j = Some o ->
                 (dist o value <=? dist n value) = false) ->
    exists i',
      nth_error (pre ++ rest) i' = Some (fold_left (closer value) rest n) /\
      (forall o, In o (pre ++ rest) ->
                 (dist o value <? dist (fold_left (closer value) rest n) value) = false) /\
      (forall j o, (j < i')%nat -> nth_error (pre ++ rest) j = Some o ->
                   (dist o value <=? dist (fold_left (closer value) rest n) value) = false).
Proof.
  induction rest as [|o rest IH]; intros pre n i Hn Hmin Hfirst.
  - exists i. rewrite app_nil_r. simpl. auto.
  - simpl fold_left.
    replace (pre ++ o :: rest)%list with ((pre ++ [o]) ++ rest)%list
      by (rewrite <- app_assoc; reflexivity).
    unfold closer at 2 4 6. destruct (dist o value <? dist n value) eqn:E.
    + apply (IH (pre ++ [o])%list o (List.length pre)).
      * rewrite nth_error_app2, Nat.sub_diag by lia. reflexivity.
      * intros x Hx. apply in_app_or in Hx. destruct Hx as [Hx|[<-|[]]].
        -- apply float_leb_false_ltb.
           apply not_nearer_than_closer with (n := dist n value); auto.
        -- apply float_ltb_irrefl.
      * intros j x Hj Hx. rewrite nth_error_app1 in Hx by lia.
        apply not_nearer_than_closer with (n := dist n value); auto.
        apply Hmin. eapply nth_error_In; eauto.
    + apply (IH (pre ++ [o])%list n i).
      * rewrite nth_error_app1; auto. apply nth_error_Some. congruence.
      * intros x Hx. apply in_app_or in Hx. destruct Hx as [Hx|[<-|[]]]; auto.
      * intros j x Hj Hx. apply (Hfirst j); auto.
        rewrite nth_error_app1 in Hx; auto.
        assert (i < List.length pre)%nat by (apply nth_error_Some; congruence). lia.
Qed.

(** C5. For every input value and every non-empty list of presets,
    [snapToNearest] returns one of the presets, no preset is at a smaller
    distance from the input than the returned one, and every preset
    enumerated before the returned one is strictly farther: among presets at
    exactly the same distance, the one enumerated first is returned.
    Distances are the binary64 values of [Math.abs(option - value)] that the
    code compares. *)
Theorem snapToNearest_first_minimiser :
  forall (value first : float) (rest : list float),
  exists (i : nat) (r : float),
    snapToNearest value (first :: rest) = Some r /\
    nth_error (first :: rest) i = Some r /\
    (forall o, In o (first :: rest) -> (dist o value <? dist r value) = false) /\
    (forall j o, (j < i)%nat -> nth_error (first :: rest) j = Some o ->
                 (dist o value <=? dist r value) = false).
Proof.
  intros value first rest.
  destruct (@fold_closer_first_minimiser value rest [first] first 0%nat) as (i & H1 & H2 & H3).
  - reflexivity.
  - intros o [<-|[]]. apply float_ltb_irrefl.
  - intros j o Hj. lia.
  - exists i, (fold_left (closer value) rest first). simpl snapToNearest. auto.
Qed.

Lemma fold_closer_In value : forall (rest : list float) (n : float),
  In (fold_left (closer value) rest n) (n :: rest).
Proof.
  induction rest as [|o rest IH]; intros n; simpl.
  - now left.
  - destruct (IH (closer value n o)) as [H|H]; [|right; now right].
    revert H. unfold closer at 1.
    destruct (dist o value <? dist n value); intros H; [right|]; now left.
Qed.

Lemma snapToNearest_In value options r :
  snapToNearest value options = Some r -> In r options.
Proof.
  destruct options as [|first rest]; simpl; [discriminate|].
  intros [= <-]. apply fold_closer_In.
Qed.

(** Idempotence follows from fixing the members, for a non-empty list. *)
Lemma snap_idempotent_of_fixed first rest :
  (forall p, In p (first :: rest) -> snapToNearest p (first :: rest) = Some p) ->
  snap_idempotent_on (first :: rest).
Proof.
  intros Hfix. split; [exact Hfix|].
  intros value. exists (fold_left (closer value) rest first). split; [reflexivity|].
  apply Hfix. apply fold_closer_In.
Qed.

(** C6. For each of the azimuth, elevation and distance preset lists,
    snapping a value that is a member of the list returns that value, and
    therefore snapping the result of a snap again returns the same result,
    for every input value. *)
Theorem snapToNearest_idempotent :
  snap_idempotent_on ANGLE_PRESETS /\
  snap_idempotent_on ELEVATION_PRESETS /\
  snap_idempotent_on DISTANCE_PRESETS.
Proof.
  rewrite ANGLE_PRESETS_eq, ELEVATION_PRESETS_eq, DISTANCE_PRESETS_eq.
  repeat split; try (apply snap_idempotent_of_fixed; intros p Hp; simpl in Hp;
    repeat (destruct Hp as [<-|Hp]; [vm_compute; reflexivity|]); destruct Hp).
Qed.

(** ** Displayed view *)

Example wrapIndex_negative : wrapIndex (-1) 8 = 7%Z.
Proof. reflexivity. Qed.

Example wrapIndex_empty : wrapIndex 5 0 = 0%Z.
Proof. reflexivity. Qed.

Lemma has_image_nil index : has_image [] index = false.
Proof.
  unfold has_image, at_index. destruct (index <? 0)%Z; [reflexivity|].
  now destruct (Z.to_nat index).
Qed.

(** C8. In a list of four results where entries 0 and 3 have an image and
    entries 1 and 2 have none, [findNearestImageIndex] with selection 1
    returns 0, the left neighbour found at offset 1 after the right
    neighbour 2 was found empty: an index among 0 and 3 and never 1 or 2.
    More generally, when the selected entry has an image, its own index is
    returned. *)
Theorem findNearestImageIndex_fallback :
  (forall r0 r1 r2 r3 : AngleResult,
      has_image [r0; r1; r2; r3] 0 = true ->
      has_image [r0; r1; r2; r3] 1 = false ->
      has_image [r0; r1; r2; r3] 2 = false ->
      has_image [r0; r1; r2; r3] 3 = true ->
      findNearestImageIndex 1 [r0; r1; r2; r3] = 0%Z /\
      (findNearestImageIndex 1 [r0; r1; r2; r3] = 0%Z \/
       findNearestImageIndex 1 [r0; r1; r2; r3] = 3%Z) /\
      findNearestImageIndex 1 [r0; r1; r2; r3] <> 1%Z /\
      findNearestImageIndex 1 [r0; r1; r2; r3] <> 2%Z) /\
  (forall (index : Z) (items : list AngleResult),
      has_image items index = true -> findNearestImageIndex index items = index).
Proof.
  split.
  - intros r0 r1 r2 r3 H0 H1 H2 H3.
    assert (E : findNearestImageIndex 1 [r0; r1; r2; r3] = 0%Z).
    { unfold findNearestImageIndex. rewrite H1.
      change (List.length [r0; r1; r2; r3] - 1)%nat with 3%nat.
      unfold scan_offsets.
      change (wrapIndex (1 + 1) (Z.of_nat (List.length [r0; r1; r2; r3]))) with 2%Z.
      change (wrapIndex (1 - 1) (Z.of_nat (List.length [r0; r1; r2; r3]))) with 0%Z.
      rewrite H2, H0. reflexivity. }
    rewrite E. repeat split; auto; discriminate.
  - intros index items H. destruct items as [|r items].
    + rewrite has_image_nil in H. discriminate.
    + unfold findNearestImageIndex. now rewrite H.
Qed.

Lemma findNearestImageIndex_fallback_witness :
  findNearestImageIndex 1
    [sample_result (Some "data:a"); sample_result None; sample_result None;
     sample_result (Some "data:d")] = 0%Z /\
  findNearestImageIndex 3
    [sample_result (Some "data:a"); sample_result None; sample_result None;
     sample_result (Some "data:d")] = 3%Z.
Proof.
  split.
  - apply (proj1 findNearestImageIndex_fallback
             (sample_result (Some "data:a")) (sample_result None) (sample_result None)
             (sample_result (Some "data:d"))); reflexivity.
  - apply (proj2 findNearestImageIndex_fallback); reflexivity.
Defined.

Example findNearestImageIndex_none :
  findNearestImageIndex 1 [sample_result None; sample_result None] = (-1)%Z.
Proof. reflexivity. Qed.

Example findNearestImageIndex_wraps :
  findNearestImageIndex 0
    [sample_result None; sample_result None; sample_result None; sample_result (Some "x")]
  = 3%Z.
Proof. reflexivity. Qed.

(** ** Job submitter *)

Example extractImageList_shapes :
  extractImageList
    (JObj [("output", JObj [("images", JArr [JObj [("url", JStr "http://x")]; JStr "";
                                              JStr "abc"])])])
  = ["http://x"; "data:image/png;base64,abc"].
Proof. reflexivity. Qed.

Example extractJobId_nested :
  extractJobId (JObj [("output", JObj [("id", JStr "job-7")])]) = JStr "job-7".
Proof. reflexivity. Qed.

(** C7. For every prompt, [submitAngle] called with an empty payload is the
    function that throws ['Image is missing.'] at once: run against any
    environment and from any state it ends with that error, issues no
    request and leaves the state as it was, having reached no suspension
    point and made no state write. *)
Theorem submitAngle_empty_payload_rejected :
  forall (h : Hooks.t) (anglePrompt : string) (w : world) (n : nat) (s : store),
    submitAngle h anglePrompt "" = Throw "Image is missing." /\
    run_sync (submitAngle h anglePrompt "") s = (Raised "Image is missing.", s, 0%nat) /\
    outcome (exec w n (submitAngle h anglePrompt "") s) = Raised "Image is missing." /\
    requests (exec w n (submitAngle h anglePrompt "") s) = [] /\
    final (exec w n (submitAngle h anglePrompt "") s) = s.
Proof. intros. repeat split. Qed.

Example submitAngle_posts_first :
  exists k,
    submitAngle sample_hooks "<sks> front view" "aGVsbG8=" =
    AwaitFetch
      (PostRender (Input.mk "aGVsbG8=" "<sks> front view" 3.5 16 512 512 1234 true "comfyui"))
      k.
Proof. eexists. reflexivity. Qed.

(** A task handed an empty payload marks its view as failed with the
    message of [submitAngle] and sends nothing. *)
Example task_empty_payload_marks_error :
  let l := exec world_in_progress 0
             (task sample_hooks 1 "" (View.mk 0 20 1) 0) sample_dispatch in
  requests l = [] /\
  statusMessage (final l) = "Image is missing." /\
  map status (results (final l))
  = [Serror; Squeued; Squeued; Squeued; Squeued; Squeued; Squeued; Squeued] /\
  map error (results (final l))
  = [Some "Image is missing."; None; None; None; None; None; None; None].
Proof. repeat split; vm_compute; reflexivity. Qed.

(** ** Job poller *)

Example failure_marked_any_case :
  failure_marked (JObj [("state", JStr "FAILED")]) = true /\
  failure_marked (JObj [("status", JStr "IN_PROGRESS")]) = false.
Proof. split; reflexivity. Qed.

(** One iteration of the loop issues at most one request. *)
Lemma poll_loop_budget (w : world) (jobId : jsval) (runId : Z) :
  forall (remaining : nat) (n : nat) (i : Z) (s : store),
    (List.length (requests (exec w n (poll_loop jobId runId remaining i) s)) <= remaining)%nat.
Proof.
  induction remaining as [|remaining IH]; intros n i s; simpl; [lia|].
  destruct (superseded runId s); simpl; [lia|].
  destruct (fetch_at w n (GetStatus (js_String jobId))) as [message|ok]; simpl; [lia|].
  destruct ok; simpl; [|lia].
  destruct (failure_marked (parsed (json_at w (S n)))); simpl; [lia|].
  destruct (extractImageList (parsed (json_at w (S n)))); simpl; [|lia].
  specialize (IH (S (S (S n))) (i + 1)%Z (meanwhile w (S (S n)) (meanwhile w (S n) (meanwhile w n s)))).
  lia.
Qed.

(** Against an endpoint that never resolves, every iteration issues its
    request and goes on to the next one. *)
Lemma poll_loop_exhausts (w : world) (jobId : jsval) (runId : Z) :
  never_resolves w -> epoch_kept w ->
  forall (remaining : nat) (n : nat) (i : Z) (s : store),
    runIdRef s = runId ->
    outcome (exec w n (poll_loop jobId runId remaining i) s) = Raised "Render timed out." /\
    requests (exec w n (poll_loop jobId runId remaining i) s)
      = repeat (GetStatus (js_String jobId)) remaining.
Proof.
  intros [Hfetch Hbody] Hepoch.
  induction remaining as [|remaining IH]; intros n i s Hs; simpl; [auto|].
  unfold superseded. rewrite Hs, Z.eqb_refl. simpl.
  rewrite Hfetch. simpl.
  destruct (Hbody (S n)) as [Himg Hfail]. rewrite Hfail, Himg. simpl.
  destruct (IH (S (S (S n))) (i + 1)%Z
              (meanwhile w (S (S n)) (meanwhile w (S n) (meanwhile w n s)))) as [H1 H2].
  - rewrite !Hepoch. exact Hs.
  - rewrite H1, H2. auto.
Qed.

(** *** The attempts of the poller *)

(** Three suspension points per iteration, at most. *)
Lemma poll_loop_awaits (w : world) (jobId : jsval) (runId : Z) :
  forall (remaining : nat) (n : nat) (i : Z) (s : store),
    (awaits w n (poll_loop jobId runId remaining i) s <= 3 * remaining)%nat.
Proof.
  induction remaining as [|remaining IH]; intros n i s; [simpl; lia|].
  cbn [poll_loop awaits]. destruct (superseded runId s); [simpl; lia|].
  cbn [awaits].
  destruct (fetch_at w n (GetStatus (js_String jobId))) as [message|ok]; [simpl; lia|].
  cbn [awaits].
  destruct ok; cbn [negb]; [|simpl; lia].
  destruct (failure_marked (parsed (json_at w (S n)))); [simpl; lia|].
  destruct (extractImageList (parsed (json_at w (S n)))); [|simpl; lia].
  cbn [awaits].
  specialize (IH (S (S (S n))) (i + 1)%Z
                 (meanwhile w (S (S n)) (meanwhile w (S n) (meanwhile w n s)))).
  lia.
Qed.

(** The attempt at which the loop stops: the first one that finds another
    epoch, or whose request is not left pending. *)
Lemma poll_loop_first_deviation (w : world) (jobId : jsval) (runId : Z) :
  forall (j remaining : nat) (n : nat) (i : Z) (s : store),
    (j < remaining)%nat ->
    pending_before w jobId runId n s j ->
    let sj := state_at_attempt w n s j in
    let data := parsed (json_at w (S (n + 3 * j))) in
    let l := exec w n (poll_loop jobId runId remaining i) s in
    (runIdRef sj <> runId ->
     outcome l = Finished (mkPolled Pcancelled []) /\
     requests l = repeat (GetStatus (js_String jobId)) j) /\
    (runIdRef sj = runId ->
     match fetch_at w (n + 3 * j) (GetStatus (js_String jobId)) with
     | FetchRejected message =>
         outcome l = Raised message /\
         requests l = repeat (GetStatus (js_String jobId)) (S j)
     | FetchResponse false =>
         outcome l
         = Raised (message_of (js_or (get data "error") (get data "message"))
                     "Status request failed.") /\
         requests l = repeat (GetStatus (js_String jobId)) (S j)
     | FetchResponse true =>
         (failure_marked data = true ->
          outcome l = Raised (message_of (get data "error") "Render failed.") /\
          requests l = repeat (GetStatus (js_String jobId)) (S j)) /\
         (failure_marked data = false -> extractImageList data <> [] ->
          outcome l = Finished (mkPolled Pdone (extractImageList data)) /\
          requests l = repeat (GetStatus (js_String jobId)) (S j))
     end).
Proof.
  induction j as [|j IH]; intros remaining n i s Hj Hpending; cbn zeta.
  - destruct remaining as [|remaining]; [lia|].
    rewrite Nat.mul_0_r, Nat.add_0_r. cbn [state_at_attempt poll_loop exec].
    unfold superseded. split.
    + intros Hs. apply Z.eqb_neq in Hs. rewrite Hs. split; reflexivity.
    + intros Hs. apply Z.eqb_eq in Hs. rewrite Hs. cbn [negb exec outcome requests].
      destruct (fetch_at w n (GetStatus (js_String jobId))) as [message|ok];
        [split; reflexivity|].
      cbn [exec outcome requests].
      destruct ok; cbn [negb]; [|split; reflexivity].
      split.
      * intros Hf. rewrite Hf. split; reflexivity.
      * intros Hf Hi. rewrite Hf.
        destruct (extractImageList (parsed (json_at w (S n)))) as [|img imgs];
          [contradiction|split; reflexivity].
  - destruct remaining as [|remaining]; [lia|].
    destruct (Hpending 0%nat ltac:(lia)) as (Hs & Hok & Hnone & Hfail).
    rewrite Nat.mul_0_r, Nat.add_0_r in Hok, Hnone, Hfail. cbn [state_at_attempt] in Hs.
    set (s3 := meanwhile w (S (S n)) (meanwhile w (S n) (meanwhile w n s))).
    assert (Hnext : pending_before w jobId runId (S (S (S n))) s3 j).
    { intros k Hk. destruct (Hpending (S k) ltac:(lia)) as [H1 H2].
      cbn [state_at_attempt] in H1. fold s3 in H1. split; [exact H1|].
      replace (S (S (S n)) + 3 * k)%nat with (n + 3 * S k)%nat by lia. exact H2. }
    specialize (IH remaining (S (S (S n))) (i + 1)%Z s3 ltac:(lia) Hnext). cbn zeta in IH.
    replace (S (S (S n)) + 3 * j)%nat with (n + 3 * S j)%nat in IH by lia.
    cbn [state_at_attempt]. fold s3.
    assert (Hl : forall l' : run_log polled,
               l' = exec w (S (S (S n))) (poll_loop jobId runId remaining (i + 1)) s3 ->
               outcome (exec w n (poll_loop jobId runId (S remaining) i) s) = outcome l' /\
               requests (exec w n (poll_loop jobId runId (S remaining) i) s)
               = GetStatus (js_String jobId) :: requests l').
    { intros l' ->. cbn [poll_loop exec]. unfold superseded.
      apply Z.eqb_eq in Hs. rewrite Hs. cbn [negb exec outcome requests].
      rewrite Hok. cbn [exec outcome requests negb]. rewrite Hfail, Hnone.
      cbn [exec outcome requests]. fold s3. split; reflexivity. }
    destruct (Hl _ eq_refl) as [Ho Hr]. rewrite Ho, Hr. clear Hl Ho Hr.
    destruct IH as [IH1 IH2]. split.
    + intros Hne. destruct (IH1 Hne) as [H1 H2]. rewrite H1, H2. split; reflexivity.
    + intros He. specialize (IH2 He).
      destruct (fetch_at w (n + 3 * S j) (GetStatus (js_String jobId))) as [message|[|]].
      * destruct IH2 as [H1 H2]. rewrite H1, H2. split; reflexivity.
      * destruct IH2 as [H1 H2]. split.
        -- intros Hf. destruct (H1 Hf) as [H3 H4]. rewrite H3, H4. split; reflexivity.
        -- intros Hf Hi. destruct (H2 Hf Hi) as [H3 H4]. rewrite H3, H4. split; reflexivity.
      * destruct IH2 as [H1 H2]. rewrite H1, H2. split; reflexivity.
Qed.

(** C4, as amended.  Whatever the status endpoint answers, [pollJob] makes
    at most 120 status requests and settles after at most 360 suspension
    points.  When every answer is HTTP-successful and holds neither an
    extractable image nor a failure-marked status, and the run is not
    superseded meanwhile, [pollJob] issues exactly 120 status requests for
    its job and then fails with ['Render timed out.'].  Otherwise the first
    attempt that deviates decides, the attempts before it having been left
    pending under the epoch of the run: when that attempt starts under
    another epoch, [pollJob] returns the cancelled result without a further
    request; when its request fails, [pollJob] throws that error; when the
    answer has an HTTP error status, it throws the error or the message of
    the body, or ['Status request failed.']; when the status is
    failure-marked, it throws the error of the body or ['Render failed.'];
    and when the body holds images, it returns them as done. *)
Theorem pollJob_attempt_budget :
  forall (w : world) (n : nat) (jobId : jsval) (runId : Z) (s : store),
    (List.length (requests (exec w n (pollJob jobId runId) s)) <= 120)%nat /\
    (awaits w n (pollJob jobId runId) s <= 360)%nat /\
    (never_resolves w -> epoch_kept w -> runIdRef s = runId ->
     outcome (exec w n (pollJob jobId runId) s) = Raised "Render timed out." /\
     requests (exec w n (pollJob jobId runId) s) = repeat (GetStatus (js_String jobId)) 120) /\
    (forall j,
       (j < 120)%nat ->
       pending_before w jobId runId n s j ->
       let sj := state_at_attempt w n s j in
       let data := parsed (json_at w (S (n + 3 * j))) in
       let l := exec w n (pollJob jobId runId) s in
       (runIdRef sj <> runId ->
        outcome l = Finished (mkPolled Pcancelled []) /\
        requests l = repeat (GetStatus (js_String jobId)) j) /\
       (runIdRef sj = runId ->
        match fetch_at w (n + 3 * j) (GetStatus (js_String jobId)) with
        | FetchRejected message =>
            outcome l = Raised message /\
            requests l = repeat (GetStatus (js_String jobId)) (S j)
        | FetchResponse false =>
            outcome l
            = Raised (message_of (js_or (get data "error") (get data "message"))
                        "Status request failed.") /\
            requests l = repeat (GetStatus (js_String jobId)) (S j)
        | FetchResponse true =>
            (failure_marked data = true ->
             outcome l = Raised (message_of (get data "error") "Render failed.") /\
             requests l = repeat (GetStatus (js_String jobId)) (S j)) /\
            (failure_marked data = false -> extractImageList data <> [] ->
             outcome l = Finished (mkPolled Pdone (extractImageList data)) /\
             requests l = repeat (GetStatus (js_String jobId)) (S j))
        end)).
Proof.
  intros w n jobId runId s. split; [apply poll_loop_budget|].
  split; [apply (poll_loop_awaits w jobId runId 120 n 0%Z s)|]. split.
  - intros Hw Hk Hs. now apply poll_loop_exhausts.
  - intros j Hj Hpending.
    exact (@poll_loop_first_deviation w jobId runId j 120 n 0%Z s Hj Hpending).
Qed.

Lemma pollJob_attempt_budget_witness :
  (outcome (exec world_in_progress 0 (pollJob (JStr "job-1") 0) sample_store)
     = Raised "Render timed out." /\
   requests (exec world_in_progress 0 (pollJob (JStr "job-1") 0) sample_store)
     = repeat (GetStatus "job-1") 120) /\
  outcome (exec world_upstream_error 0 (pollJob (JStr "job-1") 0) sample_store)
    = Raised "upstream down" /\
  requests (exec world_upstream_error 0 (pollJob (JStr "job-1") 0) sample_store)
    = [GetStatus "job-1"; GetStatus "job-1"].
Proof.
  split.
  - apply (proj1 (proj2 (proj2 (pollJob_attempt_budget world_in_progress 0 (JStr "job-1") 0
                                  sample_store)))).
    + split; intros; [reflexivity | split; reflexivity].
    + intros k s. reflexivity.
    + reflexivity.
  - assert (Hp : pending_before world_upstream_error (JStr "job-1") 0 0 sample_store 1).
    { intros k Hk. destruct k as [|k]; [|lia]. split; [reflexivity|repeat split]. }
    assert (Hj : (1 < 120)%nat) by lia.
    exact (proj2 (proj2 (proj2 (proj2 (pollJob_attempt_budget world_upstream_error 0
                                         (JStr "job-1") 0 sample_store)))
                    1%nat Hj Hp) eq_refl).
Defined.

(** The second attempt is answered with HTTP 502 and an error of the
    upstream: [pollJob] throws that error after two requests and one wait.
    When a new run is started during a request whose answer has an HTTP
    error status, [pollJob] throws as well: the epoch is looked at when an
    attempt starts, not when its answer arrives. *)
Example pollJob_upstream_message :
  outcome (exec world_upstream_error 0 (pollJob (JStr "job-1") 0) sample_store)
    = Raised "upstream down" /\
  requests (exec world_upstream_error 0 (pollJob (JStr "job-1") 0) sample_store)
    = [GetStatus "job-1"; GetStatus "job-1"] /\
  awaits world_upstream_error 0 (pollJob (JStr "job-1") 0) sample_store = 5%nat /\
  outcome (exec (mkWorld (fun _ _ => FetchResponse false) (fun _ => None)
                         (fun _ s => set_runIdRef 7 s))
             0 (pollJob (JStr "job-1") 0) sample_store)
    = Raised "Status request failed.".
Proof. repeat split. Qed.

(** Without the conditions on the HTTP status and on the epoch the timeout
    does not follow: an endpoint whose answers hold no image and no
    failure-marked status, but an HTTP error status, makes [pollJob] fail
    after one request with ['Status request failed.'], not with the timeout
    error; and when the run is superseded during the first request,
    [pollJob] returns the cancelled result instead of failing. *)
Lemma pollJob_not_always_timeout :
  (forall k,
      extractImageList (parsed (json_at world_http_error k)) = [] /\
      failure_marked (parsed (json_at world_http_error k)) = false) /\
  outcome (exec world_http_error 0 (pollJob (JStr "job-1") 0) sample_store)
    = Raised "Status request failed." /\
  requests (exec world_http_error 0 (pollJob (JStr "job-1") 0) sample_store)
    = [GetStatus "job-1"] /\
  (forall k,
      extractImageList (parsed (json_at world_superseded k)) = [] /\
      failure_marked (parsed (json_at world_superseded k)) = false) /\
  outcome (exec world_superseded 0 (pollJob (JStr "job-1") 0) sample_store)
    = Finished (mkPolled Pcancelled []).
Proof. repeat split. Qed.

Example pollJob_second_call_completes :
  outcome (exec world_completes 0 (pollJob (JStr "job-1") 0) sample_store)
    = Finished (mkPolled Pdone ["data:image/png;base64,aGVsbG8="]) /\
  delays (exec world_completes 0 (pollJob (JStr "job-1") 0) sample_store) = [1500%Z].
Proof. split; reflexivity. Qed.

(** ** Starting a run *)

Lemma mapi_from_map (A B C : Type) (g : A -> B) (f : B -> nat -> C) :
  forall l k, mapi_from f k (map g l) = mapi_from (fun x i => f (g x) i) k l.
Proof. induction l; intros k; simpl; [|rewrite IHl]; reflexivity. Qed.

Lemma mapi_from_length (A B : Type) (f : A -> nat -> B) :
  forall l k, List.length (mapi_from f k l) = List.length l.
Proof. induction l; intros k; simpl; [|rewrite IHl]; reflexivity. Qed.

Lemma map_mapi_from (A B C : Type) (g : B -> C) (f : A -> nat -> B) :
  forall l k, map g (mapi_from f k l) = mapi_from (fun x i => g (f x i)) k l.
Proof. induction l; intros k; simpl; [|rewrite IHl]; reflexivity. Qed.

Lemma mapi_from_const (A B : Type) (g : A -> B) :
  forall l k, mapi_from (fun x _ => g x) k l = map g l.
Proof. induction l; intros k; simpl; [|rewrite IHl]; reflexivity. Qed.

Lemma Forall_mapi_from (A B : Type) (P : B -> Prop) (f : A -> nat -> B) :
  (forall x i, P (f x i)) -> forall l k, Forall P (mapi_from f k l).
Proof. intros H. induction l; intros k; simpl; constructor; auto. Qed.

(** C9. [startBatch] with an image payload increments the run epoch by one
    and replaces the result list by one record per azimuth preset, in
    preset order, each queued and without image or error; this is the state
    in which it hands its tasks, one per preset, to [runQueue], that is,
    before any task is dispatched. *)
Theorem startBatch_resets_results :
  forall (h : Hooks.t) (makeId : nat -> string) (payload : string) (s : store),
    payload <> "" ->
    let runId := (runIdRef s + 1)%Z in
    let tasks := mapi (fun view index => task h runId payload view index) (buildViews h) in
    let s1 := state_at_dispatch h makeId s in
    run_sync (startBatch_begin h makeId payload) s = (Finished (Some (runId, tasks)), s1, 5%nat) /\
    runIdRef s1 = (runIdRef s + 1)%Z /\
    List.length (results s1) = List.length ANGLE_PRESETS /\
    map azimuth (results s1) = ANGLE_PRESETS /\
    Forall (fun r => status r = Squeued /\ image r = None /\ error r = None) (results s1) /\
    List.length tasks = List.length ANGLE_PRESETS /\
    (forall runs,
        sys_step (mkSystem s runs) Handler
          (mkSystem (snd (runQueue tasks MAX_PARALLEL s1))
             (runs ++ [mkRun runId tasks (fst (runQueue tasks MAX_PARALLEL s1)) false]))
          5%nat).
Proof.
  intros h makeId payload s Hp runId tasks s1.
  assert (Hrun : run_sync (startBatch_begin h makeId payload) s
                 = (Finished (Some (runId, tasks)), s1, 5%nat)).
  { unfold startBatch_begin. destruct (String.eqb_spec payload ""); [contradiction|].
    cbn [run_sync bind update]. unfold s1, state_at_dispatch, queued_results, tasks, runId.
    unfold buildViews, mapi. rewrite mapi_from_map. reflexivity. }
  split; [exact Hrun|]. split; [reflexivity|].
  unfold s1, state_at_dispatch, queued_results, mapi. cbn [results].
  split; [apply mapi_from_length|].
  split; [rewrite map_mapi_from; cbn [azimuth]; rewrite mapi_from_const; apply map_id|].
  split; [apply Forall_mapi_from; intros; cbn; auto|].
  split; [unfold tasks, mapi, buildViews; rewrite mapi_from_length; apply length_map|].
  intros runs. eapply sys_start with (h := h) (makeId := makeId) (payload := payload).
  - exact Hrun.
  - apply surjective_pairing.
Qed.

Lemma startBatch_resets_results_witness :
  run_sync (startBatch_begin sample_hooks sample_makeId "aGVsbG8=") sample_store
  = (Finished (Some (1%Z, mapi (fun view index => task sample_hooks 1 "aGVsbG8=" view index)
                            (buildViews sample_hooks))),
     state_at_dispatch sample_hooks sample_makeId sample_store, 5%nat) /\
  map azimuth (results (state_at_dispatch sample_hooks sample_makeId sample_store))
  = ANGLE_PRESETS.
Proof.
  assert (Hp : "aGVsbG8=" <> "") by discriminate.
  split.
  - apply (@startBatch_resets_results sample_hooks sample_makeId "aGVsbG8=" sample_store Hp).
  - apply (@startBatch_resets_results sample_hooks sample_makeId "aGVsbG8=" sample_store Hp).
Defined.

Example startBatch_empty_payload_returns :
  forall h makeId s, run_sync (startBatch_begin h makeId "") s = (Finished None, s, 0%nat).
Proof. reflexivity. Qed.

Example startBatch_first_ids :
  map id (results (state_at_dispatch sample_hooks sample_makeId sample_store))
  = ["id-0"; "id-1"; "id-2"; "id-3"; "id-4"; "id-5"; "id-6"; "id-7"].
Proof. vm_compute. reflexivity. Qed.

(** ** Bounded task runner: invariants *)

Lemma set_runner_length w r l : List.length (set_runner w r l) = List.length l.
Proof. revert w; induction l; intros [|w]; simpl; auto. Qed.

Lemma awaited_set_runner w r r0 : forall l,
  nth_error l w = Some r0 ->
  Permutation (awaited_by r0 ++ awaited (set_runner w r l)) (awaited_by r ++ awaited l).
Proof.
  induction w as [|w IH]; intros [|x l] H; simpl in H; try discriminate.
  - injection H as ->. unfold awaited. simpl. apply Permutation_app_swap_app.
  - unfold awaited in *. simpl set_runner. simpl flat_map.
    eapply perm_trans; [apply Permutation_app_swap_app|].
    eapply perm_trans; [|apply Permutation_app_swap_app].
    apply Permutation_app_head. now apply IH.
Qed.

Lemma In_set_runner w r x : forall l, In x (set_runner w r l) -> x = r \/ In x l.
Proof.
  induction w as [|w IH]; intros [|y l]; simpl; auto.
  - intros [<-|H]; auto.
  - intros [<-|H]; auto. destruct (IH l H); auto.
Qed.

Lemma nth_error_set_runner_same w r : forall l,
  (w < List.length l)%nat -> nth_error (set_runner w r l) w = Some r.
Proof.
  induction w as [|w IH]; intros [|y l] H; simpl in *; try lia; auto.
  apply IH. lia.
Qed.

Lemma nth_error_set_runner_other w w' r : forall l,
  w <> w' -> nth_error (set_runner w r l) w' = nth_error l w'.
Proof.
  revert w'. induction w as [|w IH]; intros [|w'] [|y l] H; simpl; auto; try congruence.
Qed.

Lemma awaited_app l1 l2 : awaited (l1 ++ l2) = (awaited l1 ++ awaited l2)%list.
Proof. unfold awaited. apply flat_map_app. Qed.

(** What one pass of a runner does to the queue. *)
Lemma claim_spec tasks w q s r q1 s1 n :
  claim tasks w q s = (r, q1, s1, n) ->
  runners q1 = runners q /\ cursor q1 = S (cursor q) /\
  ((List.length tasks <= cursor q)%nat /\ r = Returned /\
   claimed q1 = claimed q /\ resolved q1 = resolved q /\ s1 = s /\ n = 0%nat
   \/
   exists t o,
     nth_error tasks (cursor q) = Some t /\ run_sync t s = (o, s1, n) /\
     r = settle (cursor q) o /\
     claimed q1 = (claimed q ++ [(w, cursor q)])%list /\
     resolved q1 = (resolved q ++ settled_now (cursor q) o)%list).
Proof.
  unfold claim. destruct (nth_error tasks (cursor q)) as [t|] eqn:E.
  - destruct (run_sync t s) as [[o s'] n'] eqn:R. intros [= <- <- <- <-]. simpl.
    repeat split. right. exists t, o. repeat split; auto.
  - intros [= <- <- <- <-]. simpl. repeat split. left.
    apply nth_error_None in E. repeat split; auto.
Qed.

Lemma settle_awaits index o :
  (settled_now index o ++ awaited_by (settle index o))%list = [index].
Proof. destruct o; reflexivity. Qed.

Lemma settle_not_returned index o : settle index o <> Returned.
Proof. destruct o; discriminate. Qed.

(** A pass keeps the invariant, wherever the runner is put back. *)
Lemma claim_preserves tasks w q s r q1 s1 n l' :
  queue_inv tasks q ->
  claim tasks w q s = (r, q1, s1, n) ->
  Permutation (awaited l') (awaited_by r ++ awaited (runners q)) ->
  (In Returned l' -> r = Returned \/ In Returned (runners q)) ->
  (w < List.length l')%nat ->
  (List.length (runners q) <= List.length l')%nat ->
  queue_inv tasks (with_runners q1 l').
Proof.
  intros [I1 I2 I3 I4] Hc Hp Hr Hw Hl.
  apply claim_spec in Hc.
  destruct Hc as (_ & Hcur & [(Hlen & -> & Hcl & Hres & _ & _) | (t & o & Ht & _ & -> & Hcl & Hres)]).
  - constructor; simpl; rewrite ?Hcl, ?Hres, ?Hcur.
    + rewrite I1. f_equal. lia.
    + eapply perm_trans; [exact I2|]. apply Permutation_app_head.
      symmetry. exact Hp.
    + intros _. lia.
    + intros w' i H. specialize (I4 _ _ H). lia.
  - assert (Hlt : (cursor q < List.length tasks)%nat)
      by (apply nth_error_Some; congruence).
    constructor; simpl; rewrite ?Hcl, ?Hres, ?Hcur.
    + rewrite map_app, I1. change (map snd [(w, cursor q)]) with [cursor q].
      replace (Nat.min (cursor q) (List.length tasks)) with (cursor q) by lia.
      replace (Nat.min (S (cursor q)) (List.length tasks)) with (S (cursor q)) by lia.
      rewrite seq_S. reflexivity.
    + rewrite map_app. simpl.
      eapply perm_trans; [apply Permutation_app_tail; exact I2|].
      rewrite <- !app_assoc. apply Permutation_app_head.
      eapply perm_trans; [apply Permutation_app_comm|]. simpl.
      eapply perm_trans; [|apply Permutation_app_head; symmetry; exact Hp].
      rewrite app_assoc, settle_awaits. reflexivity.
    + intros H. destruct (Hr H) as [H'|H'].
      * now apply settle_not_returned in H'.
      * specialize (I3 H'). lia.
    + intros w' i H. apply in_app_or in H. destruct H as [H|[[= <- <-]|[]]]; auto.
      specialize (I4 _ _ H). lia.
Qed.

Lemma queue_inv_empty tasks : queue_inv tasks (mkQueue 0 [] [] []).
Proof. constructor; simpl; auto; try contradiction. Qed.

Lemma launch_preserves tasks : forall n q s,
  queue_inv tasks q ->
  queue_inv tasks (fst (launch tasks n q s)) /\
  List.length (runners (fst (launch tasks n q s))) = (List.length (runners q) + n)%nat.
Proof.
  induction n as [|n IH]; intros q s Hq; simpl.
  - split; auto.
  - destruct (claim tasks (List.length (runners q)) q s) as [[[r q1] s1] k] eqn:Hc.
    pose proof (claim_spec _ _ _ _ Hc) as (Hrun & _).
    destruct (IH (with_runners q1 (runners q1 ++ [r])) s1) as [H1 H2].
    + eapply claim_preserves; eauto.
      * rewrite Hrun, awaited_app. unfold awaited at 2. simpl. rewrite app_nil_r.
        apply Permutation_app_comm.
      * rewrite Hrun. intros H. apply in_app_or in H. destruct H as [H|[H|[]]]; auto.
      * rewrite Hrun, length_app. simpl. lia.
      * rewrite Hrun, length_app. simpl. lia.
    + split; auto. rewrite H2. simpl. rewrite Hrun, length_app. simpl. lia.
Qed.

Lemma qstep_preserves tasks q s q' s' n :
  queue_inv tasks q -> qstep tasks q s q' s' n ->
  queue_inv tasks q' /\ List.length (runners q') = List.length (runners q).
Proof.
  intros Hq Hstep. destruct Hstep as [w index p r p' o s' n Hw Hres Hrun
                                     | w index r q1 s1 n Hw Hc
                                     | w index message Hw].
  - split; [|simpl; apply set_runner_length].
    destruct Hq as [I1 I2 I3 I4]. constructor; simpl; auto.
    + eapply perm_trans; [exact I2|]. rewrite <- app_assoc. apply Permutation_app_head.
      pose proof (@awaited_set_runner w (settle index o) _ _ Hw) as Hp. simpl in Hp.
      destruct o; simpl in *.
      * symmetry. exact Hp.
      * symmetry. exact Hp.
      * apply Permutation_cons_inv in Hp. symmetry. exact Hp.
    + intros H. apply In_set_runner in H. destruct H as [H|H]; auto.
      symmetry in H. now apply settle_not_returned in H.
    + intros w' i H. rewrite set_runner_length. eauto.
  - pose proof (claim_spec _ _ _ _ Hc) as (Hrun & _).
    assert (Hlt : (w < List.length (runners q))%nat) by (apply nth_error_Some; congruence).
    split; [|simpl; rewrite set_runner_length, Hrun; reflexivity].
    eapply claim_preserves; eauto.
    + rewrite Hrun. pose proof (@awaited_set_runner w r _ _ Hw) as Hp. exact Hp.
    + rewrite Hrun. intros H. apply In_set_runner in H. destruct H; auto.
    + rewrite set_runner_length, Hrun. exact Hlt.
    + rewrite set_runner_length, Hrun. lia.
  - split; [|simpl; apply set_runner_length].
    destruct Hq as [I1 I2 I3 I4]. constructor; simpl; auto.
    + eapply perm_trans; [exact I2|]. apply Permutation_app_head.
      pose proof (@awaited_set_runner w (Rejected message) _ _ Hw) as Hp. symmetry. exact Hp.
    + intros H. apply In_set_runner in H. destruct H as [H|H]; auto. discriminate.
    + intros w' i H. rewrite set_runner_length. eauto.
Qed.

(** Every state of an execution of [runQueue] satisfies the invariant and
    has the runners created at the start. *)
Lemma running_queue_inv tasks concurrency q :
  running_queue tasks concurrency q ->
  queue_inv tasks q /\ List.length (runners q) = runner_count concurrency.
Proof.
  intros [s0 H]. induction H as [|q q' _ IH (s & s' & n & Hstep)].
  - unfold runQueue.
    destruct (@launch_preserves tasks (runner_count concurrency) _ s0 (queue_inv_empty tasks))
      as [H1 H2]. split; auto.
  - destruct IH as [I L]. destruct (qstep_preserves I Hstep) as [I' L']. split; congruence.
Qed.

(** ** Bounded task runner: the ceiling *)

Lemma Permutation_filter_same (A : Type) (f : A -> bool) (l l' : list A) :
  Permutation l l' -> Permutation (filter f l) (filter f l').
Proof.
  induction 1 as [|x l l' _ IH|x y l|l l' l'' _ IH1 _ IH2]; simpl.
  - constructor.
  - destruct (f x); auto.
  - destruct (f x), (f y); auto. constructor.
  - eapply perm_trans; eauto.
Qed.

Lemma NoDup_app_disjoint (A : Type) (l1 l2 : list A) :
  NoDup (l1 ++ l2) -> forall x, In x l1 -> In x l2 -> False.
Proof.
  induction l1 as [|a l1 IH]; simpl; intros H x H1 H2; [contradiction|].
  inversion H as [|? ? Hn Hd]; subst. destruct H1 as [->|H1].
  - apply Hn. apply in_or_app. now right.
  - eapply IH; eauto.
Qed.

Lemma filter_all (A : Type) (f : A -> bool) (l : list A) :
  (forall x, In x l -> f x = true) -> filter f l = l.
Proof.
  induction l as [|a l IH]; simpl; intros H; [reflexivity|].
  rewrite (H a) by auto. f_equal. apply IH. auto.
Qed.

Lemma filter_none (A : Type) (f : A -> bool) (l : list A) :
  (forall x, In x l -> f x = false) -> filter f l = [].
Proof.
  induction l as [|a l IH]; simpl; intros H; [reflexivity|].
  rewrite (H a) by auto. apply IH. auto.
Qed.

Lemma existsb_eqb_In (x : nat) (l : list nat) : existsb (Nat.eqb x) l = true <-> In x l.
Proof.
  rewrite existsb_exists. split.
  - intros (y & Hy & E). apply Nat.eqb_eq in E. now subst.
  - intros H. exists x. split; auto. apply Nat.eqb_refl.
Qed.

Lemma queue_inv_NoDup tasks q : queue_inv tasks q -> NoDup (map snd (claimed q)).
Proof. intros [I1 _ _ _]. rewrite I1. apply seq_NoDup. Qed.

(** The tasks in flight are the tasks the runners are waiting for. *)
Lemma in_flight_awaited tasks q :
  queue_inv tasks q -> Permutation (in_flight q) (awaited (runners q)).
Proof.
  intros Hq. pose proof (queue_inv_NoDup Hq) as Hnd. destruct Hq as [_ I2 _ _].
  unfold in_flight.
  eapply perm_trans; [apply Permutation_filter_same; exact I2|].
  rewrite filter_app.
  assert (Hnd' : NoDup (resolved q ++ awaited (runners q)))
    by (eapply Permutation_NoDup; eauto).
  rewrite filter_none, filter_all; [reflexivity| |].
  - intros x Hx. apply negb_true_iff. destruct (existsb (Nat.eqb x) (resolved q)) eqn:E; auto.
    apply existsb_eqb_In in E. exfalso. eapply NoDup_app_disjoint; eauto.
  - intros x Hx. apply negb_false_iff. now apply existsb_eqb_In.
Qed.

Lemma awaited_length l : (List.length (awaited l) <= List.length l)%nat.
Proof.
  induction l as [|r l IH]; simpl; [lia|].
  unfold awaited in *. simpl. rewrite length_app. destruct r; simpl; lia.
Qed.

Lemma runner_count_positive concurrency :
  (1 <= concurrency)%Z -> runner_count concurrency = Z.to_nat concurrency.
Proof. intros H. unfold runner_count. f_equal. lia. Qed.

(** C3. For every list of tasks and every ceiling [c >= 1], in every state
    of every execution of [runQueue(tasks, c)], under every interleaving of
    the events and whatever else happens to the component state, at most
    [c] tasks are started and not yet settled: they are the tasks that the
    [c] runners are waiting for, one each at most. *)
Theorem runQueue_never_exceeds_ceiling :
  forall (tasks : list (async unit)) (c : Z) (q : queue),
    (1 <= c)%Z ->
    running_queue tasks c q ->
    (List.length (in_flight q) <= Z.to_nat c)%nat /\
    List.length (runners q) = Z.to_nat c /\
    Permutation (in_flight q) (awaited (runners q)).
Proof.
  intros tasks c q Hc Hq.
  destruct (running_queue_inv Hq) as [I L].
  pose proof (in_flight_awaited I) as Hp.
  rewrite runner_count_positive in L by assumption.
  repeat split; auto.
  rewrite (Permutation_length Hp), <- L. apply awaited_length.
Qed.

(** The scripted turns are turns of the scheduler. *)
Lemma turn_sound tasks q s w r q' s' :
  turn tasks q s w r = Some (q', s') -> qnext tasks q q'.
Proof.
  unfold turn. destruct (nth_error (runners q) w) as [[index p|index [message|]| |message]|] eqn:Hw;
    destruct r as [rep|]; try discriminate.
  - destruct (resume p rep) as [p'|] eqn:Hres; [|discriminate].
    destruct (run_sync p' s) as [[o s1] n] eqn:Hrun. intros [= <- <-].
    exists s, s1, n. eapply qstep_event; eauto.
  - intros [= <- <-]. exists s, s, 0%nat. eapply qstep_reject; eauto.
  - destruct (claim tasks w q s) as [[[r' q1] s1] n] eqn:Hc. intros [= <- <-].
    exists s, s1, n. eapply qstep_next; eauto.
Qed.

Lemma drive_reach tasks q0 : forall script q s q' s',
  drive tasks script q s = Some (q', s') -> qreach tasks q0 q -> qreach tasks q0 q'.
Proof.
  induction script as [|[w r] script IH]; simpl; intros q s q' s' H Hq.
  - now injection H as <- <-.
  - destruct (turn tasks q s w r) as [[q1 s1]|] eqn:Ht; [|discriminate].
    eapply IH; eauto. eapply qreach_step; eauto. eapply turn_sound; eauto.
Qed.

Lemma drive_running tasks concurrency s0 script q' s' :
  drive tasks script (fst (runQueue tasks concurrency s0)) (snd (runQueue tasks concurrency s0))
    = Some (q', s') ->
  running_queue tasks concurrency q'.
Proof. intros H. exists s0. eapply drive_reach; eauto. constructor. Qed.

(** With eight views and three runners, the first three views are submitted
    at once and the fourth only when one of them has settled. *)
Example first_three_at_once :
  in_flight (fst (runQueue sample_tasks MAX_PARALLEL sample_dispatch)) = [0; 1; 2]%nat /\
  map status (results (snd (runQueue sample_tasks MAX_PARALLEL sample_dispatch)))
  = [Srunning; Srunning; Srunning; Squeued; Squeued; Squeued; Squeued; Squeued].
Proof. split; vm_compute; reflexivity. Qed.

Example fourth_after_first_settles :
  observe (drive sample_tasks script_first_view_done
             (fst (runQueue sample_tasks MAX_PARALLEL sample_dispatch))
             (snd (runQueue sample_tasks MAX_PARALLEL sample_dispatch)))
  = Some ([1; 2; 3]%nat,
          [(0, 0); (1, 1); (2, 2); (0, 3)]%nat,
          [Sdone; Srunning; Srunning; Srunning; Squeued; Squeued; Squeued; Squeued],
          [Some "data:image/png;base64,aGVsbG8="; None; None; None; None; None; None; None]).
Proof. vm_compute. reflexivity. Qed.

Lemma runQueue_never_exceeds_ceiling_witness :
  (List.length (in_flight (fst (runQueue sample_tasks 3 sample_dispatch))) <= 3)%nat /\
  List.length (runners (fst (runQueue sample_tasks 3 sample_dispatch))) = 3%nat.
Proof.
  assert (Hc : (1 <= 3)%Z) by lia.
  assert (Hq : running_queue sample_tasks 3 (fst (runQueue sample_tasks 3 sample_dispatch)))
    by (exists sample_dispatch; constructor).
  split.
  - apply (runQueue_never_exceeds_ceiling Hc Hq).
  - apply (runQueue_never_exceeds_ceiling Hc Hq).
Defined.

(** ** Bounded task runner: every execution ends *)

Lemma run_sync_suspended (A : Type) (p : async A) : forall s p' s' n,
  run_sync p s = (Suspended p', s', n) -> suspension p'.
Proof.
  induction p as [a|message|k IH|f k IH|req k IH|k IH|ms k IH|k IH]; simpl; intros s p' s' n H;
    try discriminate; eauto.
  - destruct (run_sync k (f s)) as [[o s1] n1] eqn:E. injection H as -> <- <-. eauto.
  - injection H as <- <- <-. exists (FetchSettled (FetchResponse true)). simpl. eauto.
  - injection H as <- <- <-. exists (JsonSettled None). simpl. eauto.
  - injection H as <- <- <-. exists TimerFired. simpl. eauto.
  - injection H as <- <- <-. exists CallSettled. simpl. eauto.
Qed.

Lemma Acc_settled index rejection : Acc rstep (Settled index rejection).
Proof. constructor. intros r' (i & p & rep & p' & s & E & _). discriminate. Qed.

(** A task is a finite tree: whatever the events, it settles after finitely
    many of them. *)
Lemma Acc_settle (p : async unit) : forall index s,
  Acc rstep (settle index (fst (fst (run_sync p s)))).
Proof.
  induction p as [a|message|k IH|f k IH|req k IH|k IH|ms k IH|k IH]; intros index s; simpl.
  - apply Acc_settled.
  - apply Acc_settled.
  - apply IH.
  - specialize (IH index (f s)). destruct (run_sync k (f s)) as [[o s1] n1]. exact IH.
  - constructor. intros r' (i & p & rep & p' & s0 & E & R & ->). injection E as <- <-.
    destruct rep; simpl in R; try discriminate. injection R as <-. apply IH.
  - constructor. intros r' (i & p & rep & p' & s0 & E & R & ->). injection E as <- <-.
    destruct rep; simpl in R; try discriminate. injection R as <-. apply IH.
  - constructor. intros r' (i & p & rep & p' & s0 & E & R & ->). injection E as <- <-.
    destruct rep; simpl in R; try discriminate. injection R as <-. apply IH.
  - constructor. intros r' (i & p & rep & p' & s0 & E & R & ->). injection E as <- <-.
    destruct rep; simpl in R; try discriminate. injection R as <-. apply IH.
Qed.

Lemma Acc_runner (r : runner) : Acc rstep r.
Proof.
  constructor. intros r' (i & p & rep & p' & s & -> & _ & ->). apply Acc_settle.
Qed.

Lemma Acc_lstep_cons (r : runner) :
  Acc rstep r -> forall l, Acc lstep l -> Acc lstep (r :: l).
Proof.
  induction 1 as [r _ IHr]. induction 1 as [l Hl IHl].
  constructor. intros l' (w & r0 & r' & Hn & Hs & ->). destruct w as [|w]; simpl in *.
  - injection Hn as <-. apply IHr; auto. constructor. exact Hl.
  - apply IHl. exists w, r0, r'. auto.
Qed.

Lemma Acc_lstep (l : list runner) : Acc lstep l.
Proof.
  induction l as [|r l IH].
  - constructor. intros l' (w & r0 & r' & Hn & _). destruct w; discriminate.
  - apply Acc_lstep_cons; auto. apply Acc_runner.
Qed.

Lemma live_set_runner w r' r0 : forall l,
  nth_error l w = Some r0 ->
  (list_sum (map live (set_runner w r' l)) + live r0 = list_sum (map live l) + live r')%nat.
Proof.
  induction w as [|w IH]; intros [|x l] H; simpl in H; try discriminate.
  - injection H as ->. simpl. lia.
  - simpl. specialize (IH l H). lia.
Qed.

Lemma live_settle index o : live (settle index o) = 1%nat.
Proof. destruct o; reflexivity. Qed.

(** Every turn either lets a task advance towards its end, or uses up a
    pass or a rejection. *)
Lemma qstep_decreases tasks q s q' s' n :
  qstep tasks q s q' s' n ->
  (fuel tasks q' = fuel tasks q /\ lstep (runners q') (runners q)) \/
  (fuel tasks q' < fuel tasks q)%nat.
Proof.
  intros [w index p r p' o s1 n1 Hw Hres Hrun | w index r q1 s1 n1 Hw Hc | w index message Hw].
  - left. unfold fuel. simpl. split.
    + pose proof (@live_set_runner w (settle index o) _ _ Hw) as H.
      rewrite live_settle in H. simpl in H. lia.
    + exists w, (Awaiting index p), (settle index o). repeat split; auto.
      exists index, p, r, p', s. rewrite Hrun. auto.
  - right. unfold fuel. simpl.
    pose proof (claim_spec _ _ _ _ Hc) as (Hrun & Hcur & Hcase). rewrite Hrun, Hcur.
    pose proof (@live_set_runner w r _ _ Hw) as H. simpl in H.
    destruct Hcase as [(Hlen & -> & _) | (t & o & Ht & _ & -> & _)].
    + simpl in H. lia.
    + rewrite live_settle in H.
      assert (cursor q < List.length tasks)%nat by (apply nth_error_Some; congruence). lia.
  - right. unfold fuel. simpl.
    pose proof (@live_set_runner w (Rejected message) _ _ Hw) as H. simpl in H. lia.
Qed.

(** Every execution of [runQueue] is finite: no infinite sequence of turns
    exists from any queue state, whatever the component state is at each
    turn. *)
Lemma qnext_terminates tasks (q : queue) : Acc (fun q' q => qnext tasks q q') q.
Proof.
  remember (fuel tasks q) as N eqn:EN. revert q EN.
  induction N as [N IHN] using lt_wf_ind. intros q EN.
  pose proof (Acc_lstep (runners q)) as Hl.
  remember (runners q) as l eqn:El. revert q EN El.
  induction Hl as [l _ IHl]. intros q EN El.
  constructor. intros q' (s & s' & n & Hstep).
  destruct (qstep_decreases Hstep) as [[Hf Hls]|Hlt].
  - apply (IHl (runners q')); subst; auto.
  - apply (IHN (fuel tasks q')); subst; auto.
Qed.

(** ** Bounded task runner: no turn is lost *)

Lemma never_throws_run_sync (A : Type) (p : async A) : forall s o s' n,
  never_throws p -> run_sync p s = (o, s', n) ->
  match o with
  | Finished _ => True
  | Raised _ => False
  | Suspended p' => never_throws p'
  end.
Proof.
  induction p as [a|message|k IH|f k IH|req k IH|k IH|ms k IH|k IH]; simpl; intros s o s' n Hp H;
    try (injection H as <- <- <-; simpl; auto; fail).
  - eapply IH; eauto.
  - destruct (run_sync k (f s)) as [[o1 s1] n1] eqn:E. injection H as <- <- <-.
    eapply IH; eauto.
Qed.

Lemma never_throws_resume (A : Type) (p : async A) r p' :
  never_throws p -> resume p r = Some p' -> never_throws p'.
Proof.
  destruct p, r; simpl; intros Hp H; try discriminate; injection H as <-; auto.
Qed.

Lemma Forall_set_runner (P : runner -> Prop) w r : forall l,
  Forall P l -> P r -> Forall P (set_runner w r l).
Proof.
  induction w as [|w IH]; intros [|x l] Hl Hr; simpl; auto;
    inversion Hl; subst; constructor; auto.
Qed.

Lemma settle_waits index (p : async unit) s o s' n :
  run_sync p s = (o, s', n) -> runner_waits (settle index o).
Proof.
  destruct o; simpl; auto. intros H. eapply run_sync_suspended; eauto.
Qed.

Lemma settle_clean index (p : async unit) s o s' n :
  never_throws p -> run_sync p s = (o, s', n) -> runner_clean (settle index o).
Proof.
  intros Hp H. pose proof (never_throws_run_sync _ _ Hp H) as Ho.
  destruct o; simpl; auto.
Qed.

Lemma claim_runner tasks w q s r q1 s1 n :
  claim tasks w q s = (r, q1, s1, n) ->
  runner_waits r /\ (Forall (@never_throws unit) tasks -> runner_clean r).
Proof.
  intros Hc. apply claim_spec in Hc.
  destruct Hc as (_ & _ & [(_ & -> & _) | (t & o & Ht & Hrun & -> & _)]).
  - simpl. auto.
  - split; [eapply settle_waits; eauto|].
    intros Hall. eapply settle_clean; eauto.
    rewrite Forall_forall in Hall. apply Hall. eapply nth_error_In; eauto.
Qed.

Lemma launch_runners tasks : forall n q s,
  runners_inv tasks q -> runners_inv tasks (fst (launch tasks n q s)).
Proof.
  induction n as [|n IH]; intros q s Hq; simpl; auto.
  destruct (claim tasks (List.length (runners q)) q s) as [[[r q1] s1] k] eqn:Hc.
  pose proof (claim_spec _ _ _ _ Hc) as (Hrun & _).
  destruct (claim_runner _ _ _ _ Hc) as [Hw Hcl]. destruct Hq as [H1 H2].
  apply IH. split; simpl; rewrite Hrun.
  - apply Forall_app. split; auto.
  - intros Hall. apply Forall_app. split; auto.
Qed.

Lemma qstep_runners tasks q s q' s' n :
  runners_inv tasks q -> qstep tasks q s q' s' n -> runners_inv tasks q'.
Proof.
  intros [H1 H2] [w index p r p' o s1 n1 Hw Hres Hrun | w index r q1 s1 n1 Hw Hc
                 | w index message Hw].
  - split; simpl.
    + apply Forall_set_runner; auto. eapply settle_waits; eauto.
    + intros Hall. specialize (H2 Hall). apply Forall_set_runner; auto.
      eapply settle_clean; eauto. eapply never_throws_resume; eauto.
      rewrite Forall_forall in H2. apply (H2 (Awaiting index p)).
      eapply nth_error_In; eauto.
  - pose proof (claim_spec _ _ _ _ Hc) as (Hrun & _).
    destruct (claim_runner _ _ _ _ Hc) as [Hwt Hcl].
    split; simpl; rewrite Hrun.
    + apply Forall_set_runner; auto.
    + intros Hall. apply Forall_set_runner; auto.
  - split; simpl.
    + apply Forall_set_runner; simpl; auto.
    + intros Hall. specialize (H2 Hall). rewrite Forall_forall in H2.
      exfalso. apply (H2 (Settled index (Some message))). eapply nth_error_In; eauto.
Qed.

Lemma running_queue_runners tasks concurrency q :
  running_queue tasks concurrency q -> runners_inv tasks q.
Proof.
  intros [s0 H]. induction H as [|q q' _ IH (s & s' & n & Hstep)].
  - apply launch_runners. split; simpl; auto.
  - eapply qstep_runners; eauto.
Qed.

(** A runner that is waiting or about to resume has a turn to take. *)
Lemma live_runner_steps tasks q w r :
  nth_error (runners q) w = Some r -> runner_waits r -> live r = 1%nat ->
  exists q', qnext tasks q q'.
Proof.
  intros Hw Hwait Hlive. pose (s := mkStore 0 [] 0 "" false).
  destruct r as [index p|index [message|]| |message]; simpl in *; try discriminate.
  - destruct Hwait as (rep & p' & Hres).
    destruct (run_sync p' s) as [[o s1] n] eqn:Hrun.
    eexists. exists s, s1, n. eapply qstep_event; eauto.
  - eexists. exists s, s, 0%nat. eapply qstep_reject; eauto.
  - destruct (claim tasks w q s) as [[[r q1] s1] n] eqn:Hc.
    eexists. exists s, s1, n. eapply qstep_next; eauto.
Qed.

Lemma quiescent_returned tasks q :
  runners_inv tasks q -> Forall (@never_throws unit) tasks ->
  quiescent tasks q -> all_returned q.
Proof.
  intros [H1 H2] Hall Hquiet. specialize (H2 Hall).
  unfold all_returned. rewrite Forall_forall in *. intros r Hr.
  destruct (In_nth_error _ _ Hr) as [w Hw].
  specialize (H1 r Hr). specialize (H2 r Hr).
  destruct r as [index p|index [message|]| |message]; simpl in H2; try contradiction; auto.
  - destruct (@live_runner_steps tasks q w _ Hw H1 eq_refl) as [q' Hq'].
    now apply Hquiet in Hq'.
  - destruct (@live_runner_steps tasks q w _ Hw H1 eq_refl) as [q' Hq'].
    now apply Hquiet in Hq'.
Qed.

Lemma dead_quiescent tasks q :
  Forall (fun r => live r = 0%nat) (runners q) -> quiescent tasks q.
Proof.
  intros H q' (s & s' & n & Hstep). rewrite Forall_forall in H.
  destruct Hstep as [w index p r p' o s1 n1 Hw _ _ | w index r q1 s1 n1 Hw _ | w index message Hw];
    apply nth_error_In in Hw; apply H in Hw; discriminate.
Qed.

Lemma all_dead_or_live (l : list runner) :
  Forall (fun r => live r = 0%nat) l \/
  exists w r, nth_error l w = Some r /\ live r = 1%nat.
Proof.
  induction l as [|r l [IH|(w & r' & Hw & Hl)]].
  - left. constructor.
  - destruct (live r) eqn:E.
    + left. constructor; auto.
    + right. exists 0%nat, r. split; auto. destruct r; simpl in *; congruence.
  - right. exists (S w), r'. auto.
Qed.

Lemma qreach_trans tasks q0 q1 q2 :
  qreach tasks q0 q1 -> qreach tasks q1 q2 -> qreach tasks q0 q2.
Proof.
  intros H1 H2. induction H2; auto. eapply qreach_step; eauto.
Qed.

(** From every state of an execution, the turns can be taken until none is
    left. *)
Lemma runs_to_quiescence tasks (q : queue) :
  runners_inv tasks q ->
  exists q', qreach tasks q q' /\ quiescent tasks q' /\ runners_inv tasks q'.
Proof.
  induction (qnext_terminates tasks q) as [q _ IH]. intros Hinv.
  destruct (all_dead_or_live (runners q)) as [Hdead|(w & r & Hw & Hl)].
  - exists q. split; [constructor|]. split; auto. now apply dead_quiescent.
  - destruct Hinv as [H1 H2].
    assert (Hwait : runner_waits r).
    { rewrite Forall_forall in H1. apply H1. eapply nth_error_In; eauto. }
    destruct (@live_runner_steps tasks q w r Hw Hwait Hl) as [q1 Hq1].
    destruct (IH q1 Hq1) as (q' & Hr & Hq & Hi).
    + destruct Hq1 as (s & s' & n & Hstep). eapply qstep_runners; eauto. split; auto.
    + exists q'. split; auto.
      eapply qreach_trans; [|exact Hr]. eapply qreach_step; [constructor|exact Hq1].
Qed.

(** ** Bounded task runner: every task once *)

Lemma runner_count_ge_1 concurrency : (1 <= runner_count concurrency)%nat.
Proof. unfold runner_count. lia. Qed.

Lemma awaited_all_returned l : Forall (fun r => r = Returned) l -> awaited l = [].
Proof.
  induction 1 as [|r l Hr _ IH]; [reflexivity|]. subst. unfold awaited in *. simpl. exact IH.
Qed.

(** What holds in every state of an execution, whatever the ceiling. *)
Lemma running_queue_facts tasks concurrency q :
  running_queue tasks concurrency q ->
  NoDup (map snd (claimed q)) /\
  (forall w i, In (w, i) (claimed q) ->
               (w < runner_count concurrency)%nat /\ (i < List.length tasks)%nat) /\
  (List.length (in_flight q) <= runner_count concurrency)%nat /\
  (all_returned q ->
   map snd (claimed q) = seq 0 (List.length tasks) /\
   Permutation (resolved q) (seq 0 (List.length tasks))).
Proof.
  intros Hq. destruct (running_queue_inv Hq) as [I L].
  split; [eapply queue_inv_NoDup; eauto|]. split; [|split].
  - intros w i H. destruct I as [I1 _ _ I4]. split.
    + rewrite <- L. eauto.
    + assert (Hi : In i (map snd (claimed q))) by (apply (in_map snd) in H; exact H).
      rewrite I1 in Hi. apply in_seq in Hi. lia.
  - rewrite (Permutation_length (in_flight_awaited I)), <- L. apply awaited_length.
  - intros Hall. destruct I as [I1 I2 I3 _].
    assert (Hlen : (List.length tasks <= cursor q)%nat).
    { apply I3. pose proof (runner_count_ge_1 concurrency) as Hge. rewrite <- L in Hge.
      unfold all_returned in Hall. destruct (runners q) as [|r l]; simpl in Hge; [lia|].
      inversion Hall; subst. now left. }
    assert (Hs : map snd (claimed q) = seq 0 (List.length tasks)).
    { rewrite I1. f_equal. lia. }
    split; auto. rewrite <- Hs. rewrite (awaited_all_returned Hall), app_nil_r in I2.
    symmetry. exact I2.
Qed.

(** When no task can reject, an execution has ended only when every runner
    has returned, and it can always be brought to that end. *)
Lemma running_queue_completes tasks concurrency q :
  Forall (@never_throws unit) tasks ->
  running_queue tasks concurrency q ->
  (quiescent tasks q -> all_returned q) /\
  exists q', qreach tasks q q' /\ all_returned q'.
Proof.
  intros Hall Hq. pose proof (@running_queue_runners tasks concurrency q Hq) as Hinv. split.
  - now apply quiescent_returned.
  - destruct (@runs_to_quiescence tasks q Hinv) as (q' & Hr & Hquiet & Hinv').
    exists q'. split; auto. now apply (@quiescent_returned tasks q').
Qed.

(** *** A task that rejects *)

Lemma claims_of_app w l1 l2 :
  claims_of w (l1 ++ l2) = (claims_of w l1 ++ claims_of w l2)%list.
Proof. unfold claims_of. now rewrite filter_app, map_app. Qed.

Lemma claims_of_single (l : list nat) : claims_of 0 (map (pair 0%nat) l) = l.
Proof. induction l as [|i l IH]; [reflexivity|]. unfold claims_of in *. simpl. now rewrite IH. Qed.

(** A runner ended by a rejection stays so, and claims nothing more. *)
Lemma ended_step tasks q s q' s' n w r message :
  qstep tasks q s q' s' n ->
  nth_error (runners q) w = Some r -> ended_by message r ->
  (exists r', nth_error (runners q') w = Some r' /\ ended_by message r') /\
  claims_of w (claimed q') = claims_of w (claimed q).
Proof.
  intros Hstep Hw He.
  destruct Hstep as [w0 index p rep p' o s1 n1 Hw0 Hres Hrun | w0 index r0 q1 s1 n1 Hw0 Hc
                    | w0 index message0 Hw0]; cbn [runners claimed with_runners].
  - assert (Hne : w0 <> w).
    { intros ->. rewrite Hw in Hw0. injection Hw0 as ->. exact He. }
    rewrite nth_error_set_runner_other by exact Hne. split; [now exists r|reflexivity].
  - assert (Hne : w0 <> w).
    { intros ->. rewrite Hw in Hw0. injection Hw0 as ->. exact He. }
    pose proof (claim_spec _ _ _ _ Hc) as (Hrun & _ & Hcase).
    rewrite nth_error_set_runner_other by exact Hne. rewrite Hrun.
    split; [now exists r|].
    destruct Hcase as [(_ & _ & -> & _) | (t & o & _ & _ & _ & -> & _)]; [reflexivity|].
    rewrite claims_of_app. unfold claims_of at 2. cbn [filter fst].
    apply Nat.eqb_neq in Hne. rewrite Hne. cbn [map]. apply app_nil_r.
  - split; [|reflexivity].
    destruct (Nat.eq_dec w0 w) as [->|Hne].
    + rewrite Hw in Hw0. injection Hw0 as ->. cbn [ended_by] in He. subst message0.
      exists (Rejected message). split; [|reflexivity].
      apply nth_error_set_runner_same. apply nth_error_Some. congruence.
    + rewrite nth_error_set_runner_other by exact Hne. now exists r.
Qed.

Lemma ended_reach tasks q q' w r message :
  qreach tasks q q' ->
  nth_error (runners q) w = Some r -> ended_by message r ->
  (exists r', nth_error (runners q') w = Some r' /\ ended_by message r') /\
  claims_of w (claimed q') = claims_of w (claimed q) /\
  ~ all_returned q'.
Proof.
  intros Hreach Hw He.
  assert (H : (exists r', nth_error (runners q') w = Some r' /\ ended_by message r') /\
              claims_of w (claimed q') = claims_of w (claimed q)).
  { induction Hreach as [|q1 q2 _ IH (s & s' & n & Hstep)]; [split; [now exists r|reflexivity]|].
    destruct IH as [(r1 & Hr1 & He1) Hc1].
    destruct (@ended_step tasks q1 s q2 s' n w r1 message Hstep Hr1 He1) as [H1 H2].
    split; [exact H1|congruence]. }
  destruct H as [(r' & Hr' & He') Hc]. split; [now exists r'|]. split; [exact Hc|].
  intros Hall. unfold all_returned in Hall. rewrite Forall_forall in Hall.
  rewrite (Hall r' (nth_error_In _ _ Hr')) in He'. exact He'.
Qed.

(** The turn of a runner whose task has rejected. *)
Lemma rejection_turn tasks q s w index message :
  nth_error (runners q) w = Some (Settled index (Some message)) ->
  exists q',
    turn tasks q s w None = Some (q', s) /\
    nth_error (runners q') w = Some (Rejected message) /\
    joins q' (Some message) /\
    claimed q' = claimed q /\ cursor q' = cursor q.
Proof.
  intros Hw. exists (with_runners q (set_runner w (Rejected message) (runners q))).
  assert (Hr : nth_error (set_runner w (Rejected message) (runners q)) w
               = Some (Rejected message)).
  { apply nth_error_set_runner_same. apply nth_error_Some. congruence. }
  split; [unfold turn; rewrite Hw; reflexivity|]. split; [exact Hr|].
  split; [eapply joins_rejected; exact Hr|]. split; reflexivity.
Qed.

(** C2, as amended.  For every list of tasks and every positive ceiling, in
    every state of every execution of [runQueue]: no index has been claimed
    twice, every claim was made by one of the runners for an index of the
    list, and if all runners have returned, so that the promise of
    [runQueue] is fulfilled, then every index from 0 to length-1 has been
    claimed, in order, and every task has settled.  When no task rejects,
    [runQueue] does not stop before that: an execution with no turn left has
    all its runners returned, and, a task being a finite tree that settles
    after finitely many events, such a state can be reached from every
    state: every task is then run exactly once.  A task that rejects ends
    the runner that awaited it: at its next turn the runner rejects, which
    rejects the promise of [runQueue], and in every continuation it stays
    so, claims no further index, and the promise is not fulfilled. *)
Theorem runQueue_runs_each_task_once :
  forall (tasks : list (async unit)) (c : Z),
    (1 <= c)%Z ->
    (forall q, running_queue tasks c q ->
       NoDup (map snd (claimed q)) /\
       (forall w i, In (w, i) (claimed q) ->
                    (w < Z.to_nat c)%nat /\ (i < List.length tasks)%nat) /\
       (all_returned q ->
        map snd (claimed q) = seq 0 (List.length tasks) /\
        Permutation (resolved q) (seq 0 (List.length tasks)))) /\
    (Forall (@never_throws unit) tasks ->
     forall q, running_queue tasks c q ->
       (quiescent tasks q -> all_returned q) /\
       exists q', qreach tasks q q' /\ all_returned q') /\
    (forall q w r message,
       running_queue tasks c q ->
       nth_error (runners q) w = Some r -> ended_by message r ->
       (forall index s, r = Settled index (Some message) ->
          exists q',
            turn tasks q s w None = Some (q', s) /\
            nth_error (runners q') w = Some (Rejected message) /\
            joins q' (Some message) /\
            claimed q' = claimed q /\ cursor q' = cursor q) /\
       (forall q', qreach tasks q q' ->
          (exists r', nth_error (runners q') w = Some r' /\ ended_by message r') /\
          claims_of w (claimed q') = claims_of w (claimed q) /\
          ~ all_returned q')).
Proof.
  intros tasks c Hc. split; [|split].
  - intros q Hq. destruct (@running_queue_facts tasks c q Hq) as (H1 & H2 & _ & H4).
    rewrite runner_count_positive in H2 by assumption. auto.
  - intros Hall q Hq. now apply running_queue_completes with (concurrency := c).
  - intros q w r message _ Hw He. split.
    + intros index s ->. now apply rejection_turn with (index := index).
    + intros q' Hreach. exact (@ended_reach tasks q q' w r message Hreach Hw He).
Qed.

(** Without the condition on rejections the last part fails: with one
    runner, the rejection of the first task ends the runner; the execution
    has no turn left, [runQueue] has rejected, and the second task was never
    started. *)
Lemma runQueue_rejection_skips_tasks :
  exists q,
    running_queue tasks_first_rejects 1 q /\
    quiescent tasks_first_rejects q /\
    joins q (Some "boom") /\
    List.length tasks_first_rejects = 2%nat /\
    claimed q = [(0, 0)]%nat /\
    ~ In 1%nat (map snd (claimed q)).
Proof.
  exists (mkQueue 1 [Rejected "boom"] [(0, 0)]%nat [0%nat]).
  split; [|split; [|split; [|split; [|split]]]].
  - apply drive_running with (s0 := sample_store) (script := [(0%nat, None)])
                             (s' := sample_store). reflexivity.
  - apply dead_quiescent. simpl. repeat constructor.
  - apply joins_rejected with (w := 0%nat). reflexivity.
  - reflexivity.
  - reflexivity.
  - simpl. intros [H|[]]. discriminate.
Qed.

(** ** Bounded task runner: a ceiling below one *)

Lemma runner_count_nonpositive concurrency :
  (concurrency <= 0)%Z -> runner_count concurrency = 1%nat.
Proof. intros H. unfold runner_count. replace (Z.max 1 concurrency) with 1%Z by lia. reflexivity. Qed.

Lemma single_owner (l : list (nat * nat)) :
  (forall w i, In (w, i) l -> w = 0%nat) -> l = map (pair 0%nat) (map snd l).
Proof.
  induction l as [|[w i] l IH]; intros H; simpl; [reflexivity|].
  rewrite (H w i) by now left. f_equal. apply IH. intros w' i' Hin. apply (H w' i'). now right.
Qed.

(** With one runner, the runner is one index behind the cursor. *)
Lemma single_runner_cursor tasks c q :
  (c <= 0)%Z -> running_queue tasks c q ->
  List.length (runners q) = 1%nat /\
  forall r, nth_error (runners q) 0 = Some r ->
    match r with
    | Awaiting index _ | Settled index _ =>
        cursor q = S index /\ (index < List.length tasks)%nat
    | _ => True
    end.
Proof.
  intros Hc [s0 Hreach].
  assert (Hsettle : forall index o,
             match settle index o with
             | Awaiting i _ | Settled i _ => i = index
             | _ => True
             end).
  { intros index [a|m|p]; reflexivity. }
  induction Hreach as [|q q' _ IH (s & s' & n & Hstep)].
  - unfold runQueue. rewrite (runner_count_nonpositive Hc). cbn [launch runners List.length].
    destruct (claim tasks 0 (mkQueue 0 [] [] []) s0) as [[[r q1] s1] k] eqn:Hclaim.
    pose proof (claim_spec _ _ _ _ Hclaim) as (Hrun & Hcur & Hcase).
    cbn [runners cursor] in Hrun, Hcur, Hcase.
    cbn [launch fst with_runners runners cursor]. rewrite Hrun. cbn [app List.length].
    split; [reflexivity|]. intros r0 [= <-].
    destruct Hcase as [(_ & -> & _) | (t & o & Ht & _ & -> & _)]; [exact I|].
    assert (Hlt : (0 < List.length tasks)%nat) by (apply nth_error_Some; congruence).
    specialize (Hsettle 0%nat o).
    destruct (settle 0 o) as [i p|i rej| |m]; auto; subst i; rewrite Hcur; auto.
  - destruct IH as [Hlen IH].
    assert (Hzero : forall w x, nth_error (runners q) w = Some x -> w = 0%nat).
    { intros w x Hw. assert (w < List.length (runners q))%nat
        by (apply nth_error_Some; congruence). lia. }
    destruct Hstep as [w index p rep p' o s1 n1 Hw Hres Hrun | w index r0 q1 s1 n1 Hw Hclaim
                      | w index message Hw]; cbn [runners cursor with_runners].
    + pose proof (Hzero _ _ Hw) as ->. specialize (IH _ Hw). cbn in IH.
      rewrite set_runner_length. split; [exact Hlen|].
      rewrite nth_error_set_runner_same by lia. intros r [= <-].
      specialize (Hsettle index o).
      destruct (settle index o) as [i p0|i rej| |m]; auto; subst i; exact IH.
    + pose proof (Hzero _ _ Hw) as ->.
      pose proof (claim_spec _ _ _ _ Hclaim) as (Hrun & Hcur & Hcase).
      rewrite set_runner_length, Hrun. split; [exact Hlen|].
      rewrite nth_error_set_runner_same by lia. intros r [= <-].
      destruct Hcase as [(_ & -> & _) | (t & o & Ht & _ & -> & _)]; [exact I|].
      assert (Hlt : (cursor q < List.length tasks)%nat) by (apply nth_error_Some; congruence).
      specialize (Hsettle (cursor q) o).
      destruct (settle (cursor q) o) as [i p|i rej| |m]; auto; subst i; rewrite Hcur; auto.
    + pose proof (Hzero _ _ Hw) as ->.
      rewrite set_runner_length. split; [exact Hlen|].
      rewrite nth_error_set_runner_same by lia. intros r [= <-]. exact I.
Qed.

(** With one runner, the claims are those of runner 0, in order. *)
Lemma single_runner_claims tasks c q :
  (c <= 0)%Z -> running_queue tasks c q ->
  claimed q = map (pair 0%nat) (seq 0 (Nat.min (cursor q) (List.length tasks))).
Proof.
  intros Hc Hq. destruct (@running_queue_inv tasks c q Hq) as [I L].
  destruct (@running_queue_facts tasks c q Hq) as (_ & H2 & _ & _).
  rewrite (runner_count_nonpositive Hc) in *.
  assert (Hcl : claimed q = map (pair 0%nat) (map snd (claimed q))).
  { apply single_owner. intros w i H. destruct (H2 w i H). lia. }
  rewrite Hcl at 1. f_equal. apply I.
Qed.

(** With one runner, no task after a rejecting one is ever started. *)
Lemma single_runner_rejection tasks c q index message :
  (c <= 0)%Z -> running_queue tasks c q ->
  nth_error (runners q) 0 = Some (Settled index (Some message)) ->
  forall q', qreach tasks q q' ->
    claimed q' = map (pair 0%nat) (seq 0 (S index)) /\
    (forall i, (index < i)%nat -> ~ In i (map snd (claimed q'))) /\
    (exists r', nth_error (runners q') 0 = Some r' /\ ended_by message r') /\
    ~ all_returned q'.
Proof.
  intros Hc Hq Hw q' Hreach.
  assert (Hq' : running_queue tasks c q').
  { destruct Hq as [s0 H0]. exists s0. eapply qreach_trans; eauto. }
  destruct (single_runner_cursor Hc Hq) as [_ Hcur]. specialize (Hcur _ Hw).
  destruct Hcur as [Hcur Hlt].
  pose proof (single_runner_claims Hc Hq) as Hcl.
  pose proof (single_runner_claims Hc Hq') as Hcl'.
  destruct (@ended_reach tasks q q' 0%nat _ message Hreach Hw eq_refl) as (He & Hsame & Hnot).
  rewrite Hcl, Hcl', !claims_of_single in Hsame.
  rewrite Hcur in Hsame. replace (Nat.min (S index) (List.length tasks)) with (S index) in Hsame
    by lia.
  assert (Hres : claimed q' = map (pair 0%nat) (seq 0 (S index))) by (rewrite Hcl'; congruence).
  split; [exact Hres|]. split; [|split; assumption].
  intros i Hi Hin. rewrite Hres, map_map in Hin. cbn [snd] in Hin. rewrite map_id in Hin.
  apply in_seq in Hin. lia.
Qed.

(** C10, as amended.  With a ceiling of 0 or less, [runQueue] still
    launches one runner, the maximum of 1 and the ceiling.  In every state
    of every execution that single runner has claimed the indices below the
    cursor in order, at most one task is in flight, and if the runner has
    returned, every task of the list has been run once and has settled.
    When no task rejects, an execution with no turn left has its runner
    returned, and, a task being a finite tree that settles after finitely
    many events, such a state can be reached from every state: the tasks
    are then run one after the other, all of them.  A task that rejects
    ends the single runner: at its next turn the runner rejects, which
    rejects the promise of [runQueue]; in every continuation the tasks
    started are those up to the rejecting one, no task after it is ever
    started, and the promise is not fulfilled. *)
Theorem runQueue_nonpositive_ceiling :
  forall (tasks : list (async unit)) (c : Z),
    (c <= 0)%Z ->
    runner_count c = 1%nat /\
    (forall q, running_queue tasks c q ->
       List.length (runners q) = 1%nat /\
       (List.length (in_flight q) <= 1)%nat /\
       claimed q = map (pair 0%nat) (seq 0 (Nat.min (cursor q) (List.length tasks))) /\
       (all_returned q ->
        claimed q = map (pair 0%nat) (seq 0 (List.length tasks)) /\
        Permutation (resolved q) (seq 0 (List.length tasks)))) /\
    (Forall (@never_throws unit) tasks ->
     forall q, running_queue tasks c q ->
       (quiescent tasks q -> all_returned q) /\
       exists q', qreach tasks q q' /\ all_returned q') /\
    (forall q index message,
       running_queue tasks c q ->
       nth_error (runners q) 0 = Some (Settled index (Some message)) ->
       (forall s, exists q',
           turn tasks q s 0 None = Some (q', s) /\
           nth_error (runners q') 0 = Some (Rejected message) /\
           joins q' (Some message) /\
           claimed q' = claimed q /\ cursor q' = cursor q) /\
       (forall q', qreach tasks q q' ->
          claimed q' = map (pair 0%nat) (seq 0 (S index)) /\
          (forall i, (index < i)%nat -> ~ In i (map snd (claimed q'))) /\
          (exists r', nth_error (runners q') 0 = Some r' /\ ended_by message r') /\
          ~ all_returned q')).
Proof.
  intros tasks c Hc. pose proof (runner_count_nonpositive Hc) as Hone.
  split; [exact Hone|]. split; [|split].
  - intros q Hq. destruct (@running_queue_inv tasks c q Hq) as [I L].
    destruct (@running_queue_facts tasks c q Hq) as (_ & H2 & H3 & H4).
    rewrite Hone in *.
    assert (Hcl : claimed q = map (pair 0%nat) (map snd (claimed q))).
    { apply single_owner. intros w i H. destruct (H2 w i H). lia. }
    split; [exact L|]. split; [exact H3|]. split.
    + rewrite Hcl at 1. f_equal. apply I.
    + intros Hall. destruct (H4 Hall) as [H5 H6]. split; auto.
      rewrite Hcl at 1. f_equal. exact H5.
  - intros Hall q Hq. now apply running_queue_completes with (concurrency := c).
  - intros q index message Hq Hw. split.
    + intros s. now apply rejection_turn with (index := index).
    + intros q' Hreach. exact (@single_runner_rejection tasks c q index message Hc Hq Hw q' Hreach).
Qed.

(** Without the condition on rejections the last part fails: with ceiling
    0, the rejection of the first task ends the only runner, and the second
    task is never run. *)
Lemma runQueue_zero_ceiling_rejection_skips_tasks :
  exists q,
    running_queue tasks_first_rejects 0 q /\
    quiescent tasks_first_rejects q /\
    joins q (Some "boom") /\
    List.length tasks_first_rejects = 2%nat /\
    claimed q = [(0, 0)]%nat /\
    ~ In 1%nat (map snd (claimed q)).
Proof.
  exists (mkQueue 1 [Rejected "boom"] [(0, 0)]%nat [0%nat]).
  split; [|split; [|split; [|split; [|split]]]].
  - apply drive_running with (s0 := sample_store) (script := [(0%nat, None)])
                             (s' := sample_store). reflexivity.
  - apply dead_quiescent. simpl. repeat constructor.
  - apply joins_rejected with (w := 0%nat). reflexivity.
  - reflexivity.
  - reflexivity.
  - simpl. intros [H|[]]. discriminate.
Qed.

(** With a ceiling of 0 and tasks that do not reject, the tasks run one
    after the other. *)
Example runQueue_zero_ceiling_sequential :
  observe (drive [Ret tt; Ret tt; Ret tt] [(0, None); (0, None); (0, None)]%nat
             (fst (runQueue [Ret tt; Ret tt; Ret tt] 0 sample_store))
             (snd (runQueue [Ret tt; Ret tt; Ret tt] 0 sample_store)))
  = Some ([], [(0, 0); (0, 1); (0, 2)]%nat, [], []).
Proof. reflexivity. Qed.

(** With one runner and three tasks, the second of which rejects: the
    first two tasks are started, the runner rejects, and the third task is
    never started. *)
Example runQueue_second_rejects :
  observe (drive tasks_second_rejects [(0, None); (0, None)]%nat
             (fst (runQueue tasks_second_rejects 0 sample_store))
             (snd (runQueue tasks_second_rejects 0 sample_store)))
  = Some ([], [(0, 0); (0, 1)]%nat, [], []) /\
  drive tasks_second_rejects [(0, None); (0, None); (0, None)]%nat
    (fst (runQueue tasks_second_rejects 0 sample_store))
    (snd (runQueue tasks_second_rejects 0 sample_store)) = None.
Proof. split; reflexivity. Qed.

(** ** Epoch supersession: what a stale continuation does *)

Lemma quiet_unchanged (A : Type) (p : async A) : forall s,
  quiet_at p s -> snd (fst (run_sync p s)) = s.
Proof.
  unfold quiet_at.
  induction p as [a|message|k IH|f k IH|req k IH|k IH|ms k IH|k IH]; simpl; intros s H; auto.
  destruct (run_sync k (f s)) as [[o s1] n1]. discriminate.
Qed.

Lemma bind_quiet_at (A B : Type) (m : async A) (f : A -> async B) : forall s,
  quiet_at m s -> (forall a, quiet_at (f a) s) -> quiet_at (bind m f) s.
Proof.
  unfold quiet_at.
  induction m as [a|message|k IH|g k IH|req k IH|k IH|ms k IH|k IH]; simpl; intros s H Hf; auto.
  destruct (run_sync k (g s)) as [[o s1] n1]. discriminate.
Qed.

Lemma try_catch_quiet_at (A : Type) (m : async A) (h : string -> async A) : forall s,
  quiet_at m s -> (forall e, quiet_at (h e) s) -> quiet_at (try_catch m h) s.
Proof.
  unfold quiet_at.
  induction m as [a|message|k IH|g k IH|req k IH|k IH|ms k IH|k IH]; simpl; intros s H Hf; auto.
  destruct (run_sync k (g s)) as [[o s1] n1]. discriminate.
Qed.

Lemma guarded_bind (A B : Type) (runId : Z) (m : async A) (f : A -> async B) :
  guarded runId m -> (forall a, epoch_safe runId (f a)) -> guarded runId (bind m f).
Proof.
  intros Hm Hf.
  induction m as [a|message|k IH|g k IH|req k IH|k IH|ms k IH|k IH]; simpl in *; auto.
  - apply Hf.
  - intros r. destruct (Hm r) as [Hq Hg]. split; auto.
    intros s Hs. apply bind_quiet_at; auto. intros a. now apply Hf.
  - intros d. destruct (Hm d) as [Hq Hg]. split; auto.
    intros s Hs. apply bind_quiet_at; auto. intros a. now apply Hf.
  - destruct Hm as [Hq Hg]. split; auto.
    intros s Hs. apply bind_quiet_at; auto. intros a. now apply Hf.
  - destruct Hm as [Hq Hg]. split; auto.
    intros s Hs. apply bind_quiet_at; auto. intros a. now apply Hf.
Qed.

Lemma guarded_try_catch (A : Type) (runId : Z) (m : async A) (h : string -> async A) :
  guarded runId m -> (forall e, epoch_safe runId (h e)) -> guarded runId (try_catch m h).
Proof.
  intros Hm Hf.
  induction m as [a|message|k IH|g k IH|req k IH|k IH|ms k IH|k IH]; simpl in *; auto.
  - apply Hf.
  - intros r. destruct (Hm r) as [Hq Hg]. split; auto.
    intros s Hs. apply try_catch_quiet_at; auto. intros e. now apply Hf.
  - intros d. destruct (Hm d) as [Hq Hg]. split; auto.
    intros s Hs. apply try_catch_quiet_at; auto. intros e. now apply Hf.
  - destruct Hm as [Hq Hg]. split; auto.
    intros s Hs. apply try_catch_quiet_at; auto. intros e. now apply Hf.
  - destruct Hm as [Hq Hg]. split; auto.
    intros s Hs. apply try_catch_quiet_at; auto. intros e. now apply Hf.
Qed.

Lemma epoch_safe_bind (A B : Type) (runId : Z) (m : async A) (f : A -> async B) :
  epoch_safe runId m -> (forall a, epoch_safe runId (f a)) -> epoch_safe runId (bind m f).
Proof.
  intros [Hq Hg] Hf. split.
  - intros s Hs. apply bind_quiet_at; auto. intros a. now apply Hf.
  - now apply guarded_bind.
Qed.

Lemma epoch_safe_try_catch (A : Type) (runId : Z) (m : async A) (h : string -> async A) :
  epoch_safe runId m -> (forall e, epoch_safe runId (h e)) ->
  epoch_safe runId (try_catch m h).
Proof.
  intros [Hq Hg] Hf. split.
  - intros s Hs. apply try_catch_quiet_at; auto. intros e. now apply Hf.
  - now apply guarded_try_catch.
Qed.

Lemma epoch_safe_Ret (A : Type) (runId : Z) (a : A) : epoch_safe runId (Ret a).
Proof. split; simpl; auto. intros s _. reflexivity. Qed.

Lemma epoch_safe_Throw (A : Type) (runId : Z) (e : string) : epoch_safe runId (@Throw A e).
Proof. split; simpl; auto. intros s _. reflexivity. Qed.

Lemma epoch_safe_AwaitCall (A : Type) (runId : Z) (k : async A) :
  epoch_safe runId k -> epoch_safe runId (AwaitCall k).
Proof. intros [Hq Hg]. split; simpl; auto. intros s _. reflexivity. Qed.

Lemma epoch_safe_await_call (A : Type) (runId : Z) (m : async A) :
  epoch_safe runId m -> epoch_safe runId (await_call m).
Proof.
  intros H. unfold await_call. apply epoch_safe_try_catch.
  - apply epoch_safe_bind; auto. intros a. apply epoch_safe_AwaitCall, epoch_safe_Ret.
  - intros e. apply epoch_safe_AwaitCall, epoch_safe_Throw.
Qed.

Lemma putless_quiet (A : Type) (p : async A) : putless p -> forall s, quiet_at p s.
Proof.
  unfold quiet_at.
  induction p as [a|message|k IH|f k IH|req k IH|k IH|ms k IH|k IH]; simpl; intros H s; auto.
  contradiction.
Qed.

Lemma putless_epoch_safe (A : Type) (runId : Z) (p : async A) :
  putless p -> epoch_safe runId p.
Proof.
  intros H. split; [intros s _; now apply putless_quiet|].
  induction p as [a|message|k IH|f k IH|req k IH|k IH|ms k IH|k IH]; simpl in *; auto.
  - contradiction.
  - intros r. split; auto. intros s _. now apply putless_quiet.
  - intros d. split; auto. intros s _. now apply putless_quiet.
  - split; auto. intros s _. now apply putless_quiet.
  - split; auto. intros s _. now apply putless_quiet.
Qed.

Lemma putless_keeps_epoch (A : Type) (p : async A) : putless p -> keeps_epoch p.
Proof.
  induction p as [a|message|k IH|f k IH|req k IH|k IH|ms k IH|k IH]; simpl; auto.
  contradiction.
Qed.

Lemma keeps_epoch_bind (A B : Type) (m : async A) (f : A -> async B) :
  keeps_epoch m -> (forall a, keeps_epoch (f a)) -> keeps_epoch (bind m f).
Proof.
  intros Hm Hf.
  induction m as [a|message|k IH|g k IH|req k IH|k IH|ms k IH|k IH]; simpl in *; auto.
  destruct Hm. auto.
Qed.

Lemma keeps_epoch_try_catch (A : Type) (m : async A) (h : string -> async A) :
  keeps_epoch m -> (forall e, keeps_epoch (h e)) -> keeps_epoch (try_catch m h).
Proof.
  intros Hm Hf.
  induction m as [a|message|k IH|g k IH|req k IH|k IH|ms k IH|k IH]; simpl in *; auto.
  destruct Hm. auto.
Qed.

Lemma keeps_epoch_await_call (A : Type) (m : async A) :
  keeps_epoch m -> keeps_epoch (await_call m).
Proof.
  intros H. unfold await_call. apply keeps_epoch_try_catch; simpl; auto.
  apply keeps_epoch_bind; simpl; auto.
Qed.

(** A [try] block whose handler does not throw lets no error escape. *)
Lemma never_throws_try_catch (A : Type) (m : async A) (h : string -> async A) :
  (forall e, never_throws (h e)) -> never_throws (try_catch m h).
Proof.
  intros Hf. induction m as [a|message|k IH|g k IH|req k IH|k IH|ms k IH|k IH]; simpl; auto.
Qed.

Lemma keeps_epoch_run_sync (A : Type) (p : async A) : forall s,
  keeps_epoch p ->
  runIdRef (snd (fst (run_sync p s))) = runIdRef s /\
  match fst (fst (run_sync p s)) with
  | Suspended p' => keeps_epoch p'
  | _ => True
  end.
Proof.
  induction p as [a|message|k IH|f k IH|req k IH|k IH|ms k IH|k IH]; simpl; intros s H; auto.
  destruct H as [Hf Hk]. specialize (IH (f s) Hk).
  destruct (run_sync k (f s)) as [[o s1] n1]. simpl in *.
  destruct IH as [E1 E2]. split; [rewrite E1; apply Hf | exact E2].
Qed.

Lemma guarded_run_sync (A : Type) (runId : Z) (p : async A) : forall s,
  guarded runId p ->
  match fst (fst (run_sync p s)) with
  | Suspended p' => guarded runId p'
  | _ => True
  end.
Proof.
  induction p as [a|message|k IH|f k IH|req k IH|k IH|ms k IH|k IH]; simpl; intros s H; auto.
  - apply IH. apply H.
  - specialize (IH (f s) H). destruct (run_sync k (f s)) as [[o s1] n1]. exact IH.
Qed.

Lemma guarded_resume (A : Type) (runId : Z) (p : async A) r p' :
  guarded runId p -> resume p r = Some p' -> quiet_under runId p' /\ guarded runId p'.
Proof.
  destruct p, r; simpl; intros Hp H; try discriminate; injection H as <-; auto.
Qed.

Lemma keeps_epoch_resume (A : Type) (p : async A) r p' :
  keeps_epoch p -> resume p r = Some p' -> keeps_epoch p'.
Proof.
  destruct p, r; simpl; intros Hp H; try discriminate; injection H as <-; auto.
Qed.

(** ** Epoch supersession: the tasks of a run *)

Lemma submitAngle_putless h anglePrompt payload : putless (submitAngle h anglePrompt payload).
Proof.
  unfold submitAngle. destruct (String.eqb payload ""); simpl; auto.
  intros [message|ok]; simpl; auto. intros body.
  destruct ok; simpl; auto.
  destruct (extractImageList (parsed body)); simpl; auto.
  destruct (truthy (extractJobId (parsed body))); simpl; auto.
Qed.

Lemma poll_loop_putless jobId runId : forall remaining i,
  putless (poll_loop jobId runId remaining i).
Proof.
  induction remaining as [|remaining IH]; intros i; simpl; auto.
  intros s. destruct (superseded runId s); simpl; auto.
  intros [message|ok]; simpl; auto. intros body.
  destruct ok; simpl; auto.
  destruct (failure_marked (parsed body)); simpl; auto.
  destruct (extractImageList (parsed body)); simpl; auto.
Qed.

Lemma pollJob_putless jobId runId : putless (pollJob jobId runId).
Proof. apply poll_loop_putless. Qed.

(** The preset lists are not empty, so the prompt is always built. *)
Lemma buildAnglePrompt_defined a e d extraPrompt :
  exists anglePrompt, buildAnglePrompt a e d extraPrompt = Some anglePrompt.
Proof.
  unfold buildAnglePrompt.
  rewrite ANGLE_PRESETS_eq, ELEVATION_PRESETS_eq, DISTANCE_PRESETS_eq.
  cbn [snapToNearest]. eexists. reflexivity.
Qed.

Lemma superseded_true runId s : runIdRef s <> runId -> superseded runId s = true.
Proof.
  intros H. unfold superseded. apply negb_true_iff. now apply Z.eqb_neq.
Qed.

(** A block that starts with the epoch check and suspends nowhere. *)
Lemma epoch_safe_checked (runId : Z) (body : store -> async unit) :
  (forall s, guarded runId (body s)) ->
  epoch_safe runId (Get (fun s => if superseded runId s then Ret tt else body s)).
Proof.
  intros Hb. split.
  - intros s Hs. unfold quiet_at. simpl. rewrite superseded_true by assumption. reflexivity.
  - simpl. intros s. destruct (superseded runId s); simpl; auto.
Qed.

Lemma applyImageAt_guarded runId h index img : guarded runId (applyImageAt h index img).
Proof. simpl. auto. Qed.

Lemma applyImageAt_keeps_epoch h index img : keeps_epoch (applyImageAt h index img).
Proof. simpl. auto. Qed.

Lemma applyImageAt_never_throws h index img : never_throws (applyImageAt h index img).
Proof. simpl. auto. Qed.

(** Every task built by [startBatch] checks the epoch when it starts and
    after each of its suspensions, never changes the epoch, and catches
    every error. *)
Lemma task_is_ok h runId payload view index :
  task_ok runId (task h runId payload view index).
Proof.
  destruct (buildAnglePrompt_defined (View.azimuth view) (View.elevation view)
              (View.distance view) (Hooks.prompt h)) as [anglePrompt Hprompt].
  unfold task_ok, task. rewrite Hprompt. split; [|split].
  - apply epoch_safe_checked. intros s. cbn [bind update guarded].
    apply guarded_try_catch.
    + apply guarded_bind.
      * apply epoch_safe_await_call, putless_epoch_safe, submitAngle_putless.
      * intros submitted. apply epoch_safe_checked. intros s'.
        destruct submitted as [[|img images]|jobId].
        -- simpl. auto.
        -- apply applyImageAt_guarded.
        -- apply guarded_bind.
           ++ apply epoch_safe_await_call, putless_epoch_safe, pollJob_putless.
           ++ intros polled. apply epoch_safe_checked. intros s''.
              destruct (poll_status_of polled), (poll_images polled);
                try apply applyImageAt_guarded; simpl; auto.
    + intros message. apply epoch_safe_checked. intros s'. simpl. auto.
  - cbn [keeps_epoch]. intros s. destruct (superseded runId s); cbn [keeps_epoch bind update]; auto.
    split; [reflexivity|].
    apply keeps_epoch_try_catch.
    + apply keeps_epoch_bind.
      * apply keeps_epoch_await_call, putless_keeps_epoch, submitAngle_putless.
      * intros submitted. cbn [keeps_epoch]. intros s'.
        destruct (superseded runId s'); [simpl; auto|].
        destruct submitted as [[|img images]|jobId];
          [simpl; auto | apply applyImageAt_keeps_epoch |].
        apply keeps_epoch_bind.
        -- apply keeps_epoch_await_call, putless_keeps_epoch, pollJob_putless.
        -- intros polled. cbn [keeps_epoch]. intros s''.
           destruct (superseded runId s''); [simpl; auto|].
           destruct (poll_status_of polled), (poll_images polled);
             try apply applyImageAt_keeps_epoch; simpl; auto.
    + intros message. cbn [keeps_epoch]. intros s'.
      destruct (superseded runId s'); simpl; auto.
  - cbn [never_throws]. intros s. destruct (superseded runId s); cbn [never_throws bind update]; auto.
    apply never_throws_try_catch. intros message. cbn [never_throws]. intros s'.
    destruct (superseded runId s'); simpl; auto.
Qed.

Lemma startBatch_tasks_ok h runId payload :
  Forall (task_ok runId)
    (mapi (fun view index => task h runId payload view index) (buildViews h)).
Proof.
  unfold mapi. apply Forall_mapi_from. intros view index. apply task_is_ok.
Qed.

(** ** Epoch supersession: the runners of a run *)

Lemma stale_run_quiet (A : Type) (runId : Z) (p : async A) s o s' n :
  quiet_under runId p -> runIdRef s <> runId -> run_sync p s = (o, s', n) ->
  n = 0%nat /\ s' = s.
Proof.
  intros Hq Hs Hrun. specialize (Hq s Hs). pose proof (quiet_unchanged Hq) as Hu.
  unfold quiet_at in Hq. rewrite Hrun in Hq, Hu. simpl in *. auto.
Qed.

Lemma settle_runner_ok runId index (p : async unit) s o s' n :
  guarded runId p -> keeps_epoch p -> never_throws p ->
  run_sync p s = (o, s', n) ->
  runner_ok runId (settle index o) /\ runIdRef s' = runIdRef s.
Proof.
  intros Hg Hk Ht Hrun.
  pose proof (guarded_run_sync _ _ s Hg) as H1.
  pose proof (keeps_epoch_run_sync _ s Hk) as [H2 H3].
  pose proof (never_throws_run_sync _ _ Ht Hrun) as H4.
  rewrite Hrun in *. simpl in *. split; auto.
  destruct o; simpl; auto.
Qed.

Lemma claim_ok runId tasks w q s r q1 s1 n :
  Forall (task_ok runId) tasks ->
  claim tasks w q s = (r, q1, s1, n) ->
  runner_ok runId r /\ runIdRef s1 = runIdRef s /\
  (runIdRef s <> runId -> n = 0%nat /\ s1 = s).
Proof.
  intros Hall Hc. apply claim_spec in Hc.
  destruct Hc as (_ & _ & [(_ & -> & _ & _ & -> & ->) | (t & o & Ht & Hrun & -> & _)]).
  - simpl. auto.
  - rewrite Forall_forall in Hall.
    destruct (Hall t (nth_error_In _ _ Ht)) as ([Hq Hg] & Hk & Hn).
    destruct (@settle_runner_ok runId (cursor q) _ _ _ _ _ Hg Hk Hn Hrun) as [H1 H2].
    split; auto. split; auto. intros Hs. eapply stale_run_quiet; eauto.
Qed.

Lemma launch_ok runId tasks : forall n q s,
  Forall (task_ok runId) tasks ->
  Forall (runner_ok runId) (runners q) ->
  Forall (runner_ok runId) (runners (fst (launch tasks n q s))) /\
  runIdRef (snd (launch tasks n q s)) = runIdRef s.
Proof.
  induction n as [|n IH]; intros q s Hall Hq; simpl; auto.
  destruct (claim tasks (List.length (runners q)) q s) as [[[r q1] s1] k] eqn:Hc.
  pose proof (claim_spec _ _ _ _ Hc) as (Hrun & _).
  destruct (@claim_ok runId tasks _ _ _ _ _ _ _ Hall Hc) as (Hr & He & _).
  destruct (IH (with_runners q1 (runners q1 ++ [r])) s1 Hall) as [H1 H2].
  - simpl. rewrite Hrun. apply Forall_app. split; auto.
  - split; auto. congruence.
Qed.

Lemma qstep_ok runId tasks q s q' s' n :
  Forall (task_ok runId) tasks ->
  Forall (runner_ok runId) (runners q) ->
  qstep tasks q s q' s' n ->
  Forall (runner_ok runId) (runners q') /\ runIdRef s' = runIdRef s /\
  (runIdRef s <> runId -> n = 0%nat /\ s' = s).
Proof.
  intros Hall Hq [w index p r p' o s1 n1 Hw Hres Hrun | w index r q1 s1 n1 Hw Hc
                 | w index message Hw].
  - assert (Hp : runner_ok runId (Awaiting index p)).
    { rewrite Forall_forall in Hq. apply Hq. eapply nth_error_In; eauto. }
    destruct Hp as (Hg & Hk & Hn).
    destruct (guarded_resume _ _ _ Hg Hres) as [Hq' Hg'].
    pose proof (keeps_epoch_resume _ _ Hk Hres) as Hk'.
    pose proof (never_throws_resume _ _ Hn Hres) as Hn'.
    destruct (@settle_runner_ok runId index _ _ _ _ _ Hg' Hk' Hn' Hrun) as [H1 H2].
    split; [simpl; apply Forall_set_runner; auto|]. split; auto.
    intros Hs. eapply stale_run_quiet; eauto.
  - pose proof (claim_spec _ _ _ _ Hc) as (Hrun & _).
    destruct (@claim_ok runId tasks _ _ _ _ _ _ _ Hall Hc) as (Hr & He & Hs).
    split; [simpl; rewrite Hrun; apply Forall_set_runner; auto|]. auto.
  - exfalso. rewrite Forall_forall in Hq.
    apply (Hq (Settled index (Some message))). eapply nth_error_In; eauto.
Qed.

(** [Promise.all] of runners whose tasks do not reject only fulfils. *)
Lemma joins_ok runId q rejection :
  Forall (runner_ok runId) (runners q) -> joins q rejection -> rejection = None.
Proof.
  intros Hq [Hall | w message Hw]; auto.
  exfalso. rewrite Forall_forall in Hq.
  apply (Hq (Rejected message)). eapply nth_error_In; eauto.
Qed.

Lemma startBatch_finish_fulfilled runId s o s' n :
  run_sync (startBatch_finish runId None) s = (o, s', n) ->
  runIdRef s' = runIdRef s /\ (runIdRef s <> runId -> n = 0%nat /\ s' = s).
Proof.
  unfold startBatch_finish. cbn [bind run_sync].
  destruct (runIdRef s =? runId)%Z eqn:E; cbn [bind update run_sync].
  - change (runIdRef (setStatusMessage "Completed." s)) with (runIdRef s). rewrite E.
    cbn [update run_sync]. intros [= <- <- <-]. split; [reflexivity|].
    intros H. apply Z.eqb_eq in E. contradiction.
  - rewrite E. cbn [run_sync]. intros [= <- <- <-]. auto.
Qed.

Lemma startBatch_begin_run h makeId payload s runId tasks s1 n1 :
  run_sync (startBatch_begin h makeId payload) s = (Finished (Some (runId, tasks)), s1, n1) ->
  runId = (runIdRef s + 1)%Z /\
  tasks = mapi (fun view index => task h runId payload view index) (buildViews h) /\
  runIdRef s1 = runId.
Proof.
  unfold startBatch_begin. destruct (String.eqb payload ""); [discriminate|].
  cbn [run_sync bind update]. intros [= <- <- <- _]. auto.
Qed.

(** ** Epoch supersession: the whole pipeline *)

Lemma Forall_set_run (P : run -> Prop) k r : forall l,
  Forall P l -> P r -> Forall P (set_run k r l).
Proof.
  induction k as [|k IH]; intros [|x l] Hl Hr; simpl; auto;
    inversion Hl; subst; constructor; auto.
Qed.

Lemma map_run_id_set_run k r r0 : forall l,
  nth_error l k = Some r0 -> run_id r = run_id r0 ->
  map run_id (set_run k r l) = map run_id l.
Proof.
  induction k as [|k IH]; intros [|x l] H E; simpl in *; try discriminate.
  - injection H as ->. now rewrite E.
  - f_equal. now apply IH.
Qed.

Lemma epochs_increase_ids current : forall l l',
  map run_id l = map run_id l' -> epochs_increase current l -> epochs_increase current l'.
Proof.
  induction l as [|r l IH]; intros [|r' l'] E H; simpl in E; try discriminate; auto.
  injection E as E1 E2. simpl in *.
  destruct l as [|x l], l' as [|x' l']; simpl in E2; try discriminate.
  - congruence.
  - injection E2 as E2 E3. destruct H as [H1 H2]. split; [congruence|].
    apply IH; auto. simpl. congruence.
Qed.

Lemma epochs_increase_start current r : forall l,
  epochs_increase current l -> run_id r = (current + 1)%Z ->
  epochs_increase (current + 1) (l ++ [r]).
Proof.
  induction l as [|x l IH]; intros H E.
  - simpl. lia.
  - destruct l as [|y l].
    + simpl in *. split; lia.
    + destruct H as [H1 H2]. specialize (IH H2 E).
      change (run_id x < run_id y /\ epochs_increase (current + 1) ((y :: l) ++ [r]))%Z.
      split; assumption.
Qed.

Lemma epochs_bound current : forall l k r,
  epochs_increase current l -> nth_error l k = Some r ->
  (run_id r <= current)%Z /\ ((S k < List.length l)%nat -> (run_id r < current)%Z).
Proof.
  induction l as [|x l IH]; intros k r H Hk; [destruct k; discriminate|].
  simpl in H. destruct l as [|y l].
  - destruct k as [|k]; simpl in Hk; [|destruct k; discriminate].
    injection Hk as ->. split; auto. simpl. lia.
  - destruct H as [H1 H2]. destruct k as [|k]; simpl in Hk.
    + injection Hk as ->. destruct (IH 0%nat y H2 eq_refl) as [H3 _]. split; intros; lia.
    + destruct (IH k r H2 Hk) as [H3 H4]. split; auto. intros Hlen. apply H4.
      simpl in *. lia.
Qed.

(** What a turn of a run does to the state, in a system that satisfies the
    invariant. *)
Lemma sys_step_ok sys a sys' n :
  sys_inv sys -> sys_step sys a sys' n ->
  sys_inv sys' /\
  match a with
  | Handler => runIdRef (sys_store sys') = (runIdRef (sys_store sys) + 1)%Z
  | OfRun k =>
      runIdRef (sys_store sys') = runIdRef (sys_store sys) /\
      forall r, nth_error (sys_runs sys) k = Some r ->
                run_id r <> runIdRef (sys_store sys) ->
                n = 0%nat /\ sys_store sys' = sys_store sys
  end.
Proof.
  intros [Hruns Hep] Hstep.
  destruct Hstep as [h makeId payload runId tasks s1 n1 q s2 Hbegin Hlaunch
                    | k r q' s' n Hk Hq
                    | k r rejection o s' n Hk Hj Hjoin Hfin].
  - destruct (@startBatch_begin_run _ _ _ _ _ _ _ _ Hbegin) as (-> & -> & Hs1).
    pose proof (startBatch_tasks_ok h (runIdRef (sys_store sys) + 1) payload) as Htasks.
    unfold runQueue in Hlaunch.
    destruct (@launch_ok (runIdRef (sys_store sys) + 1) _ (runner_count MAX_PARALLEL)
                (mkQueue 0 [] [] []) s1 Htasks (Forall_nil _)) as [H1 H2].
    rewrite Hlaunch in H1, H2. simpl in H1, H2.
    assert (Hs2 : runIdRef s2 = (runIdRef (sys_store sys) + 1)%Z) by congruence.
    split; [|exact Hs2]. split; simpl.
    + apply Forall_app. split; auto. constructor; [|constructor]. split; simpl; auto.
    + rewrite Hs2. apply epochs_increase_start; auto.
  - assert (Hr : run_ok r).
    { rewrite Forall_forall in Hruns. apply Hruns. eapply nth_error_In; eauto. }
    destruct Hr as [Ht Hrn].
    destruct (@qstep_ok _ _ _ _ _ _ _ Ht Hrn Hq) as (H1 & H2 & H3).
    split; [|split; auto].
    + split; simpl.
      * apply Forall_set_run; auto. split; simpl; auto.
      * rewrite H2. eapply epochs_increase_ids; [|exact Hep].
        symmetry. eapply map_run_id_set_run; eauto.
    + intros r0 Hr0 Hne. rewrite Hk in Hr0. injection Hr0 as <-. simpl. apply H3. congruence.
  - assert (Hr : run_ok r).
    { rewrite Forall_forall in Hruns. apply Hruns. eapply nth_error_In; eauto. }
    destruct Hr as [Ht Hrn].
    pose proof (@joins_ok _ _ _ Hrn Hjoin) as ->.
    destruct (@startBatch_finish_fulfilled _ _ _ _ _ Hfin) as [H2 H3].
    split; [|split; auto].
    + split; simpl.
      * apply Forall_set_run; auto. split; simpl; auto.
      * rewrite H2. eapply epochs_increase_ids; [|exact Hep].
        symmetry. eapply map_run_id_set_run; eauto.
    + intros r0 Hr0 Hne. rewrite Hk in Hr0. injection Hr0 as <-. simpl. apply H3. congruence.
Qed.

Lemma sys_reach_inv s0 sys : sys_reach s0 sys -> sys_inv sys.
Proof.
  induction 1 as [|sys a sys' n _ IH Hstep].
  - split; simpl; auto.
  - now destruct (@sys_step_ok _ _ _ _ IH Hstep).
Qed.

Lemma started_step h makeId payload sys :
  payload <> "" -> sys_step sys Handler (started h makeId payload sys) 5%nat.
Proof.
  intros Hp. unfold started.
  eapply sys_start with (h := h) (makeId := makeId) (payload := payload).
  - unfold startBatch_begin. destruct (String.eqb_spec payload ""); [contradiction|].
    cbn [run_sync bind update]. reflexivity.
  - apply surjective_pairing.
Qed.

Lemma sys_turn_sound sys k w rep sys' :
  sys_turn_of sys k w rep = Some sys' -> exists n, sys_step sys (OfRun k) sys' n.
Proof.
  unfold sys_turn_of. destruct (nth_error (sys_runs sys) k) as [r|] eqn:Hk; [|discriminate].
  destruct (turn (run_tasks r) (run_queue r) (sys_store sys) w rep) as [[q' s']|] eqn:Ht;
    [|discriminate].
  intros [= <-]. unfold turn in Ht.
  destruct (nth_error (runners (run_queue r)) w) as [[index p|index [message|]| |message]|] eqn:Hw;
    destruct rep as [rep|]; try discriminate.
  - destruct (resume p rep) as [p'|] eqn:Hres; [|discriminate].
    destruct (run_sync p' (sys_store sys)) as [[o s1] n] eqn:Hrun. injection Ht as <- <-.
    exists n. eapply sys_turn; eauto. eapply qstep_event; eauto.
  - injection Ht as <- <-. exists 0%nat. eapply sys_turn; eauto. eapply qstep_reject; eauto.
  - destruct (claim (run_tasks r) w (run_queue r) (sys_store sys)) as [[[r' q1] s1] n] eqn:Hc.
    injection Ht as <- <-. exists n. eapply sys_turn; eauto. eapply qstep_next; eauto.
Qed.

Lemma sys_two_runs_reach : sys_reach sample_store sys_two_runs.
Proof.
  unfold sys_two_runs, sys_one_run.
  eapply sys_reach_step; [eapply sys_reach_step; [apply sys_reach_init|]|];
    apply started_step; discriminate.
Qed.

(** C1. In every state the pipeline can reach, a turn taken by a
    continuation of a run (a task resumed after its submit, its status
    request, its delay or its poll; a runner taking its next task; the end
    of [startBatch] after the queue) whose captured epoch differs from the
    current epoch calls no state setter and leaves the component state as
    it is.  When a later run has been started, the epoch of the earlier run
    is below the current one, so this holds for every turn of the earlier
    run from the bump on. *)
Theorem superseded_run_makes_no_update :
  forall (s0 : store) (sys sys' : system) (k n : nat),
    sys_reach s0 sys ->
    sys_step sys (OfRun k) sys' n ->
    (forall r, nth_error (sys_runs sys) k = Some r ->
               run_id r <> runIdRef (sys_store sys) ->
               n = 0%nat /\ sys_store sys' = sys_store sys) /\
    ((S k < List.length (sys_runs sys))%nat ->
     (forall r, nth_error (sys_runs sys) k = Some r ->
                (run_id r < runIdRef (sys_store sys))%Z) /\
     n = 0%nat /\ sys_store sys' = sys_store sys).
Proof.
  intros s0 sys sys' k n Hreach Hstep.
  pose proof (sys_reach_inv Hreach) as Hinv.
  destruct (@sys_step_ok _ _ _ _ Hinv Hstep) as [_ [_ Hquiet]].
  split; [exact Hquiet|].
  intros Hlen.
  assert (Hlt : forall r, nth_error (sys_runs sys) k = Some r ->
                          (run_id r < runIdRef (sys_store sys))%Z).
  { intros r Hr. destruct Hinv as [_ Hep].
    destruct (@epochs_bound _ _ _ _ Hep Hr) as [_ H]. auto. }
  split; [exact Hlt|].
  destruct (nth_error (sys_runs sys) k) as [r|] eqn:Hr.
  - apply (Hquiet r eq_refl). specialize (Hlt r eq_refl). lia.
  - apply nth_error_None in Hr. lia.
Qed.

Lemma superseded_run_makes_no_update_witness :
  exists sys',
    sys_turn_of sys_two_runs 0 0 (Some (FetchSettled (FetchResponse true))) = Some sys' /\
    sys_store sys' = sys_store sys_two_runs.
Proof.
  destruct (sys_turn_of sys_two_runs 0 0 (Some (FetchSettled (FetchResponse true))))
    as [sys'|] eqn:E.
  - exists sys'. split; [reflexivity|].
    destruct (sys_turn_sound _ _ _ _ E) as [n Hstep].
    assert (Hlen : (1 < List.length (sys_runs sys_two_runs))%nat) by (simpl; lia).
    apply (proj2 (@superseded_run_makes_no_update sample_store sys_two_runs sys' 0 n
                    sys_two_runs_reach Hstep) Hlen).
  - assert (H : can_sys_turn (sys_turn_of sys_two_runs 0 0
                                (Some (FetchSettled (FetchResponse true)))) = true)
      by (vm_compute; reflexivity).
    rewrite E in H. discriminate.
Defined.

(** The answer to a request of the first run arrives after the second run
    has started: nothing shows.  The same answer to the second run binds the
    image to its view. *)
Example late_answer_is_dropped :
  display (sys_drive sys_two_runs 0 late_answer) = display (Some sys_two_runs) /\
  display (sys_drive sys_two_runs 1 late_answer)
  = Some (2%Z, "Rendering 8 angles...",
          [Sdone; Srunning; Srunning; Squeued; Squeued; Squeued; Squeued; Squeued],
          [Some "data:image/png;base64,b2xk"; None; None; None; None; None; None; None]).
Proof. split; vm_compute; reflexivity. Qed.

(** ** The runs of the orchestrator *)

Lemma tasks_ok_never_throw runId tasks :
  Forall (task_ok runId) tasks -> Forall (@never_throws unit) tasks.
Proof.
  intros H. eapply Forall_impl; [|exact H]. intros t (_ & _ & Ht). exact Ht.
Qed.

Lemma sample_tasks_never_throw : Forall (@never_throws unit) sample_tasks.
Proof. apply tasks_ok_never_throw with (runId := 1%Z). apply startBatch_tasks_ok. Qed.

(** The queue of a run started by [startBatch]: at most three views are
    being rendered at any time, each view is submitted at most once, and
    since the tasks catch their own errors, the queue can only end with all
    eight views submitted and settled, and always can. *)
Corollary startBatch_queue_runs_every_view h runId payload q :
  running_queue (mapi (fun view index => task h runId payload view index) (buildViews h))
    MAX_PARALLEL q ->
  (List.length (in_flight q) <= 3)%nat /\
  NoDup (map snd (claimed q)) /\
  (quiescent (mapi (fun view index => task h runId payload view index) (buildViews h)) q ->
   all_returned q /\ map snd (claimed q) = seq 0 8 /\ Permutation (resolved q) (seq 0 8)) /\
  exists q',
    qreach (mapi (fun view index => task h runId payload view index) (buildViews h)) q q' /\
    all_returned q'.
Proof.
  intros Hq.
  pose proof (tasks_ok_never_throw (startBatch_tasks_ok h runId payload)) as Hall.
  destruct (@running_queue_facts _ _ _ Hq) as (H1 & _ & H3 & H4).
  destruct (@running_queue_completes _ _ _ Hall Hq) as [H5 H6].
  assert (Hlen : List.length (mapi (fun view index => task h runId payload view index)
                                (buildViews h)) = 8%nat).
  { unfold mapi, buildViews. rewrite mapi_from_length, length_map. apply ANGLE_COUNT_eq. }
  rewrite Hlen in H4.
  split; [exact H3|]. split; [exact H1|]. split; [|exact H6].
  intros Hquiet. specialize (H5 Hquiet). destruct (H4 H5). auto.
Qed.

Lemma runQueue_runs_each_task_once_witness :
  (NoDup (map snd (claimed (fst (runQueue sample_tasks 3 sample_dispatch)))) /\
   exists q',
     qreach sample_tasks (fst (runQueue sample_tasks 3 sample_dispatch)) q' /\
     all_returned q') /\
  (exists q',
     turn tasks_first_rejects (fst (runQueue tasks_first_rejects 1 sample_store))
       sample_store 0 None = Some (q', sample_store) /\
     nth_error (runners q') 0 = Some (Rejected "boom") /\
     joins q' (Some "boom")) /\
  (forall q',
     qreach tasks_first_rejects (fst (runQueue tasks_first_rejects 1 sample_store)) q' ->
     claims_of 0 (claimed q') = [0%nat] /\ ~ all_returned q').
Proof.
  assert (Hc : (1 <= 3)%Z) by lia.
  assert (Hq : running_queue sample_tasks 3 (fst (runQueue sample_tasks 3 sample_dispatch)))
    by (exists sample_dispatch; constructor).
  assert (H1 : (1 <= 1)%Z) by lia.
  assert (Hr : running_queue tasks_first_rejects 1
                 (fst (runQueue tasks_first_rejects 1 sample_store)))
    by (exists sample_store; constructor).
  pose proof (proj2 (proj2 (@runQueue_runs_each_task_once tasks_first_rejects 1 H1))
                (fst (runQueue tasks_first_rejects 1 sample_store)) 0%nat
                (Settled 0 (Some "boom")) "boom" Hr eq_refl eq_refl) as [Hturn Hafter].
  split; [split|split].
  - apply (proj1 (@runQueue_runs_each_task_once sample_tasks 3 Hc) _ Hq).
  - apply (proj1 (proj2 (@runQueue_runs_each_task_once sample_tasks 3 Hc))
             sample_tasks_never_throw _ Hq).
  - destruct (Hturn 0%nat sample_store eq_refl) as (q' & Ht & Hn & Hj & _).
    exists q'. split; [exact Ht|]. split; [exact Hn|exact Hj].
  - intros q' Hreach. destruct (Hafter q' Hreach) as (_ & Hcl & Hnot).
    split; [exact Hcl|exact Hnot].
Defined.

Lemma runQueue_nonpositive_ceiling_witness :
  (runner_count 0 = 1%nat /\
   runner_count (-2) = 1%nat /\
   List.length (runners (fst (runQueue sample_tasks 0 sample_dispatch))) = 1%nat /\
   exists q',
     qreach sample_tasks (fst (runQueue sample_tasks 0 sample_dispatch)) q' /\
     all_returned q') /\
  (forall q',
     qreach tasks_first_rejects (fst (runQueue tasks_first_rejects 0 sample_store)) q' ->
     claimed q' = [(0, 0)]%nat /\ ~ In 1%nat (map snd (claimed q')) /\ ~ all_returned q').
Proof.
  assert (H0 : (0 <= 0)%Z) by lia.
  assert (H2 : (-2 <= 0)%Z) by lia.
  assert (Hq : running_queue sample_tasks 0 (fst (runQueue sample_tasks 0 sample_dispatch)))
    by (exists sample_dispatch; constructor).
  assert (Hr : running_queue tasks_first_rejects 0
                 (fst (runQueue tasks_first_rejects 0 sample_store)))
    by (exists sample_store; constructor).
  assert (H01 : (0 < 1)%nat) by lia.
  split; [split; [|split; [|split]]|].
  - apply (@runQueue_nonpositive_ceiling sample_tasks 0 H0).
  - apply (@runQueue_nonpositive_ceiling sample_tasks (-2) H2).
  - apply (proj1 (proj2 (@runQueue_nonpositive_ceiling sample_tasks 0 H0)) _ Hq).
  - apply (proj1 (proj2 (proj2 (@runQueue_nonpositive_ceiling sample_tasks 0 H0)))
             sample_tasks_never_throw _ Hq).
  - intros q' Hreach.
    destruct (proj2 (proj2 (proj2 (proj2 (@runQueue_nonpositive_ceiling tasks_first_rejects 0
                                            H0)))
                       (fst (runQueue tasks_first_rejects 0 sample_store)) 0%nat "boom"
                       Hr eq_refl) q' Hreach) as (Hcl & Hno & _ & Hnot).
    split; [exact Hcl|]. split; [exact (Hno 1%nat H01)|exact Hnot].
Defined.

(** * Further properties of the camera module *)

(** ** Index arithmetic *)

Lemma wrapIndex_mod value length :
  (0 < length)%Z -> wrapIndex value length = (value mod length)%Z.
Proof.
  intros H. unfold wrapIndex.
  destruct (Z.eqb_spec length 0) as [E|_]; [lia|].
  pose proof (Z.quot_rem' value length) as Hq.
  assert (Hb : (- length < Z.rem value length < length)%Z).
  { pose proof (Z.rem_bound_abs value length). lia. }
  rewrite Z.rem_mod_nonneg by lia.
  replace (Z.rem value length + length)%Z
    with (value + (1 - Z.quot value length) * length)%Z by lia.
  apply Z_mod_plus_full.
Qed.

(** X1. For a positive length, [wrapIndex] is the mathematical remainder:
    the result lies in [0, length), differs from the value by a multiple of
    the length, and is the value itself when the value is already an
    index; a negative value wraps from the end. *)
Theorem wrapIndex_in_range :
  forall value length : Z,
    (0 < length)%Z ->
    (0 <= wrapIndex value length < length)%Z /\
    wrapIndex value length = (value mod length)%Z /\
    wrapIndex (value + length) length = wrapIndex value length /\
    ((0 <= value < length)%Z -> wrapIndex value length = value).
Proof.
  intros value length H. rewrite !wrapIndex_mod by assumption.
  split; [apply Z.mod_pos_bound; assumption|]. split; [reflexivity|]. split.
  - replace (value + length)%Z with (value + 1 * length)%Z by lia. apply Z_mod_plus_full.
  - intros Hv. apply Z.mod_small. assumption.
Qed.

Lemma wrapIndex_in_range_witness :
  wrapIndex (-1) 8 = 7%Z /\ wrapIndex 8 8 = 0%Z.
Proof.
  assert (H : (0 < 8)%Z) by lia.
  split.
  - rewrite (proj1 (proj2 (@wrapIndex_in_range (-1) 8 H))). reflexivity.
  - rewrite (proj1 (proj2 (@wrapIndex_in_range 8 8 H))). reflexivity.
Defined.

(** ** Displayed view: the search *)

Lemma has_image_in_range items index :
  has_image items index = true -> (0 <= index < Z.of_nat (List.length items))%Z.
Proof.
  unfold has_image, at_index. destruct (Z.ltb_spec index 0); [discriminate|].
  destruct (nth_error items (Z.to_nat index)) eqn:E; [|discriminate].
  intros _. assert (Z.to_nat index < List.length items)%nat by (apply nth_error_Some; congruence).
  lia.
Qed.

(** What the loop returns: [-1] after offsets without an image on either
    side, or the first position with an image, right before left. *)
Lemma scan_offsets_spec index items : forall n offset,
  let len := Z.of_nat (List.length items) in
  (scan_offsets index items n offset = (-1)%Z /\
   forall d, (offset <= d < offset + Z.of_nat n)%Z ->
             has_image items (wrapIndex (index + d) len) = false /\
             has_image items (wrapIndex (index - d) len) = false)
  \/
  (exists d, (offset <= d < offset + Z.of_nat n)%Z /\
             (scan_offsets index items n offset = wrapIndex (index + d) len \/
              scan_offsets index items n offset = wrapIndex (index - d) len) /\
             has_image items (scan_offsets index items n offset) = true /\
             forall d', (offset <= d' < d)%Z ->
                        has_image items (wrapIndex (index + d') len) = false /\
                        has_image items (wrapIndex (index - d') len) = false).
Proof.
  intros n. induction n as [|n IH]; intros offset len.
  - left. split; [reflexivity|]. intros d Hd. lia.
  - cbn [scan_offsets]. fold len.
    destruct (has_image items (wrapIndex (index + offset) len)) eqn:Er.
    + right. exists offset. repeat split; auto; try lia; intros; lia.
    + destruct (has_image items (wrapIndex (index - offset) len)) eqn:El.
      * right. exists offset. repeat split; auto; try lia; intros; lia.
      * destruct (IH (offset + 1)%Z) as [[E Hnone] | (d & Hd & Hr & Hi & Hbefore)].
        -- left. split; [exact E|]. intros d Hd.
           destruct (Z.eq_dec d offset) as [->|Hne]; [auto|]. apply Hnone. lia.
        -- right. exists d. split; [lia|]. split; [exact Hr|]. split; [exact Hi|].
           intros d' Hd'. destruct (Z.eq_dec d' offset) as [->|Hne]; [auto|].
           apply Hbefore. lia.
Qed.

(** The result of the search is [-1] or an entry with an image. *)
Lemma findNearestImageIndex_found :
  forall (index : Z) (items : list AngleResult),
    findNearestImageIndex index items = (-1)%Z \/
    (has_image items (findNearestImageIndex index items) = true /\
     (0 <= findNearestImageIndex index items < Z.of_nat (List.length items))%Z).
Proof.
  intros index items. unfold findNearestImageIndex.
  destruct items as [|r items]; [now left|].
  destruct (has_image (r :: items) index) eqn:E.
  - right. split; [exact E|]. now apply has_image_in_range.
  - destruct (scan_offsets_spec index (r :: items) (List.length (r :: items) - 1) 1)
      as [[H _] | (d & _ & _ & H & _)].
    + now left.
    + right. split; [exact H|]. now apply has_image_in_range.
Qed.

(** X2. Whatever the selection, also one outside the list,
    [findNearestImageIndex] returns [-1] or the index of an entry of the
    list that has an image; it never points at an entry without image or
    outside the list. *)
Theorem findNearestImageIndex_sound :
  forall (index : Z) (items : list AngleResult),
    findNearestImageIndex index items = (-1)%Z \/
    (has_image items (findNearestImageIndex index items) = true /\
     (0 <= findNearestImageIndex index items < Z.of_nat (List.length items))%Z).
Proof. exact findNearestImageIndex_found. Qed.

(** For a selection inside the list, the search finds a nearest entry
    with an image, if there is one. *)
Lemma findNearestImageIndex_spec :
  forall (index : Z) (items : list AngleResult),
    (0 <= index < Z.of_nat (List.length items))%Z ->
    (findNearestImageIndex index items = (-1)%Z ->
     forall j, has_image items j = false) /\
    (forall j, has_image items j = true ->
       findNearestImageIndex index items <> (-1)%Z /\
       (ring_dist (Z.of_nat (List.length items)) index (findNearestImageIndex index items)
        <= ring_dist (Z.of_nat (List.length items)) index j)%Z).
Proof.
  intros index items Hin.
  destruct items as [|r items]; [simpl in Hin; lia|].
  remember (Z.of_nat (List.length (r :: items))) as len eqn:Hl.
  assert (Hlen : (0 < len)%Z) by lia.
  (* every other position of the list is met on the right and on the left *)
  assert (Hright : forall j, (0 <= j < len)%Z ->
            wrapIndex (index + (j - index) mod len) len = j).
  { intros j Hj. rewrite wrapIndex_mod by assumption.
    rewrite Zplus_mod_idemp_r. replace (index + (j - index))%Z with j by lia.
    now apply Z.mod_small. }
  assert (Hleft : forall j, (0 <= j < len)%Z ->
            wrapIndex (index - (index - j) mod len) len = j).
  { intros j Hj. rewrite wrapIndex_mod by assumption.
    rewrite Zminus_mod_idemp_r. replace (index - (index - j))%Z with j by lia.
    now apply Z.mod_small. }
  assert (Hoff : forall j, (0 <= j < len)%Z -> j <> index ->
            (1 <= (j - index) mod len < len)%Z /\ (1 <= (index - j) mod len < len)%Z).
  { intros j Hj Hne.
    pose proof (Z.mod_pos_bound (j - index) len Hlen) as B1.
    pose proof (Z.mod_pos_bound (index - j) len Hlen) as B2.
    assert ((j - index) mod len <> 0)%Z.
    { intros E. apply Z.mod_divide in E; [|lia]. destruct E as [k Hk].
      assert (k = 0)%Z by nia. subst k. lia. }
    assert ((index - j) mod len <> 0)%Z.
    { intros E. apply Z.mod_divide in E; [|lia]. destruct E as [k Hk].
      assert (k = 0)%Z by nia. subst k. lia. }
    lia. }
  unfold findNearestImageIndex.
  destruct (has_image (r :: items) index) eqn:E.
  - split; [lia|]. intros j Hj. split; [lia|].
    unfold ring_dist. rewrite Z.sub_diag, Z.mod_0_l by lia.
    pose proof (Z.mod_pos_bound (j - index) len Hlen).
    pose proof (Z.mod_pos_bound (index - j) len Hlen). lia.
  - assert (Hfuel : (1 + Z.of_nat (List.length (r :: items) - 1) = len)%Z).
    { rewrite Hl. simpl List.length. lia. }
    pose proof (scan_offsets_spec index (r :: items) (List.length (r :: items) - 1) 1) as Hs.
    cbv zeta in Hs. rewrite <- Hl in Hs.
    destruct Hs as [[Hres Hnone] | (d & Hd & Hr & Hi & Hbefore)].
    + split.
      * intros _ j. destruct (has_image (r :: items) j) eqn:Ej; [|reflexivity].
        pose proof (has_image_in_range _ _ Ej) as Hj. rewrite <- Hl in Hj.
        assert (j <> index) by congruence.
        destruct (Hoff j Hj H) as [Ha _].
        destruct (Hnone ((j - index) mod len)%Z) as [Hn _]; [lia|].
        rewrite Hright in Hn by assumption. congruence.
      * intros j Ej. exfalso.
        pose proof (has_image_in_range _ _ Ej) as Hj. rewrite <- Hl in Hj.
        assert (j <> index) by congruence.
        destruct (Hoff j Hj H) as [Ha _].
        destruct (Hnone ((j - index) mod len)%Z) as [Hn _]; [lia|].
        rewrite Hright in Hn by assumption. congruence.
    + assert (Hne : scan_offsets index (r :: items) (List.length (r :: items) - 1) 1 <> (-1)%Z).
      { pose proof (has_image_in_range _ _ Hi). lia. }
      split; [intros Hc; contradiction|].
      intros j Ej. split; [exact Hne|].
      pose proof (has_image_in_range _ _ Ej) as Hj. rewrite <- Hl in Hj.
      assert (Hji : j <> index) by congruence.
      destruct (Hoff j Hj Hji) as [Ha Hb].
      (* the found position is within [d] steps *)
      assert (Hrd : (ring_dist len index
                       (scan_offsets index (r :: items) (List.length (r :: items) - 1) 1)
                     <= d)%Z).
      { unfold ring_dist. destruct Hr as [-> | ->]; rewrite wrapIndex_mod by assumption.
        - assert (((index + d) mod len - index) mod len = d)%Z.
          { rewrite Zminus_mod_idemp_l. replace (index + d - index)%Z with d by lia.
            apply Z.mod_small. lia. }
          lia.
        - assert ((index - (index - d) mod len) mod len = d)%Z.
          { rewrite Zminus_mod_idemp_r. replace (index - (index - d))%Z with d by lia.
            apply Z.mod_small. lia. }
          lia. }
      (* and [j] is at least [d] steps away on both sides *)
      assert (Hja : (d <= (j - index) mod len)%Z).
      { destruct (Z_lt_le_dec ((j - index) mod len) d) as [Hlt|]; [|assumption].
        destruct (Hbefore ((j - index) mod len)%Z) as [Hn _]; [lia|].
        rewrite Hright in Hn by assumption. congruence. }
      assert (Hjb : (d <= (index - j) mod len)%Z).
      { destruct (Z_lt_le_dec ((index - j) mod len) d) as [Hlt|]; [|assumption].
        destruct (Hbefore ((index - j) mod len)%Z) as [_ Hn]; [lia|].
        rewrite Hleft in Hn by assumption. congruence. }
      unfold ring_dist at 2. lia.
Qed.

(** X3. For a selection inside the list: [findNearestImageIndex] returns
    [-1] only if no entry has an image, and otherwise an entry with an image
    that is nearest to the selection on the ring of views: no entry with an
    image is closer, counting steps in either direction with wrap-around. *)
Theorem findNearestImageIndex_nearest :
  forall (index : Z) (items : list AngleResult),
    (0 <= index < Z.of_nat (List.length items))%Z ->
    (findNearestImageIndex index items = (-1)%Z ->
     forall j, has_image items j = false) /\
    (forall j, has_image items j = true ->
       findNearestImageIndex index items <> (-1)%Z /\
       (ring_dist (Z.of_nat (List.length items)) index (findNearestImageIndex index items)
        <= ring_dist (Z.of_nat (List.length items)) index j)%Z).
Proof. exact findNearestImageIndex_spec. Qed.

Lemma findNearestImageIndex_nearest_witness :
  findNearestImageIndex 1
    [sample_result None; sample_result None; sample_result None;
     sample_result (Some "data:d")] <> (-1)%Z /\
  forall j, has_image [sample_result None; sample_result None] j = false.
Proof.
  split.
  - assert (H : (0 <= 1 < Z.of_nat (List.length
                    [sample_result None; sample_result None; sample_result None;
                     sample_result (Some "data:d")]))%Z) by (simpl; lia).
    apply (proj2 (@findNearestImageIndex_nearest 1 _ H) 3%Z). reflexivity.
  - assert (H : (0 <= 1 < Z.of_nat (List.length [sample_result None; sample_result None]))%Z)
      by (simpl; lia).
    apply (proj1 (@findNearestImageIndex_nearest 1 _ H)). reflexivity.
Defined.

(** A selection outside the list misses the entry it wraps to. *)
Example findNearestImageIndex_outside :
  findNearestImageIndex 10
    [sample_result None; sample_result None; sample_result (Some "x"); sample_result None]
  = (-1)%Z.
Proof. reflexivity. Qed.

(** ** Image payloads *)

Lemma string_eqb_false s : s <> "" -> String.eqb s "" = false.
Proof. intros H. now apply String.eqb_neq. Qed.

(** A normal image is left as it is. *)
Lemma normalizeImage_fixed out : is_normal out = true -> normalizeImage (JStr out) = Some out.
Proof.
  unfold is_normal, normalizeImage. intros H. apply andb_true_iff in H. destruct H as [H1 H2].
  apply negb_true_iff in H1. rewrite H1, H2. reflexivity.
Qed.

Lemma normalizeImage_is_normal value out :
  normalizeImage value = Some out -> is_normal out = true.
Proof.
  destruct value as [ | | b | n | s | items | props]; simpl; try discriminate.
  destruct (String.eqb s "") eqn:E; [discriminate|].
  destruct (String.prefix "data:" s || String.prefix "http" s) eqn:P; intros [= <-].
  - unfold is_normal. now rewrite E, P.
  - reflexivity.
Qed.

(** X4. Whatever [normalizeImage] returns is a non-empty string that starts
    with [data:] or [http]; it comes from a non-empty string, kept as it is
    or prefixed with the PNG data URL header; and normalising it again
    returns it unchanged. *)
Theorem normalizeImage_normal :
  forall (value : jsval) (out : string),
    normalizeImage value = Some out ->
    is_normal out = true /\
    normalizeImage (JStr out) = Some out /\
    exists s, value = JStr s /\ s <> "" /\
              (out = s \/ out = "data:image/png;base64," ++ s).
Proof.
  intros value out H. pose proof (normalizeImage_is_normal _ H) as Hn.
  split; [exact Hn|]. split; [now apply normalizeImage_fixed|].
  destruct value as [ | | b | n | s | items | props]; simpl in H; try discriminate.
  exists s. split; [reflexivity|].
  destruct (String.eqb_spec s "") as [E|E]; [discriminate|]. split; [exact E|].
  destruct (String.prefix "data:" s || String.prefix "http" s); injection H as <-; auto.
Qed.

Lemma normalizeImage_normal_witness :
  normalizeImage (JStr "data:image/png;base64,QUJD") = Some "data:image/png;base64,QUJD" /\
  is_normal "data:image/png;base64,QUJD" = true.
Proof.
  assert (H : normalizeImage (JStr "QUJD") = Some "data:image/png;base64,QUJD") by reflexivity.
  split.
  - apply (proj1 (proj2 (normalizeImage_normal _ H))).
  - apply (proj1 (normalizeImage_normal _ H)).
Defined.

Lemma filter_Boolean_normal (f : jsval -> jsval) items :
  Forall (fun s => is_normal s = true)
    (filter_Boolean (map (fun item => normalizeImage (f item)) items)).
Proof.
  induction items as [|item items IH]; simpl; [constructor|].
  destruct (normalizeImage (f item)) as [s|] eqn:E; auto.
  constructor; auto. eapply normalizeImage_is_normal; eauto.
Qed.

Lemma first_image_list_normal candidates l :
  first_image_list candidates = Some l ->
  Forall (fun s => is_normal s = true) l /\ l <> [].
Proof.
  induction candidates as [|candidate candidates IH]; simpl; [discriminate|].
  destruct candidate as [ | | b | n | s | items | props]; auto.
  match goal with |- match ?x with _ => _ end = _ -> _ =>
    pose proof (filter_Boolean_normal
                  (fun item => nullish (get item "image")
                                 (nullish (get item "url") (nullish (get item "data") item)))
                  items) as Hn;
    destruct x as [|img imgs] eqn:E end; auto.
  intros [= <-]. split; [exact Hn|discriminate].
Qed.

Lemma first_single_image_normal candidates :
  Forall (fun s => is_normal s = true) (first_single_image candidates).
Proof.
  induction candidates as [|candidate candidates IH]; simpl; [constructor|].
  destruct (normalizeImage candidate) as [s|] eqn:E; auto.
  constructor; [|constructor]. eapply normalizeImage_is_normal; eauto.
Qed.

Lemma extractImageList_all_normal payload :
  Forall (fun s => is_normal s = true) (extractImageList payload).
Proof.
  unfold extractImageList.
  match goal with |- context [first_image_list ?c] =>
    destruct (first_image_list c) as [l|] eqn:E end.
  - now destruct (first_image_list_normal _ E).
  - apply first_single_image_normal.
Qed.

Lemma filter_Boolean_strings l :
  Forall (fun s => is_normal s = true) l ->
  filter_Boolean
    (map (fun item => normalizeImage
                        (nullish (get item "image")
                           (nullish (get item "url") (nullish (get item "data") item))))
       (map JStr l)) = l.
Proof.
  induction 1 as [|s l Hs _ IH]; [reflexivity|].
  cbn [map]. cbn [get nullish]. rewrite (normalizeImage_fixed _ Hs).
  cbn [filter_Boolean]. f_equal. exact IH.
Qed.

(** X5. Every entry of the list that [extractImageList] returns, for any
    payload, is a non-empty string that starts with [data:] or [http]; and
    a non-empty result, sent again as [{ images: [...] }], is extracted
    unchanged. *)
Theorem extractImageList_normal :
  forall payload : jsval,
    Forall (fun s => is_normal s = true) (extractImageList payload) /\
    (extractImageList payload <> [] ->
     extractImageList (JObj [("images", JArr (map JStr (extractImageList payload)))])
     = extractImageList payload).
Proof.
  intros payload. pose proof (extractImageList_all_normal payload) as Hn.
  split; [exact Hn|]. intros Hne.
  remember (extractImageList payload) as l eqn:El. clear El.
  unfold extractImageList. cbn [get assoc String.eqb Ascii.eqb Bool.eqb nullish].
  cbn [first_image_list]. rewrite (filter_Boolean_strings Hn).
  destruct l; [contradiction|reflexivity].
Qed.

Example extractImageList_nothing :
  extractImageList JNull = [] /\ extractImageList (JObj []) = [] /\
  extractImageList (JObj [("status", JStr "IN_QUEUE"); ("id", JStr "job-1")]) = [].
Proof. repeat split. Qed.

(** ** Data URLs *)

Lemma split_on_nonempty sep s : split_on sep s <> [].
Proof.
  destruct s as [|c s]; simpl; [discriminate|].
  destruct (Ascii.eqb c sep); [discriminate|]. destruct (split_on sep s); discriminate.
Qed.

Lemma split_on_parts sep : forall s,
  Forall (fun part => index_of sep part = None) (split_on sep s).
Proof.
  induction s as [|c s IH]; simpl.
  - constructor; [reflexivity|constructor].
  - destruct (Ascii.eqb c sep) eqn:E.
    + constructor; [reflexivity|exact IH].
    + destruct (split_on sep s) as [|part parts]; simpl.
      * constructor; [|constructor]. simpl. now rewrite E.
      * inversion IH as [|? ? Hp Hps]; subst. constructor; [|exact Hps].
        simpl. rewrite E, Hp. reflexivity.
Qed.

Lemma split_on_none sep : forall s, index_of sep s = None -> split_on sep s = [s].
Proof.
  induction s as [|c s IH]; simpl; [reflexivity|].
  destruct (Ascii.eqb c sep); [discriminate|].
  destruct (index_of sep s); [discriminate|]. intros _. now rewrite IH.
Qed.

Lemma split_on_app sep : forall header rest,
  index_of sep header = None ->
  split_on sep (header ++ String sep rest) = header :: split_on sep rest.
Proof.
  induction header as [|c header IH]; simpl; intros rest H.
  - now rewrite Ascii.eqb_refl.
  - destruct (Ascii.eqb c sep); [discriminate|].
    destruct (index_of sep header); [discriminate|]. now rewrite IH.
Qed.

Lemma toBase64_no_comma dataUrl : index_of ","%char (toBase64 dataUrl) = None.
Proof.
  unfold toBase64. pose proof (split_on_parts ","%char dataUrl) as H.
  destruct (split_on ","%char dataUrl) as [|first [|second rest]] eqn:E.
  - now apply split_on_nonempty in E.
  - destruct (index_of ","%char dataUrl) eqn:Hi; [|reflexivity].
    exfalso. clear H. revert n first E Hi.
    induction dataUrl as [|c s IH]; simpl; intros n first E Hi; [discriminate|].
    destruct (Ascii.eqb c ","%char).
    + injection E as _ E. now apply split_on_nonempty in E.
    + destruct (split_on ","%char s) as [|p ps] eqn:Es; [now apply split_on_nonempty in Es|].
      injection E as _ ->. destruct (index_of ","%char s) eqn:His; [|discriminate].
      eapply IH; eauto.
  - inversion H as [|? ? _ H2]; subst. now inversion H2.
Qed.

(** X6. The payload that [toBase64] cuts out of a data URL never contains a
    comma; for a header and a body without commas it is the body, however
    long; and a string without comma is returned as it is. *)
Theorem toBase64_payload :
  (forall dataUrl, index_of ","%char (toBase64 dataUrl) = None) /\
  (forall header body,
      index_of ","%char header = None -> index_of ","%char body = None ->
      toBase64 (header ++ "," ++ body) = body) /\
  (forall s, index_of ","%char s = None -> toBase64 s = s).
Proof.
  split; [apply toBase64_no_comma|]. split.
  - intros header body Hh Hb. unfold toBase64.
    change (header ++ "," ++ body) with (header ++ String ","%char body).
    rewrite (@split_on_app _ _ _ Hh), (@split_on_none _ _ Hb). reflexivity.
  - intros s H. unfold toBase64. now rewrite (@split_on_none _ _ H).
Qed.

Lemma toBase64_payload_witness :
  toBase64 ("data:image/png;base64" ++ "," ++ "QUJD") = "QUJD" /\ toBase64 "QUJD" = "QUJD".
Proof.
  split.
  - apply (proj1 (proj2 toBase64_payload)); reflexivity.
  - apply (proj2 (proj2 toBase64_payload)); reflexivity.
Defined.

Lemma stripDataUrl_no_comma v : index_of ","%char v = None -> stripDataUrl v = v.
Proof. intros H. unfold stripDataUrl. now rewrite H. Qed.

(** X7. [stripDataUrl] of the render proxy undoes the PNG header that
    [normalizeImage] puts in front of a raw payload, whatever the payload;
    it leaves alone every string that does not start with [data:] and every
    string without a comma, in particular what [toBase64] produced on the
    client. *)
Theorem stripDataUrl_unwraps :
  (forall s, stripDataUrl ("data:image/png;base64," ++ s) = s) /\
  (forall s out, s <> "" -> String.prefix "data:" s = false -> String.prefix "http" s = false ->
                 normalizeImage (JStr s) = Some out -> stripDataUrl out = s) /\
  (forall v, String.prefix "data:" v = false -> stripDataUrl v = v) /\
  (forall v, stripDataUrl (toBase64 v) = toBase64 v).
Proof.
  split; [intros s; reflexivity|]. split; [|split].
  - intros s out Hs Hd Hh. simpl. rewrite (string_eqb_false Hs), Hd, Hh. simpl.
    intros [= <-]. reflexivity.
  - intros v H. unfold stripDataUrl. rewrite H. now destruct (index_of ","%char v).
  - intros v. apply stripDataUrl_no_comma, toBase64_no_comma.
Qed.

Lemma stripDataUrl_unwraps_witness :
  stripDataUrl "data:image/png;base64,QUJD" = "QUJD" /\ stripDataUrl "a,b" = "a,b".
Proof.
  split.
  - assert (H : normalizeImage (JStr "QUJD") = Some "data:image/png;base64,QUJD")
      by reflexivity.
    assert (Hs : "QUJD" <> "") by discriminate.
    apply (proj1 (proj2 stripDataUrl_unwraps) "QUJD" _ Hs eq_refl eq_refl H).
  - apply (proj1 (proj2 (proj2 stripDataUrl_unwraps))). reflexivity.
Defined.

(** ** Prompt builder: every view has its phrases *)

Lemma lookup_AZIMUTH x :
  In x ANGLE_PRESETS ->
  exists phrase, lookup_preset AZIMUTH_MAP x = Some phrase /\ In phrase (map snd AZIMUTH_MAP).
Proof.
  rewrite ANGLE_PRESETS_eq. simpl In. intros H.
  repeat (destruct H as [H|H]; [subst x; eexists; split; [vm_compute; reflexivity|simpl; auto 10]|]).
  contradiction.
Qed.

Lemma lookup_ELEVATION x :
  In x ELEVATION_PRESETS ->
  exists phrase, lookup_preset ELEVATION_MAP x = Some phrase /\ In phrase (map snd ELEVATION_MAP).
Proof.
  rewrite ELEVATION_PRESETS_eq. simpl In. intros H.
  repeat (destruct H as [H|H]; [subst x; eexists; split; [vm_compute; reflexivity|simpl; auto 10]|]).
  contradiction.
Qed.

Lemma lookup_DISTANCE x :
  In x DISTANCE_PRESETS ->
  exists phrase, lookup_preset DISTANCE_MAP x = Some phrase /\ In phrase (map snd DISTANCE_MAP).
Proof.
  rewrite DISTANCE_PRESETS_eq. simpl In. intros H.
  repeat (destruct H as [H|H]; [subst x; eexists; split; [vm_compute; reflexivity|simpl; auto 10]|]).
  contradiction.
Qed.

Lemma trim_start_spaces s : trim_start s = "" -> trim s = "".
Proof. intros H. unfold trim. rewrite H. reflexivity. Qed.

(** X8. For all numbers given as azimuth, elevation and distance, [NaN] and
    the infinities included, and for every extra prompt, [buildAnglePrompt]
    returns a prompt made of [<sks>] and one phrase of each of the three
    preset tables, so that no lookup is ever [undefined]; the trimmed extra
    prompt follows when it is not empty, and an extra prompt of white space
    only, be it of the ASCII range or not (a no-break space, an ideographic
    space), gives the same prompt as no extra prompt. *)
Theorem buildAnglePrompt_phrases :
  forall (azimuth elevation distance : float) (extraPrompt : string),
    (exists a e d,
        In a (map snd AZIMUTH_MAP) /\ In e (map snd ELEVATION_MAP) /\
        In d (map snd DISTANCE_MAP) /\
        buildAnglePrompt azimuth elevation distance extraPrompt
        = Some (if String.eqb (trim extraPrompt) ""
                then "<sks> " ++ a ++ " " ++ e ++ " " ++ d
                else ("<sks> " ++ a ++ " " ++ e ++ " " ++ d) ++ " " ++ trim extraPrompt)) /\
    (trim_start extraPrompt = "" ->
     buildAnglePrompt azimuth elevation distance extraPrompt
     = buildAnglePrompt azimuth elevation distance "").
Proof.
  intros azimuth elevation distance extraPrompt. split.
  - unfold buildAnglePrompt.
    destruct (snapToNearest azimuth ANGLE_PRESETS) as [x|] eqn:Ea;
      [|rewrite ANGLE_PRESETS_eq in Ea; discriminate].
    destruct (snapToNearest elevation ELEVATION_PRESETS) as [y|] eqn:Ee;
      [|rewrite ELEVATION_PRESETS_eq in Ee; discriminate].
    destruct (snapToNearest distance DISTANCE_PRESETS) as [z|] eqn:Ed;
      [|rewrite DISTANCE_PRESETS_eq in Ed; discriminate].
    destruct (lookup_AZIMUTH (snapToNearest_In _ _ Ea)) as (a & Ha & Ia).
    destruct (lookup_ELEVATION (snapToNearest_In _ _ Ee)) as (e & He & Ie).
    destruct (lookup_DISTANCE (snapToNearest_In _ _ Ed)) as (d & Hd & Id).
    exists a, e, d. rewrite Ha, He, Hd. cbn [show]. auto.
  - intros H. unfold buildAnglePrompt. now rewrite (trim_start_spaces _ H).
Qed.

Lemma buildAnglePrompt_phrases_witness :
  buildAnglePrompt nan infinity (-1) (ideographic_space ++ no_break_space ++ " ")
  = buildAnglePrompt nan infinity (-1) "".
Proof.
  apply (proj2 (buildAnglePrompt_phrases nan infinity (-1)
                  (ideographic_space ++ no_break_space ++ " "))).
  reflexivity.
Defined.

(** [trim] on an ideographic space, a no-break space, a byte order mark and
    a line separator around a text that holds a space and the letter [a]
    with grave accent, whose last byte is the last byte of a no-break
    space. *)
Example trim_beyond_ascii :
  trim (ideographic_space ++ no_break_space ++ "a b" ++ a_grave
          ++ byte_order_mark ++ line_separator ++ " ")
  = "a b" ++ a_grave.
Proof. reflexivity. Qed.

Example buildAnglePrompt_not_a_number :
  buildAnglePrompt nan nan nan " soft light " = Some "<sks> front view low-angle shot close-up soft light".
Proof. vm_compute. reflexivity. Qed.

(** ** Job submitter: one request, a well-formed answer *)

(** X9. Called with a non-empty payload, [submitAngle] sends exactly one
    request, the POST of its input, and never waits, whatever the endpoint
    answers.  When it returns images, the list is not empty and holds only
    non-empty strings that start with [data:] or [http]; when it returns a
    job id, the id is truthy and the answer held no image; and an answer
    with an HTTP error status always makes it throw. *)
Theorem submitAngle_single_request :
  forall (h : Hooks.t) (anglePrompt payload : string) (w : world) (n : nat) (s : store),
    payload <> "" ->
    let input :=
      Input.mk payload anglePrompt (Hooks.guidanceScale h) (Hooks.steps h)
        (Hooks.width h) (Hooks.height h) (Hooks.seed h) (Hooks.randomizeSeed h) "comfyui" in
    let l := exec w n (submitAngle h anglePrompt payload) s in
    requests l = [PostRender input] /\
    delays l = [] /\
    (forall images, outcome l = Finished (Images images) ->
                    images <> [] /\ Forall (fun img => is_normal img = true) images) /\
    (forall jobId, outcome l = Finished (Job jobId) ->
                   truthy jobId = true /\ extractImageList (parsed (json_at w (S n))) = []) /\
    (fetch_at w n (PostRender input) = FetchResponse false ->
     exists message, outcome l = Raised message).
Proof.
  intros h anglePrompt payload w n s Hp input l. subst l. unfold submitAngle.
  destruct (String.eqb_spec payload "") as [E|_]; [contradiction|].
  fold input. cbn [exec outcome requests delays final].
  destruct (fetch_at w n (PostRender input)) as [message|ok] eqn:Ef.
  - cbn. split; [reflexivity|]. split; [reflexivity|].
    split; [intros ? ?; discriminate|]. split; intros; discriminate.
  - cbn [exec outcome requests delays final].
    destruct ok; cbn [negb].
    + pose proof (extractImageList_all_normal (parsed (json_at w (S n)))) as Hn.
      destruct (extractImageList (parsed (json_at w (S n)))) as [|img imgs] eqn:Ei.
      * destruct (truthy (extractJobId (parsed (json_at w (S n))))) eqn:Et; cbn;
          (split; [reflexivity|]); (split; [reflexivity|]).
        -- split; [intros ? ?; discriminate|]. split; [|intros; discriminate].
           intros jobId [= <-]. split; [exact Et|reflexivity].
        -- split; [intros ? ?; discriminate|]. split; intros; discriminate.
      * cbn. split; [reflexivity|]. split; [reflexivity|].
        split; [|split; intros; discriminate].
        intros images [= <-]. split; [discriminate|exact Hn].
    + cbn. split; [reflexivity|]. split; [reflexivity|].
      split; [intros ? ?; discriminate|]. split; [intros ? ?; discriminate|].
      intros _. eexists. reflexivity.
Qed.

Lemma submitAngle_single_request_witness :
  requests (exec world_completes 0 (submitAngle sample_hooks "<sks> front view" "aGVsbG8=")
              sample_store)
  = [PostRender (Input.mk "aGVsbG8=" "<sks> front view" 3.5 16 512 512 1234 true "comfyui")].
Proof.
  assert (Hp : "aGVsbG8=" <> "") by discriminate.
  apply (@submitAngle_single_request sample_hooks "<sks> front view" "aGVsbG8="
           world_completes 0%nat sample_store Hp).
Defined.

(** ** Job poller: requests, results and waiting times *)

Lemma poll_loop_log (w : world) (jobId : jsval) (runId : Z) :
  forall (remaining : nat) (n : nat) (i : Z) (s : store),
    let l := exec w n (poll_loop jobId runId remaining i) s in
    Forall (fun r => r = GetStatus (js_String jobId)) (requests l) /\
    (forall p, outcome l = Finished p ->
               (poll_status_of p = Pdone /\ poll_images p <> [] /\
                Forall (fun img => is_normal img = true) (poll_images p)) \/
               (p = mkPolled Pcancelled [] /\ runIdRef (final l) <> runId)) /\
    (List.length (delays l) <= List.length (requests l) <= S (List.length (delays l)))%nat /\
    delays l = map (fun k => (1500 + (i + Z.of_nat k) * 40)%Z) (seq 0 (List.length (delays l))).
Proof.
  induction remaining as [|remaining IH]; intros n i s; cbn zeta.
  - cbn. split; [constructor|]. split; [intros p Hp; cbn in Hp; discriminate Hp|].
    split; [lia|reflexivity].
  - cbn [poll_loop exec]. unfold superseded.
    destruct (runIdRef s =? runId)%Z eqn:Es; cbn [negb].
    + cbn [exec outcome requests delays final].
      destruct (fetch_at w n (GetStatus (js_String jobId))) as [message|ok].
      { cbn. split; [repeat constructor|]. split; [intros p Hp; cbn in Hp; discriminate Hp|].
        split; [lia|reflexivity]. }
      cbn [exec outcome requests delays final].
      destruct ok; cbn [negb].
      2:{ cbn. split; [repeat constructor|]. split; [intros p Hp; cbn in Hp; discriminate Hp|].
          split; [lia|reflexivity]. }
      destruct (failure_marked (parsed (json_at w (S n)))).
      { cbn. split; [repeat constructor|]. split; [intros p Hp; cbn in Hp; discriminate Hp|].
        split; [lia|reflexivity]. }
      pose proof (extractImageList_all_normal (parsed (json_at w (S n)))) as Hn.
      destruct (extractImageList (parsed (json_at w (S n)))) as [|img imgs] eqn:Ei.
      * cbn [exec outcome requests delays final].
        specialize (IH (S (S (S n))) (i + 1)%Z
                       (meanwhile w (S (S n)) (meanwhile w (S n) (meanwhile w n s)))).
        cbn zeta in IH. destruct IH as (H1 & H2 & H3 & H4).
        split; [constructor; [reflexivity|exact H1]|].
        split; [exact H2|]. split; [cbn [List.length]; lia|].
        cbn [List.length seq map]. f_equal; [f_equal; lia|].
        rewrite <- seq_shift, map_map. rewrite H4 at 1.
        apply map_ext. intros k. f_equal. lia.
      * cbn. split; [repeat constructor|]. split; [|split; [lia|reflexivity]].
        intros p [= <-]. left. cbn. split; [reflexivity|]. split; [discriminate|exact Hn].
    + cbn. split; [constructor|]. split; [|split; [lia|reflexivity]].
      intros p [= <-]. right. split; [reflexivity|]. now apply Z.eqb_neq.
Qed.

(** X10. Every request of [pollJob] is the status request of its own job.
    A result it returns is either done, with a list of images that is not
    empty and holds only non-empty strings starting with [data:] or [http],
    or cancelled, without image and in a state whose epoch is no longer the
    one of the run.  It waits after a request and nowhere else: the waits
    are as many as the requests, or one fewer. *)
Theorem pollJob_result_wellformed :
  forall (w : world) (n : nat) (jobId : jsval) (runId : Z) (s : store),
    let l := exec w n (pollJob jobId runId) s in
    Forall (fun r => r = GetStatus (js_String jobId)) (requests l) /\
    (forall p, outcome l = Finished p ->
               (poll_status_of p = Pdone /\ poll_images p <> [] /\
                Forall (fun img => is_normal img = true) (poll_images p)) \/
               (p = mkPolled Pcancelled [] /\ runIdRef (final l) <> runId)) /\
    (List.length (delays l) <= List.length (requests l) <= S (List.length (delays l)))%nat.
Proof.
  intros w n jobId runId s.
  destruct (poll_loop_log w jobId runId 120 n 0%Z s) as (H1 & H2 & H3 & _).
  split; [exact H1|]. split; [exact H2|exact H3].
Qed.

Lemma total_delay_schedule (i : Z) : forall m : nat,
  total_delay (map (fun k => (1500 + (i + Z.of_nat k) * 40)%Z) (seq 0 m))
  = (Z.of_nat m * (1500 + 40 * i) + 20 * Z.of_nat m * (Z.of_nat m - 1))%Z.
Proof.
  induction m as [|m IH]; [reflexivity|].
  rewrite seq_S, map_app. unfold total_delay in *. rewrite fold_right_app.
  cbn [map fold_right Nat.add].
  assert (G : forall (l : list Z) (a : Z),
             fold_right Z.add a l = (fold_right Z.add 0 l + a)%Z).
  { induction l as [|x l IHl]; intros a; cbn; [lia|]. rewrite IHl. lia. }
  rewrite G, IH. lia.
Qed.

(** X11. The [k]-th wait of [pollJob] lasts [1500 + 40 k] milliseconds: the
    waits grow by 40 ms from 1.5 s on, there are at most 120 of them, none
    exceeds 6260 ms, and together they last at most 465.6 seconds. *)
Theorem pollJob_backoff_schedule :
  forall (w : world) (n : nat) (jobId : jsval) (runId : Z) (s : store),
    let l := exec w n (pollJob jobId runId) s in
    delays l = map (fun k => (1500 + Z.of_nat k * 40)%Z) (seq 0 (List.length (delays l))) /\
    (List.length (delays l) <= 120)%nat /\
    Forall (fun ms => (1500 <= ms <= 6260)%Z) (delays l) /\
    (total_delay (delays l) <= 465600)%Z.
Proof.
  intros w n jobId runId s l.
  destruct (poll_loop_log w jobId runId 120 n 0%Z s) as (_ & _ & H3 & H4).
  pose proof (poll_loop_budget w jobId runId 120 n 0%Z s) as Hb.
  fold (pollJob jobId runId) in H3, H4, Hb. fold l in H3, H4, Hb.
  assert (Hlen : (List.length (delays l) <= 120)%nat) by lia.
  split; [exact H4|]. split; [exact Hlen|]. split.
  - rewrite H4. apply Forall_forall. intros ms Hin. apply in_map_iff in Hin.
    destruct Hin as (k & <- & Hk). apply in_seq in Hk. lia.
  - rewrite H4. rewrite total_delay_schedule.
    remember (Z.of_nat (List.length (delays l))) as m eqn:Em.
    assert (0 <= m <= 120)%Z by lia. nia.
Qed.

Example pollJob_exhausted_waits :
  total_delay (delays (exec world_in_progress 0 (pollJob (JStr "job-1") 0) sample_store))
  = 465600%Z.
Proof. vm_compute. reflexivity. Qed.

Lemma poll_loop_stale (w : world) (jobId : jsval) (runId : Z) remaining n i s :
  runIdRef s <> runId ->
  requests (exec w n (poll_loop jobId runId remaining i) s) = [] /\
  outcome (exec w n (poll_loop jobId runId remaining i) s)
  = match remaining with
    | O => Raised "Render timed out."
    | S _ => Finished (mkPolled Pcancelled [])
    end.
Proof.
  intros H. destruct remaining as [|remaining]; [split; reflexivity|].
  cbn [poll_loop exec]. unfold superseded.
  apply Z.eqb_neq in H. rewrite H. split; reflexivity.
Qed.

Lemma poll_loop_superseded (w : world) (jobId : jsval) (runId : Z) (k : nat) :
  (forall j s, runIdRef s <> runId -> runIdRef (meanwhile w j s) <> runId) ->
  (forall s, runIdRef (meanwhile w k s) <> runId) ->
  forall (remaining : nat) (n : nat) (i : Z) (s : store),
    (n <= k)%nat ->
    (3 * List.length (requests (exec w n (poll_loop jobId runId remaining i) s))
     <= 3 + (k - n))%nat.
Proof.
  intros Hstay Hat.
  induction remaining as [|remaining IH]; intros n i s Hn; [cbn; lia|].
  cbn [poll_loop exec]. destruct (superseded runId s); [cbn; lia|].
  cbn [exec outcome requests delays final].
  destruct (fetch_at w n (GetStatus (js_String jobId))) as [message|ok]; [cbn; lia|].
  cbn [exec outcome requests delays final].
  destruct ok; cbn [negb]; [|cbn; lia].
  destruct (failure_marked (parsed (json_at w (S n)))); [cbn; lia|].
  destruct (extractImageList (parsed (json_at w (S n)))); [|cbn; lia].
  cbn [exec outcome requests delays final List.length].
  set (s3 := meanwhile w (S (S n)) (meanwhile w (S n) (meanwhile w n s))).
  destruct (Nat.le_gt_cases (S (S (S n))) k) as [Hle|Hgt].
  - specialize (IH (S (S (S n))) (i + 1)%Z s3 Hle). lia.
  - assert (Hs3 : runIdRef s3 <> runId).
    { unfold s3. assert (k = n \/ k = S n \/ k = S (S n)) as [->|[->| ->]] by lia.
      - apply Hstay, Hstay, Hat.
      - apply Hstay, Hat.
      - apply Hat. }
    rewrite (proj1 (@poll_loop_stale w jobId runId remaining (S (S (S n))) (i + 1)%Z s3 Hs3)).
    cbn. lia.
Qed.

(** X12. When another run takes over the epoch at the [k]-th suspension of
    [pollJob], and the epoch never comes back, [pollJob] sends no request
    beyond the iteration it is in: it has sent at most [k / 3 + 1] of its
    120 requests when it returns. *)
Theorem pollJob_stops_when_superseded :
  forall (w : world) (jobId : jsval) (runId : Z) (k : nat) (s : store),
    (forall j s', runIdRef s' <> runId -> runIdRef (meanwhile w j s') <> runId) ->
    (forall s', runIdRef (meanwhile w k s') <> runId) ->
    (List.length (requests (exec w 0 (pollJob jobId runId) s)) <= k / 3 + 1)%nat.
Proof.
  intros w jobId runId k s Hstay Hat.
  pose proof (@poll_loop_superseded w jobId runId k Hstay Hat 120 0 0%Z s (Nat.le_0_l k)) as H.
  fold (pollJob jobId runId) in H.
  pose proof (Nat.div_mod_eq k 3) as Hk.
  pose proof (Nat.mod_upper_bound k 3 ltac:(discriminate)) as Hm. lia.
Qed.

Lemma pollJob_stops_when_superseded_witness :
  (List.length (requests (exec world_restarted 0 (pollJob (JStr "job-1") 0) sample_store))
   <= 4 / 3 + 1)%nat.
Proof.
  apply (@pollJob_stops_when_superseded world_restarted (JStr "job-1") 0%Z 4%nat sample_store).
  - intros j s' H. cbn. destruct (j =? 4)%nat; [discriminate|exact H].
  - intros s'. cbn. discriminate.
Defined.

Example pollJob_restarted_requests :
  requests (exec world_restarted 0 (pollJob (JStr "job-1") 0) sample_store)
  = [GetStatus "job-1"; GetStatus "job-1"] /\
  outcome (exec world_restarted 0 (pollJob (JStr "job-1") 0) sample_store)
  = Finished (mkPolled Pcancelled []).
Proof. split; reflexivity. Qed.

(** ** The page: what every state write preserves *)

Lemma writes_keep_bind (A B : Type) (P : store -> Prop) (Q : A -> Prop)
      (m : async A) (f : A -> async B) :
  writes_keep P m -> yields Q m -> (forall a, Q a -> writes_keep P (f a)) ->
  writes_keep P (bind m f).
Proof.
  intros Hm Hy Hf.
  induction m as [a|message|k IH|g k IH|req k IH|k IH|ms k IH|k IH]; simpl in *; auto.
  destruct Hm as [Hg Hk]. split; auto.
Qed.

Lemma writes_keep_try_catch (A : Type) (P : store -> Prop) (m : async A)
      (h : string -> async A) :
  writes_keep P m -> (forall e, writes_keep P (h e)) -> writes_keep P (try_catch m h).
Proof.
  intros Hm Hh.
  induction m as [a|message|k IH|g k IH|req k IH|k IH|ms k IH|k IH]; simpl in *; auto.
  destruct Hm as [Hg Hk]. split; auto.
Qed.

Lemma yields_bind (A B : Type) (Q : A -> Prop) (R : B -> Prop) (m : async A)
      (f : A -> async B) :
  yields Q m -> (forall a, Q a -> yields R (f a)) -> yields R (bind m f).
Proof.
  intros Hm Hf.
  induction m as [a|message|k IH|g k IH|req k IH|k IH|ms k IH|k IH]; simpl in *; auto.
Qed.

Lemma yields_try_catch (A : Type) (Q : A -> Prop) (m : async A) (h : string -> async A) :
  yields Q m -> (forall e, yields Q (h e)) -> yields Q (try_catch m h).
Proof.
  intros Hm Hh.
  induction m as [a|message|k IH|g k IH|req k IH|k IH|ms k IH|k IH]; simpl in *; auto.
Qed.

Lemma yields_await_call (A : Type) (Q : A -> Prop) (m : async A) :
  yields Q m -> yields Q (await_call m).
Proof.
  intros H. unfold await_call. apply yields_try_catch.
  - eapply yields_bind; [exact H|]. intros a Ha. exact Ha.
  - intros e. exact I.
Qed.

Lemma putless_writes_keep (A : Type) (P : store -> Prop) (p : async A) :
  putless p -> writes_keep P p.
Proof.
  induction p as [a|message|k IH|g k IH|req k IH|k IH|ms k IH|k IH]; simpl; auto.
  contradiction.
Qed.

Lemma putless_bind (A B : Type) (m : async A) (f : A -> async B) :
  putless m -> (forall a, putless (f a)) -> putless (bind m f).
Proof.
  intros Hm Hf.
  induction m as [a|message|k IH|g k IH|req k IH|k IH|ms k IH|k IH]; simpl in *; auto.
Qed.

Lemma putless_try_catch (A : Type) (m : async A) (h : string -> async A) :
  putless m -> (forall e, putless (h e)) -> putless (try_catch m h).
Proof.
  intros Hm Hh.
  induction m as [a|message|k IH|g k IH|req k IH|k IH|ms k IH|k IH]; simpl in *; auto.
Qed.

Lemma putless_await_call (A : Type) (m : async A) : putless m -> putless (await_call m).
Proof.
  intros H. unfold await_call. apply putless_try_catch.
  - apply putless_bind; [exact H|]. intros a. exact I.
  - intros e. exact I.
Qed.

Lemma writes_keep_run_sync (A : Type) (P : store -> Prop) (p : async A) : forall s,
  writes_keep P p ->
  (P s -> P (snd (fst (run_sync p s)))) /\
  match fst (fst (run_sync p s)) with
  | Suspended p' => writes_keep P p'
  | _ => True
  end.
Proof.
  induction p as [a|message|k IH|f k IH|req k IH|k IH|ms k IH|k IH]; simpl; intros s H; auto.
  destruct H as [Hf Hk]. specialize (IH (f s) Hk).
  destruct (run_sync k (f s)) as [[o s1] n1]. simpl in *.
  destruct IH as [H1 H2]. split; auto.
Qed.

Lemma writes_keep_resume (A : Type) (P : store -> Prop) (p : async A) r p' :
  writes_keep P p -> resume p r = Some p' -> writes_keep P p'.
Proof.
  destruct p, r; simpl; intros Hp H; try discriminate; injection H as <-; auto.
Qed.

Lemma settle_keeps (P : store -> Prop) index (p : async unit) s o s' n :
  writes_keep P p -> run_sync p s = (o, s', n) ->
  runner_keeps P (settle index o) /\ (P s -> P s').
Proof.
  intros Hp Hrun. destruct (@writes_keep_run_sync _ P p s Hp) as [H1 H2].
  rewrite Hrun in H1, H2. simpl in H1, H2. split; [|exact H1].
  destruct o; simpl; auto.
Qed.

Lemma claim_keeps (P : store -> Prop) tasks w q s r q1 s1 n :
  Forall (writes_keep P) tasks ->
  claim tasks w q s = (r, q1, s1, n) ->
  runner_keeps P r /\ (P s -> P s1).
Proof.
  intros Hall Hc. apply claim_spec in Hc.
  destruct Hc as (_ & _ & [(_ & -> & _ & _ & -> & _) | (t & o & Ht & Hrun & -> & _)]).
  - simpl. auto.
  - rewrite Forall_forall in Hall.
    eapply settle_keeps; eauto. apply Hall. eapply nth_error_In; eauto.
Qed.

Lemma launch_keeps (P : store -> Prop) tasks : forall n q s,
  Forall (writes_keep P) tasks ->
  Forall (runner_keeps P) (runners q) ->
  Forall (runner_keeps P) (runners (fst (launch tasks n q s))) /\
  (P s -> P (snd (launch tasks n q s))).
Proof.
  induction n as [|n IH]; intros q s Hall Hq; simpl; auto.
  destruct (claim tasks (List.length (runners q)) q s) as [[[r q1] s1] k] eqn:Hc.
  pose proof (claim_spec _ _ _ _ Hc) as (Hrun & _).
  destruct (@claim_keeps P tasks _ _ _ _ _ _ _ Hall Hc) as (Hr & Hs1).
  destruct (IH (with_runners q1 (runners q1 ++ [r])) s1 Hall) as [H1 H2].
  - simpl. rewrite Hrun. apply Forall_app. split; auto.
  - split; auto.
Qed.

Lemma qstep_keeps (P : store -> Prop) tasks q s q' s' n :
  Forall (writes_keep P) tasks ->
  Forall (runner_keeps P) (runners q) ->
  qstep tasks q s q' s' n ->
  Forall (runner_keeps P) (runners q') /\ (P s -> P s').
Proof.
  intros Hall Hq [w index p r p' o s1 n1 Hw Hres Hrun | w index r q1 s1 n1 Hw Hc
                 | w index message Hw].
  - assert (Hp : runner_keeps P (Awaiting index p)).
    { rewrite Forall_forall in Hq. apply Hq. eapply nth_error_In; eauto. }
    pose proof (@writes_keep_resume _ P _ _ _ Hp Hres) as Hp'.
    destruct (@settle_keeps P index _ _ _ _ _ Hp' Hrun) as [H1 H2].
    split; [simpl; apply Forall_set_runner; auto|exact H2].
  - pose proof (claim_spec _ _ _ _ Hc) as (Hrun & _).
    destruct (@claim_keeps P tasks _ _ _ _ _ _ _ Hall Hc) as (Hr & Hs1).
    split; [simpl; rewrite Hrun; apply Forall_set_runner; auto|exact Hs1].
  - split; [simpl; apply Forall_set_runner; simpl; auto|auto].
Qed.

(** *** What the helpers hand over *)

Lemma submitAngle_yields h anglePrompt payload :
  yields submitted_normal (submitAngle h anglePrompt payload).
Proof.
  unfold submitAngle. destruct (String.eqb payload ""); [exact I|].
  cbn [yields]. intros [message|ok]; [exact I|]. cbn [yields]. intros body.
  destruct (negb ok); [exact I|].
  pose proof (extractImageList_all_normal (parsed body)) as Hn.
  destruct (extractImageList (parsed body)) as [|img imgs].
  - destruct (truthy (extractJobId (parsed body))); exact I.
  - exact Hn.
Qed.

Lemma poll_loop_yields jobId runId : forall remaining i,
  yields (fun p => images_normal (poll_images p)) (poll_loop jobId runId remaining i).
Proof.
  induction remaining as [|remaining IH]; intros i; [exact I|].
  cbn [poll_loop yields]. intros s. destruct (superseded runId s); [constructor|].
  cbn [yields]. intros [message|ok]; [exact I|]. cbn [yields]. intros body.
  destruct (negb ok); [exact I|].
  destruct (failure_marked (parsed body)); [exact I|].
  pose proof (extractImageList_all_normal (parsed body)) as Hn.
  destruct (extractImageList (parsed body)) as [|img imgs].
  - cbn [yields]. apply IH.
  - exact Hn.
Qed.

(** *** The writes of a task *)

Lemma map_azimuth_mapi_from (f : AngleResult -> nat -> AngleResult) :
  (forall x i, azimuth (f x i) = azimuth x) ->
  forall l k, map azimuth (mapi_from f k l) = map azimuth l.
Proof.
  intros Hf. induction l as [|x l IH]; intros k; simpl; [reflexivity|].
  now rewrite Hf, IH.
Qed.

Lemma Forall_mapi_from_keep (A B : Type) (P : A -> Prop) (Q : B -> Prop)
      (f : A -> nat -> B) :
  (forall x i, P x -> Q (f x i)) ->
  forall l k, Forall P l -> Forall Q (mapi_from f k l).
Proof.
  intros Hf. induction l as [|x l IH]; intros k Hl; simpl; [constructor|].
  inversion Hl; subst. constructor; auto.
Qed.

Lemma Forall_mapi_from_bounded (A B : Type) (Q : B -> Prop) (f : A -> nat -> B) :
  forall l k,
    (forall x i, (k <= i < k + List.length l)%nat -> Q (f x i)) ->
    Forall Q (mapi_from f k l).
Proof.
  induction l as [|x l IH]; intros k Hf; simpl; [constructor|].
  constructor.
  - apply Hf. simpl. lia.
  - apply IH. intros y i Hi. apply Hf. simpl. lia.
Qed.

Lemma page_inv_mapi (f : AngleResult -> nat -> AngleResult) s :
  (forall x i, azimuth (f x i) = azimuth x) ->
  (forall x i, view_ok x -> view_ok (f x i)) ->
  page_inv s -> page_inv (setResults (fun prev => mapi f prev) s).
Proof.
  intros Ha Hv (H1 & H2 & H3). unfold page_inv, mapi. cbn [results selectedIndex setResults].
  split; [|split; [exact H2|]].
  - rewrite map_azimuth_mapi_from by assumption. exact H1.
  - eapply Forall_mapi_from_keep; eauto.
Qed.

Lemma mark_keeps index st err s :
  st <> Sdone -> page_inv s -> page_inv (setResults (mark index st err) s).
Proof.
  intros Hst. apply page_inv_mapi.
  - intros x i. destruct (i =? index)%nat; reflexivity.
  - intros x i [Hd Hi]. destruct (i =? index)%nat; [|split; assumption].
    split; cbn [status image]; [intros E; contradiction|exact Hi].
Qed.

Lemma applyImageAt_keeps h index img :
  (index < List.length ANGLE_PRESETS)%nat -> is_normal img = true ->
  writes_keep page_inv (applyImageAt h index img).
Proof.
  intros Hi Hn. unfold applyImageAt. cbn [bind update writes_keep].
  split; [|split; [|exact I]].
  - intros s. apply page_inv_mapi.
    + intros x i. reflexivity.
    + intros x i [Hd Hok]. split; cbn [status image].
      * destruct (i =? index)%nat; [discriminate|exact Hd].
      * destruct (i =? index)%nat; [intros ? [= <-]; exact Hn|exact Hok].
  - intros s (H1 & H2 & H3). unfold page_inv. cbn [results selectedIndex setSelectedIndex].
    split; [exact H1|]. split; [|exact H3].
    destruct (selectedIndex s =? Z.of_nat index)%Z; [exact H2|].
    destruct (negb (has_image (Hooks.results h) (selectedIndex s))); [lia|exact H2].
Qed.

Lemma setStatusMessage_keeps message s : page_inv s -> page_inv (setStatusMessage message s).
Proof. intros H. exact H. Qed.

Lemma task_keeps h runId payload view index :
  (index < List.length ANGLE_PRESETS)%nat ->
  writes_keep page_inv (task h runId payload view index).
Proof.
  intros Hi.
  destruct (buildAnglePrompt_defined (View.azimuth view) (View.elevation view)
              (View.distance view) (Hooks.prompt h)) as [anglePrompt Hprompt].
  unfold task. rewrite Hprompt. cbn [writes_keep]. intros s.
  destruct (superseded runId s); cbn [writes_keep bind update]; [exact I|].
  split; [intros s0; apply mark_keeps; discriminate|].
  apply writes_keep_try_catch.
  - apply writes_keep_bind with (Q := submitted_normal).
    + apply putless_writes_keep, putless_await_call, submitAngle_putless.
    + apply yields_await_call, submitAngle_yields.
    + intros submitted Hq. cbn [writes_keep]. intros s'.
      destruct (superseded runId s'); [exact I|].
      destruct submitted as [[|img images]|jobId]; [exact I| |].
      * apply applyImageAt_keeps; [exact Hi|]. inversion Hq; assumption.
      * apply writes_keep_bind with (Q := fun p => images_normal (poll_images p)).
        -- apply putless_writes_keep, putless_await_call, pollJob_putless.
        -- apply yields_await_call, poll_loop_yields.
        -- intros polled Hq'. cbn [writes_keep]. intros s''.
           destruct (superseded runId s''); [exact I|].
           destruct (poll_status_of polled); [exact I|].
           destruct (poll_images polled) as [|img images]; [exact I|].
           apply applyImageAt_keeps; [exact Hi|]. inversion Hq'; assumption.
  - intros message. cbn [writes_keep]. intros s'.
    destruct (superseded runId s'); cbn [writes_keep bind update]; [exact I|].
    split; [intros s0; apply mark_keeps; discriminate|]. split; [|exact I].
    intros s0. apply setStatusMessage_keeps.
Qed.

(** A task writes the result list, the selection and the status message,
    and nothing else. *)
Lemma task_framed (P : store -> Prop) h runId payload view index :
  framed P -> writes_keep P (task h runId payload view index).
Proof.
  intros (Hr & Hsel & Hmsg).
  assert (Happly : forall img, writes_keep P (applyImageAt h index img)).
  { intros img. unfold applyImageAt. cbn [bind update writes_keep]. auto. }
  destruct (buildAnglePrompt_defined (View.azimuth view) (View.elevation view)
              (View.distance view) (Hooks.prompt h)) as [anglePrompt Hprompt].
  unfold task. rewrite Hprompt. cbn [writes_keep]. intros s.
  destruct (superseded runId s); cbn [writes_keep bind update]; [exact I|].
  split; [auto|].
  apply writes_keep_try_catch.
  - apply writes_keep_bind with (Q := fun _ => True).
    + apply putless_writes_keep, putless_await_call, submitAngle_putless.
    + apply yields_await_call.
      generalize (submitAngle h anglePrompt payload). intros m.
      induction m; simpl; auto.
    + intros submitted _. cbn [writes_keep]. intros s'.
      destruct (superseded runId s'); [exact I|].
      destruct submitted as [[|img images]|jobId]; [exact I|apply Happly|].
      apply writes_keep_bind with (Q := fun _ => True).
      * apply putless_writes_keep, putless_await_call, pollJob_putless.
      * apply yields_await_call.
        generalize (pollJob jobId runId). intros m. induction m; simpl; auto.
      * intros polled _. cbn [writes_keep]. intros s''.
        destruct (superseded runId s''); [exact I|].
        destruct (poll_status_of polled); [exact I|].
        destruct (poll_images polled) as [|img images]; [exact I|apply Happly].
  - intros message. cbn [writes_keep]. intros s'.
    destruct (superseded runId s'); cbn [writes_keep bind update]; auto.
Qed.

(** ** The page: the runs and the handlers *)

Lemma tasks_keep h runId payload :
  Forall (writes_keep page_inv)
    (mapi (fun view index => task h runId payload view index) (buildViews h)).
Proof.
  unfold mapi. apply Forall_mapi_from_bounded. intros view i Hi. apply task_keeps.
  unfold buildViews in Hi. rewrite length_map in Hi. lia.
Qed.

Lemma tasks_framed (P : store -> Prop) h runId payload :
  framed P ->
  Forall (writes_keep P)
    (mapi (fun view index => task h runId payload view index) (buildViews h)).
Proof.
  intros HP. unfold mapi. apply Forall_mapi_from. intros view i. now apply task_framed.
Qed.

Lemma startBatch_begin_state h makeId payload s runId tasks s1 n1 :
  run_sync (startBatch_begin h makeId payload) s = (Finished (Some (runId, tasks)), s1, n1) ->
  page_inv s1 /\ isRunning s1 = true.
Proof.
  unfold startBatch_begin. destruct (String.eqb payload ""); [discriminate|].
  cbn [run_sync bind update]. intros [= _ _ <- _]. split; [|reflexivity].
  unfold page_inv. cbn [results selectedIndex setSelectedIndex setResults].
  split; [|split].
  - unfold buildViews, mapi. rewrite mapi_from_map, map_mapi_from. cbn [azimuth View.azimuth].
    rewrite mapi_from_const. apply map_id.
  - rewrite ANGLE_PRESETS_eq. simpl. lia.
  - unfold mapi. apply Forall_mapi_from. intros view i. split; cbn; [discriminate|].
    intros img H. discriminate.
Qed.

Lemma startBatch_finish_keeps runId rejection :
  writes_keep page_inv (startBatch_finish runId rejection).
Proof.
  assert (Hlast : forall s : store,
             writes_keep page_inv
               (if (runIdRef s =? runId)%Z then update (setIsRunning false) else Ret tt)).
  { intros s. destruct (runIdRef s =? runId)%Z; cbn [update writes_keep]; [|exact I].
    split; [intros s0 H; exact H|exact I]. }
  unfold startBatch_finish. destruct rejection as [message|]; cbn [bind update writes_keep].
  - split; [intros s H; exact H|]. split; [|exact Hlast].
    intros s (H1 & H2 & H3). unfold page_inv. cbn [results selectedIndex setResults].
    split; [|split; [exact H2|]].
    + rewrite map_map. cbn [azimuth]. exact H1.
    + apply Forall_map. eapply Forall_impl; [|exact H3].
      intros r [Hd Hi]. split; cbn [status image]; [discriminate|exact Hi].
  - intros s. destruct (runIdRef s =? runId)%Z; cbn [bind update writes_keep].
    + split; [intros s0 H; exact H|exact Hlast].
    + exact Hlast.
Qed.

Lemma startBatch_finish_current runId s :
  runIdRef s = runId ->
  run_sync (startBatch_finish runId None) s
  = (Finished tt, setIsRunning false (setStatusMessage "Completed." s), 2%nat).
Proof.
  intros H. unfold startBatch_finish. cbn [bind run_sync].
  apply Z.eqb_eq in H. rewrite H. cbn [bind update run_sync].
  change (runIdRef (setStatusMessage "Completed." s)) with (runIdRef s). rewrite H.
  reflexivity.
Qed.

Lemma set_run_length k r : forall l, List.length (set_run k r l) = List.length l.
Proof. induction k as [|k IH]; intros [|x l]; simpl; auto. Qed.

Lemma nth_error_set_run_same k r : forall l,
  (k < List.length l)%nat -> nth_error (set_run k r l) k = Some r.
Proof.
  induction k as [|k IH]; intros [|x l] H; simpl in *; try lia; auto. apply IH. lia.
Qed.

Lemma nth_error_set_run_other k j r : forall l,
  j <> k -> nth_error (set_run k r l) j = nth_error l j.
Proof.
  revert j. induction k as [|k IH]; intros [|j] [|x l] H; simpl; auto; try congruence.
Qed.

Lemma at_index_range (A : Type) (l : list A) index x :
  at_index l index = Some x -> (0 <= index < Z.of_nat (List.length l))%Z.
Proof.
  unfold at_index. destruct (Z.ltb_spec index 0); [discriminate|]. intros E.
  assert (Z.to_nat index < List.length l)%nat by (apply nth_error_Some; congruence). lia.
Qed.

Lemma handleSelect_cases rs index s :
  (at_index rs index = None /\ handleSelect rs index s = s) \/
  ((0 <= index < Z.of_nat (List.length rs))%Z /\
   handleSelect rs index s = setSelectedIndex (fun _ => index) s).
Proof.
  unfold handleSelect. destruct (at_index rs index) eqn:E; [right|left]; split; auto.
  eapply at_index_range; eauto.
Qed.

Lemma handleSelect_keeps index s :
  page_inv s -> page_inv (handleSelect (results s) index s).
Proof.
  intros (H1 & H2 & H3).
  destruct (handleSelect_cases (results s) index s) as [[_ ->] | [Hi ->]]; [now repeat split|].
  unfold page_inv. cbn [results selectedIndex setSelectedIndex].
  split; [exact H1|]. split; [|exact H3].
  rewrite <- H1, length_map. exact Hi.
Qed.

Lemma wrapIndex_presets value :
  (0 <= wrapIndex value (Z.of_nat (List.length ANGLE_PRESETS))
   < Z.of_nat (List.length ANGLE_PRESETS))%Z.
Proof.
  rewrite ANGLE_PRESETS_eq. cbn [List.length Z.of_nat Pos.of_succ_nat Pos.succ].
  rewrite wrapIndex_mod by lia. apply Z.mod_pos_bound. lia.
Qed.

Lemma handleKeyDown_keeps rs key s : page_inv s -> page_inv (handleKeyDown rs key s).
Proof.
  intros (H1 & H2 & H3). unfold handleKeyDown. destruct rs as [|r rs]; [now repeat split|].
  destruct (String.eqb key "ArrowRight"), (String.eqb key "ArrowLeft");
    unfold page_inv; cbn [results selectedIndex setSelectedIndex];
    (split; [exact H1|]; split; [|exact H3]); try exact H2; apply wrapIndex_presets.
Qed.

Lemma handlers_frame rs index key s :
  runIdRef (handleSelect rs index s) = runIdRef s /\
  isRunning (handleSelect rs index s) = isRunning s /\
  results (handleSelect rs index s) = results s /\
  runIdRef (handleKeyDown rs key s) = runIdRef s /\
  isRunning (handleKeyDown rs key s) = isRunning s /\
  results (handleKeyDown rs key s) = results s.
Proof.
  unfold handleSelect, handleKeyDown.
  destruct (at_index rs index), rs, (String.eqb key "ArrowRight"), (String.eqb key "ArrowLeft");
    repeat split.
Qed.

Lemma set_run_nil k r l : set_run k r l = [] -> l = [].
Proof. destruct k, l; simpl; auto; discriminate. Qed.

(** The tasks and the suspended continuations of every run keep [P], when
    the tasks that [startBatch] builds do. *)
Lemma page_step_runs_keep (P : store -> Prop) sys sys' :
  (forall h runId payload,
      Forall (writes_keep P)
        (mapi (fun view index => task h runId payload view index) (buildViews h))) ->
  Forall (run_keeps P) (sys_runs sys) ->
  page_step sys sys' ->
  Forall (run_keeps P) (sys_runs sys').
Proof.
  intros Htasks Hruns [a sys1 n Hstep | index | key]; cbn [sys_runs]; auto.
  destruct Hstep as [h makeId payload runId tasks s1 n1 q s2 Hbegin Hlaunch
                    | k r q' s' n Hk Hq
                    | k r rejection o s' n Hk Hj Hjoin Hfin]; cbn [sys_runs].
  - destruct (@startBatch_begin_run _ _ _ _ _ _ _ _ Hbegin) as (-> & -> & _).
    apply Forall_app. split; [exact Hruns|]. constructor; [|constructor].
    split; cbn [run_tasks run_queue]; [apply Htasks|].
    unfold runQueue in Hlaunch.
    destruct (@launch_keeps P _ (runner_count MAX_PARALLEL) (mkQueue 0 [] [] []) s1
                (Htasks h (runIdRef (sys_store sys) + 1)%Z payload) (Forall_nil _)) as [H1 _].
    rewrite Hlaunch in H1. exact H1.
  - assert (Hr : run_keeps P r).
    { rewrite Forall_forall in Hruns. apply Hruns. eapply nth_error_In; eauto. }
    destruct Hr as [Ht Hrn]. destruct (@qstep_keeps P _ _ _ _ _ _ Ht Hrn Hq) as [H1 _].
    apply Forall_set_run; auto. split; auto.
  - assert (Hr : run_keeps P r).
    { rewrite Forall_forall in Hruns. apply Hruns. eapply nth_error_In; eauto. }
    apply Forall_set_run; auto.
Qed.

Lemma page_reach_runs_keep (P : store -> Prop) s0 sys :
  (forall h runId payload,
      Forall (writes_keep P)
        (mapi (fun view index => task h runId payload view index) (buildViews h))) ->
  page_reach s0 sys -> Forall (run_keeps P) (sys_runs sys).
Proof.
  intros Htasks. induction 1 as [|sys sys' _ IH Hstep]; [constructor|].
  eapply page_step_runs_keep; eauto.
Qed.

(** A turn of a run keeps [P], when the run does. *)
Lemma sys_turn_keeps (P : store -> Prop) sys k sys' n :
  Forall (run_keeps P) (sys_runs sys) ->
  (forall runId rejection, writes_keep P (startBatch_finish runId rejection)) ->
  sys_step sys (OfRun k) sys' n ->
  P (sys_store sys) -> P (sys_store sys').
Proof.
  intros Hruns Hfinish Hstep Hs.
  inversion Hstep as [ | k0 r q' s' n0 Hk Hq | k0 r rejection o s' n0 Hk Hj Hjoin Hfin]; subst;
    cbn [sys_store].
  - assert (Hr : run_keeps P r).
    { rewrite Forall_forall in Hruns. apply Hruns. eapply nth_error_In; eauto. }
    destruct Hr as [Ht Hrn]. destruct (@qstep_keeps P _ _ _ _ _ _ Ht Hrn Hq) as [_ H2]. auto.
  - destruct (@writes_keep_run_sync _ P _ (sys_store sys) (Hfinish (run_id r) rejection))
      as [H1 _].
    rewrite Hfin in H1. auto.
Qed.

(** The state of the page: as mounted until the first run is started, and
    well formed from then on. *)
Lemma page_reach_inv s0 sys :
  page_reach s0 sys -> results s0 = [] ->
  (sys_runs sys = [] -> sys_store sys = s0) /\
  (sys_runs sys <> [] -> page_inv (sys_store sys)).
Proof.
  intros Hreach H0.
  induction Hreach as [|sys sys' Hreach IH Hstep]; [split; [reflexivity|intros H; contradiction]|].
  pose proof (@page_reach_runs_keep page_inv s0 sys tasks_keep Hreach) as Hruns.
  destruct IH as [Hidle Hinv].
  destruct Hstep as [a sys1 n Hstep | index | key]; cbn [sys_runs sys_store].
  - destruct a as [|k].
    + inversion Hstep as [h makeId payload runId tasks s1 n1 q s2 Hbegin Hlaunch | | ]; subst.
      cbn [sys_runs sys_store]. split; [intros E; destruct (sys_runs sys); discriminate|].
      intros _. destruct (startBatch_begin_state _ _ _ _ Hbegin) as [Hs1 _].
      destruct (@startBatch_begin_run _ _ _ _ _ _ _ _ Hbegin) as (-> & -> & _).
      unfold runQueue in Hlaunch.
      destruct (@launch_keeps page_inv _ (runner_count MAX_PARALLEL) (mkQueue 0 [] [] []) s1
                  (tasks_keep h (runIdRef (sys_store sys) + 1)%Z payload) (Forall_nil _)) as [_ H2].
      rewrite Hlaunch in H2. auto.
    + assert (Hne : sys_runs sys <> []).
      { inversion Hstep; subst; intros E;
          match goal with H : nth_error _ _ = Some _ |- _ => rewrite E in H; destruct k; discriminate H end. }
      assert (Hne' : sys_runs sys1 <> []).
      { inversion Hstep; subst; cbn [sys_runs]; intros E; apply set_run_nil in E; contradiction. }
      split; [intros E; contradiction|]. intros _.
      eapply sys_turn_keeps; eauto. apply startBatch_finish_keeps.
  - split.
    + intros E. rewrite (Hidle E). unfold handleSelect. rewrite H0.
      unfold at_index. destruct (index <? 0)%Z; [reflexivity|].
      now destruct (Z.to_nat index).
    + intros Hne. apply handleSelect_keeps. auto.
  - split.
    + intros E. rewrite (Hidle E). unfold handleKeyDown. now rewrite H0.
    + intros Hne. apply handleKeyDown_keeps. auto.
Qed.

Lemma page_reach_of_sys s0 sys : sys_reach s0 sys -> page_reach s0 sys.
Proof.
  induction 1 as [|sys a sys' n _ IH Hstep]; [constructor|].
  eapply page_reach_step; [exact IH|]. eapply page_pipeline; eauto.
Qed.

(** ** The page: epochs and the running flag *)

Lemma page_reach_sys_inv s0 sys : page_reach s0 sys -> sys_inv sys.
Proof.
  induction 1 as [|sys sys' _ IH Hstep]; [split; simpl; auto|].
  destruct Hstep as [a sys1 n Hstep | index | key].
  - now destruct (@sys_step_ok _ _ _ _ IH Hstep).
  - destruct IH as [H1 H2]. split; cbn [sys_runs sys_store]; [exact H1|].
    destruct (handlers_frame (results (sys_store sys)) index "" (sys_store sys)) as (-> & _).
    exact H2.
  - destruct IH as [H1 H2]. split; cbn [sys_runs sys_store]; [exact H1|].
    destruct (handlers_frame (results (sys_store sys)) 0 key (sys_store sys))
      as (_ & _ & _ & -> & _).
    exact H2.
Qed.

Lemma page_reach_epochs s0 sys :
  page_reach s0 sys ->
  runIdRef (sys_store sys) = (runIdRef s0 + Z.of_nat (List.length (sys_runs sys)))%Z /\
  map run_id (sys_runs sys) = map (epoch_of_run s0) (seq 0 (List.length (sys_runs sys))).
Proof.
  induction 1 as [|sys sys' Hreach IH Hstep]; [split; simpl; [lia|reflexivity]|].
  pose proof (page_reach_sys_inv Hreach) as Hinv. destruct IH as [He Hids].
  destruct Hstep as [a sys1 n Hstep | index | key].
  - destruct (@sys_step_ok _ _ _ _ Hinv Hstep) as [_ Hep].
    destruct Hstep as [h makeId payload runId tasks s1 n1 q s2 Hbegin Hlaunch
                      | k r q' s' n Hk Hq
                      | k r rejection o s' n Hk Hj Hjoin Hfin]; cbn [sys_runs sys_store] in *.
    + destruct (@startBatch_begin_run _ _ _ _ _ _ _ _ Hbegin) as (-> & _ & _).
      rewrite length_app. cbn [List.length]. split; [lia|].
      rewrite Nat.add_1_r, seq_S, !map_app, Hids. cbn [map run_id Nat.add].
      f_equal. f_equal. unfold epoch_of_run. lia.
    + destruct Hep as [Hep _]. rewrite set_run_length. split; [lia|].
      rewrite <- Hids. eapply map_run_id_set_run; eauto.
    + destruct Hep as [Hep _]. rewrite set_run_length. split; [lia|].
      rewrite <- Hids. eapply map_run_id_set_run; eauto.
  - cbn [sys_runs sys_store].
    destruct (handlers_frame (results (sys_store sys)) index "" (sys_store sys)) as (-> & _).
    auto.
  - cbn [sys_runs sys_store].
    destruct (handlers_frame (results (sys_store sys)) 0 key (sys_store sys))
      as (_ & _ & _ & -> & _).
    auto.
Qed.

Lemma page_reach_run_id s0 sys k r :
  page_reach s0 sys -> nth_error (sys_runs sys) k = Some r -> run_id r = epoch_of_run s0 k.
Proof.
  intros Hreach Hk. destruct (page_reach_epochs Hreach) as [_ Hids].
  assert (Hlt : (k < List.length (sys_runs sys))%nat) by (apply nth_error_Some; congruence).
  pose proof (map_nth_error run_id _ _ Hk) as H1. rewrite Hids in H1.
  rewrite (map_nth_error (epoch_of_run s0) k (seq 0 (List.length (sys_runs sys)))
             (d := k)) in H1.
  - now injection H1 as <-.
  - rewrite nth_error_nth' with (d := 0%nat) by (rewrite length_seq; exact Hlt).
    rewrite seq_nth by exact Hlt. reflexivity.
Qed.

Lemma framed_isRunning b : framed (fun s => isRunning s = b).
Proof. repeat split; intros; assumption. Qed.

Lemma page_reach_running s0 sys :
  page_reach s0 sys ->
  forall r, latest_run sys = Some r -> isRunning (sys_store sys) = negb (run_joined r).
Proof.
  induction 1 as [|sys sys' Hreach IH Hstep]; [intros r H; discriminate|].
  pose proof (page_reach_sys_inv Hreach) as Hinv.
  pose proof (page_reach_epochs Hreach) as [He _].
  assert (Hkeep : forall b, Forall (run_keeps (fun s => isRunning s = b)) (sys_runs sys)).
  { intros b. eapply page_reach_runs_keep; [|exact Hreach].
    intros h runId payload. apply tasks_framed, framed_isRunning. }
  unfold latest_run in *.
  destruct Hstep as [a sys1 n Hstep | index | key].
  - destruct Hstep as [h makeId payload runId tasks s1 n1 q s2 Hbegin Hlaunch
                      | k r q' s' n Hk Hq
                      | k r rejection o s' n Hk Hj Hjoin Hfin]; cbn [sys_runs sys_store] in *.
    + intros r0. rewrite length_app. cbn [List.length].
      rewrite nth_error_app2 by lia.
      replace (List.length (sys_runs sys) + 1 - 1 - List.length (sys_runs sys))%nat
        with 0%nat by lia.
      intros [= <-]. cbn [run_joined negb].
      destruct (startBatch_begin_state _ _ _ _ Hbegin) as [_ Hs1].
      destruct (@startBatch_begin_run _ _ _ _ _ _ _ _ Hbegin) as (-> & -> & _).
      unfold runQueue in Hlaunch.
      destruct (@launch_keeps (fun s => isRunning s = true) _ (runner_count MAX_PARALLEL)
                  (mkQueue 0 [] [] []) s1
                  (tasks_framed h (runIdRef (sys_store sys) + 1)%Z payload
                     (framed_isRunning true))
                  (Forall_nil _)) as [_ H2].
      rewrite Hlaunch in H2. auto.
    + assert (Hr : run_keeps (fun s => isRunning s = isRunning (sys_store sys)) r).
      { specialize (Hkeep (isRunning (sys_store sys))).
        rewrite Forall_forall in Hkeep. apply Hkeep. eapply nth_error_In; eauto. }
      destruct Hr as [Ht Hrn].
      destruct (@qstep_keeps _ _ _ _ _ _ _ Ht Hrn Hq) as [_ H2]. specialize (H2 eq_refl).
      rewrite set_run_length. intros r0 Hr0. rewrite H2.
      destruct (Nat.eq_dec (List.length (sys_runs sys) - 1) k) as [E|E].
      * rewrite E in Hr0. rewrite nth_error_set_run_same in Hr0
          by (apply nth_error_Some; congruence).
        injection Hr0 as <-. cbn [run_joined]. apply IH. now rewrite E.
      * rewrite nth_error_set_run_other in Hr0 by exact E. now apply IH.
    + assert (Hok : run_ok r).
      { destruct Hinv as [Hruns _]. rewrite Forall_forall in Hruns.
        apply Hruns. eapply nth_error_In; eauto. }
      destruct Hok as [_ Hrn]. pose proof (@joins_ok _ _ _ Hrn Hjoin) as ->.
      pose proof (page_reach_run_id _ Hreach Hk) as Hid.
      assert (Hlt : (k < List.length (sys_runs sys))%nat) by (apply nth_error_Some; congruence).
      rewrite set_run_length. intros r0 Hr0.
      destruct (Nat.eq_dec (List.length (sys_runs sys) - 1) k) as [E|E].
      * rewrite E in Hr0. rewrite nth_error_set_run_same in Hr0 by exact Hlt.
        injection Hr0 as <-. cbn [run_joined negb].
        rewrite startBatch_finish_current in Hfin
          by (rewrite Hid, He; unfold epoch_of_run; lia).
        now injection Hfin as _ <- _.
      * rewrite nth_error_set_run_other in Hr0 by exact E.
        destruct (@startBatch_finish_fulfilled _ _ _ _ _ Hfin) as [_ Hsame].
        destruct Hsame as [_ ->]; [rewrite Hid, He; unfold epoch_of_run; lia|].
        now apply IH.
  - cbn [sys_runs sys_store]. intros r Hr.
    destruct (handlers_frame (results (sys_store sys)) index "" (sys_store sys))
      as (_ & -> & _).
    now apply IH.
  - cbn [sys_runs sys_store]. intros r Hr.
    destruct (handlers_frame (results (sys_store sys)) 0 key (sys_store sys))
      as (_ & _ & _ & _ & -> & _).
    now apply IH.
Qed.

Lemma page_sample_reach : page_reach initial_store page_sample.
Proof.
  unfold page_sample. eapply page_reach_step; [|apply page_key].
  apply page_reach_of_sys. exact sys_two_runs_reach.
Qed.

Lemma page_sample_runs : sys_runs page_sample <> [].
Proof. intros E. apply (f_equal (@List.length run)) in E. simpl in E. discriminate. Qed.

(** ** The page: what the user sees *)

(** X13. From the moment the component is mounted, under every
    interleaving of uploads, turns of the render pipeline, clicks on a view
    and key presses: until the first run is started the state is the one
    the component was mounted with, and from then on the result list holds
    exactly one record per azimuth preset, in preset order. *)
Theorem page_results_per_preset :
  forall sys : system,
    page_reach initial_store sys ->
    (sys_runs sys = [] -> sys_store sys = initial_store) /\
    (sys_runs sys <> [] ->
     map azimuth (results (sys_store sys)) = ANGLE_PRESETS /\
     List.length (results (sys_store sys)) = 8%nat).
Proof.
  intros sys Hreach. destruct (page_reach_inv Hreach eq_refl) as [Hidle Hinv].
  split; [exact Hidle|]. intros Hne. destruct (Hinv Hne) as (H1 & _ & _).
  split; [exact H1|]. rewrite <- (length_map azimuth), H1, ANGLE_PRESETS_eq. reflexivity.
Qed.

Lemma page_results_per_preset_witness :
  map azimuth (results (sys_store page_sample)) = ANGLE_PRESETS /\
  List.length (results (sys_store page_sample)) = 8%nat.
Proof.
  apply (proj2 (page_results_per_preset page_sample_reach) page_sample_runs).
Defined.

(** X14. In every state of the page the selection is one of the indices 0
    to 7, whatever the pipeline, the clicks and the arrow keys did; and once
    a run has been started it is the index of a record of the result
    list. *)
Theorem page_selection_in_range :
  forall sys : system,
    page_reach initial_store sys ->
    (0 <= selectedIndex (sys_store sys) < 8)%Z /\
    (sys_runs sys <> [] ->
     exists r, at_index (results (sys_store sys)) (selectedIndex (sys_store sys)) = Some r).
Proof.
  intros sys Hreach. destruct (page_reach_inv Hreach eq_refl) as [Hidle Hinv].
  assert (H8 : Z.of_nat (List.length ANGLE_PRESETS) = 8%Z)
    by (rewrite ANGLE_PRESETS_eq; reflexivity).
  destruct (sys_runs sys) as [|r0 runs] eqn:E.
  - rewrite (Hidle eq_refl). split; [simpl; lia|]. intros H. contradiction.
  - destruct (Hinv ltac:(discriminate)) as (H1 & H2 & _). rewrite H8 in H2.
    split; [exact H2|]. intros _. unfold at_index.
    destruct (Z.ltb_spec (selectedIndex (sys_store sys)) 0) as [Hneg|_]; [lia|].
    destruct (nth_error (results (sys_store sys)) (Z.to_nat (selectedIndex (sys_store sys))))
      as [r|] eqn:En; [exists r; reflexivity|].
    apply nth_error_None in En. rewrite <- (length_map azimuth), H1 in En. lia.
Qed.

Lemma page_selection_in_range_witness :
  (0 <= selectedIndex (sys_store page_sample) < 8)%Z.
Proof.
  apply (proj1 (page_selection_in_range page_sample_reach)).
Defined.

Example page_sample_selection : selectedIndex (sys_store page_sample) = 7%Z.
Proof. vm_compute. reflexivity. Qed.

(** X15. In every state of the page, every record of the result list is
    well formed: a view whose status is done has an image, and every image
    bound to a view is a non-empty string that starts with [data:] or
    [http], so that it can be shown as it is. *)
Theorem page_images_wellformed :
  forall sys : system,
    page_reach initial_store sys ->
    Forall view_ok (results (sys_store sys)) /\
    (forall j, has_image (results (sys_store sys)) j = true <->
               exists r img, at_index (results (sys_store sys)) j = Some r /\
                             image r = Some img).
Proof.
  intros sys Hreach. destruct (page_reach_inv Hreach eq_refl) as [Hidle Hinv].
  assert (Hok : Forall view_ok (results (sys_store sys))).
  { destruct (sys_runs sys) as [|r0 runs] eqn:E.
    - rewrite (Hidle eq_refl). constructor.
    - now destruct (Hinv ltac:(discriminate)) as (_ & _ & H3). }
  split; [exact Hok|]. intros j. unfold has_image. split.
  - destruct (at_index (results (sys_store sys)) j) as [r|]; [|discriminate].
    destruct (image r) as [img|] eqn:Ei; [|discriminate]. intros _. now exists r, img.
  - intros (r & img & Ha & Hi). rewrite Ha, Hi.
    assert (Hin : In r (results (sys_store sys))).
    { unfold at_index in Ha. destruct (j <? 0)%Z; [discriminate|].
      eapply nth_error_In; eauto. }
    rewrite Forall_forall in Hok. destruct (Hok r Hin) as [_ Hn].
    specialize (Hn img Hi). unfold is_normal in Hn. apply andb_true_iff in Hn. tauto.
Qed.

Lemma page_images_wellformed_witness : Forall view_ok (results (sys_store page_sample)).
Proof.
  apply (proj1 (page_images_wellformed page_sample_reach)).
Defined.

Lemma has_image_true items j :
  has_image items j = true ->
  exists r img, at_index items j = Some r /\ image r = Some img.
Proof.
  unfold has_image. destruct (at_index items j) as [r|]; [|discriminate].
  destruct (image r) as [img|] eqn:Ei; [|discriminate]. intros _. now exists r, img.
Qed.

(** X16. In every state of the page, the viewer shows the placeholder only
    when no view has an image yet.  Otherwise it shows the image of a view
    that has one, that image is a non-empty [data:] or [http] string, and no
    view with an image is closer to the selection on the ring of views. *)
Theorem page_display_nearest :
  forall sys : system,
    page_reach initial_store sys ->
    let s := sys_store sys in
    (displayImage s = None <-> forall j, has_image (results s) j = false) /\
    (forall img, displayImage s = Some img ->
       is_normal img = true /\
       (exists r, at_index (results s) (displayIndex s) = Some r /\ image r = Some img) /\
       forall j, has_image (results s) j = true ->
         (ring_dist (Z.of_nat (List.length (results s))) (selectedIndex s) (displayIndex s)
          <= ring_dist (Z.of_nat (List.length (results s))) (selectedIndex s) j)%Z).
Proof.
  intros sys Hreach s. subst s.
  destruct (page_reach_inv Hreach eq_refl) as [Hidle Hinv].
  destruct (sys_runs sys) as [|r0 runs] eqn:E.
  { rewrite (Hidle eq_refl). split.
    - split; [intros _ j; apply has_image_nil|reflexivity].
    - intros img H. discriminate. }
  destruct (Hinv ltac:(discriminate)) as (H1 & H2 & H3).
  set (s := sys_store sys) in *.
  assert (Hsel : (0 <= selectedIndex s < Z.of_nat (List.length (results s)))%Z).
  { rewrite <- (length_map azimuth), H1. exact H2. }
  pose proof (findNearestImageIndex_found (selectedIndex s) (results s)) as Hfound.
  destruct (findNearestImageIndex_spec (results s) Hsel) as [Hnone Hnear].
  fold (displayIndex s) in Hfound, Hnone, Hnear.
  assert (Hshow : forall r img,
             at_index (results s) (displayIndex s) = Some r -> image r = Some img ->
             (0 <= displayIndex s)%Z -> displayImage s = Some img).
  { intros r img Ha Hi Hpos. unfold displayImage.
    destruct (Z.leb_spec 0 (displayIndex s)); [|lia]. now rewrite Ha. }
  destruct Hfound as [Hminus | [Himg Hrange]].
  - assert (Hd : displayImage s = None).
    { unfold displayImage. rewrite Hminus. reflexivity. }
    split.
    + split; [intros _; now apply Hnone|intros _; exact Hd].
    + intros img H. rewrite Hd in H. discriminate.
  - destruct (has_image_true _ _ Himg) as (r & img0 & Ha & Hi).
    pose proof (Hshow r img0 Ha Hi (proj1 Hrange)) as Hd.
    split.
    + split; [intros H; rewrite Hd in H; discriminate|].
      intros Hall. rewrite Hall in Himg. discriminate.
    + intros img H. rewrite Hd in H. injection H as <-.
      split; [|split].
      * assert (Hin : In r (results s)).
        { unfold at_index in Ha. destruct (displayIndex s <? 0)%Z; [discriminate|].
          eapply nth_error_In; eauto. }
        rewrite Forall_forall in H3. destruct (H3 r Hin) as [_ Hn]. now apply Hn.
      * now exists r.
      * intros j Hj. now apply Hnear.
Qed.

Lemma page_display_nearest_witness :
  displayImage (sys_store page_sample) = None <->
  forall j, has_image (results (sys_store page_sample)) j = false.
Proof.
  apply (proj1 (page_display_nearest page_sample_reach)).
Defined.

(** ** The page: the runs *)

(** X17. The epoch counts the runs: in every state of the page, the current
    epoch is the epoch at mount plus the number of runs started, the [k]-th
    run carries the epoch at mount plus [k + 1], and so the run started last
    is the only one whose epoch is current. *)
Theorem page_epoch_counts :
  forall (s0 : store) (sys : system),
    page_reach s0 sys ->
    runIdRef (sys_store sys) = (runIdRef s0 + Z.of_nat (List.length (sys_runs sys)))%Z /\
    (forall k r, nth_error (sys_runs sys) k = Some r ->
                 run_id r = epoch_of_run s0 k /\
                 (run_id r = runIdRef (sys_store sys) <-> S k = List.length (sys_runs sys))).
Proof.
  intros s0 sys Hreach. destruct (page_reach_epochs Hreach) as [He _].
  split; [exact He|]. intros k r Hk.
  pose proof (page_reach_run_id _ Hreach Hk) as Hid. split; [exact Hid|].
  rewrite Hid, He. unfold epoch_of_run.
  assert (k < List.length (sys_runs sys))%nat by (apply nth_error_Some; congruence). lia.
Qed.

Lemma page_epoch_counts_witness :
  runIdRef (sys_store page_sample)
  = (runIdRef initial_store + Z.of_nat (List.length (sys_runs page_sample)))%Z.
Proof.
  apply (proj1 (page_epoch_counts page_sample_reach)).
Defined.

Example page_sample_epoch : runIdRef (sys_store page_sample) = 2%Z.
Proof. vm_compute. reflexivity. Qed.

(** X18. In every state of the page with at least one run, [isRunning] is
    true exactly while the [startBatch] call of the run started last has not
    returned: an earlier run that ends neither clears the flag of a later
    one, nor do the tasks, the clicks or the key presses touch it. *)
Theorem page_isRunning_latest :
  forall (s0 : store) (sys : system) (r : run),
    page_reach s0 sys ->
    latest_run sys = Some r ->
    isRunning (sys_store sys) = negb (run_joined r).
Proof.
  intros s0 sys r Hreach Hr. now apply (page_reach_running Hreach).
Qed.

Lemma page_isRunning_latest_witness :
  exists r, latest_run page_sample = Some r /\
            isRunning (sys_store page_sample) = negb (run_joined r).
Proof.
  destruct (latest_run page_sample) as [r|] eqn:E.
  - exists r. split; [reflexivity|].
    apply (@page_isRunning_latest initial_store page_sample r page_sample_reach E).
  - exfalso. unfold latest_run in E. apply nth_error_None in E. simpl in E. lia.
Defined.

Lemma runners_ok_no_rejection runId q :
  Forall (runner_ok runId) (runners q) -> no_rejection q.
Proof.
  intros H w. destruct (nth_error (runners q) w) as [rn|] eqn:E; [|exact I].
  rewrite Forall_forall in H. specialize (H rn (nth_error_In _ _ E)).
  destruct rn as [index p|index [message|]| |message]; simpl in H; auto.
Qed.

(** X19. The [catch] block of [startBatch] is never entered: in every state
    of the page no runner of any run has rejected or is about to, the
    promise of [runQueue] can only fulfil, and it does so when all runners
    have returned.  [startBatch] then reports ['Completed.'] and clears
    [isRunning] if its run is still the current one. *)
Theorem startBatch_queue_never_rejects :
  forall (s0 : store) (sys : system) (k : nat) (r : run),
    page_reach s0 sys ->
    nth_error (sys_runs sys) k = Some r ->
    no_rejection (run_queue r) /\
    (forall rejection, joins (run_queue r) rejection ->
       rejection = None /\ all_returned (run_queue r) /\
       (run_id r = runIdRef (sys_store sys) ->
        run_sync (startBatch_finish (run_id r) rejection) (sys_store sys)
        = (Finished tt, setIsRunning false (setStatusMessage "Completed." (sys_store sys)),
           2%nat))).
Proof.
  intros s0 sys k r Hreach Hk.
  destruct (page_reach_sys_inv Hreach) as [Hruns _].
  assert (Hok : run_ok r).
  { rewrite Forall_forall in Hruns. apply Hruns. eapply nth_error_In; eauto. }
  destruct Hok as [_ Hrn]. split; [eapply runners_ok_no_rejection; eauto|].
  intros rejection Hjoin. pose proof (@joins_ok _ _ _ Hrn Hjoin) as ->.
  split; [reflexivity|]. split.
  - inversion Hjoin. assumption.
  - intros Hid. apply startBatch_finish_current. now symmetry.
Qed.

Lemma startBatch_queue_never_rejects_witness :
  exists r, nth_error (sys_runs page_sample) 0 = Some r /\ no_rejection (run_queue r).
Proof.
  destruct (nth_error (sys_runs page_sample) 0) as [r|] eqn:E.
  - exists r. split; [reflexivity|].
    apply (proj1 (@startBatch_queue_never_rejects initial_store page_sample 0%nat r
                    page_sample_reach E)).
  - exfalso. apply nth_error_None in E. simpl in E. lia.
Defined.

(** ** The handlers of the viewer *)

Lemma wrapIndex_8 value : wrapIndex value (Z.of_nat (List.length ANGLE_PRESETS)) = (value mod 8)%Z.
Proof.
  rewrite ANGLE_PRESETS_eq. cbn [List.length Z.of_nat Pos.of_succ_nat Pos.succ].
  apply wrapIndex_mod. lia.
Qed.

(** X20. While results are shown, the right arrow key moves the selection
    one view forward and the left arrow key one view back, both with
    wrap-around, so that each undoes the other and eight presses of one key
    come back to the same view; every other key leaves the state as it is,
    and so does every key while no result is shown. *)
Theorem handleKeyDown_moves_selection :
  forall (rs : list AngleResult) (s : store),
    rs <> [] ->
    (0 <= selectedIndex s < 8)%Z ->
    selectedIndex (handleKeyDown rs "ArrowRight" s) = ((selectedIndex s + 1) mod 8)%Z /\
    selectedIndex (handleKeyDown rs "ArrowLeft" s) = ((selectedIndex s - 1) mod 8)%Z /\
    handleKeyDown rs "ArrowLeft" (handleKeyDown rs "ArrowRight" s) = s /\
    handleKeyDown rs "ArrowRight" (handleKeyDown rs "ArrowLeft" s) = s /\
    Nat.iter 8 (handleKeyDown rs "ArrowRight") s = s /\
    (forall key, key <> "ArrowRight" -> key <> "ArrowLeft" -> handleKeyDown rs key s = s) /\
    (forall key, handleKeyDown [] key s = s).
Proof.
  intros rs s Hrs Hsel. destruct rs as [|r rs]; [contradiction|]. clear Hrs.
  assert (Hright : forall s', handleKeyDown (r :: rs) "ArrowRight" s'
                         = setSelectedIndex (fun prev => ((prev + 1) mod 8)%Z) s').
  { intros s'. unfold handleKeyDown. cbn [String.eqb Ascii.eqb Bool.eqb andb].
    unfold setSelectedIndex. now rewrite wrapIndex_8. }
  assert (Hleft : forall s', handleKeyDown (r :: rs) "ArrowLeft" s'
                        = setSelectedIndex (fun prev => ((prev - 1) mod 8)%Z) s').
  { intros s'. unfold handleKeyDown. cbn [String.eqb Ascii.eqb Bool.eqb andb].
    unfold setSelectedIndex. now rewrite wrapIndex_8. }
  destruct s as [epoch items sel message running]. cbn [selectedIndex] in Hsel.
  split; [rewrite Hright; reflexivity|]. split; [rewrite Hleft; reflexivity|].
  split; [|split; [|split; [|split]]].
  - rewrite Hright, Hleft. unfold setSelectedIndex.
    cbn [runIdRef results selectedIndex statusMessage isRunning]. f_equal.
    rewrite Zminus_mod_idemp_l. replace (sel + 1 - 1)%Z with sel by lia.
    now apply Z.mod_small.
  - rewrite Hleft, Hright. unfold setSelectedIndex.
    cbn [runIdRef results selectedIndex statusMessage isRunning]. f_equal.
    rewrite Zplus_mod_idemp_l. replace (sel - 1 + 1)%Z with sel by lia.
    now apply Z.mod_small.
  - cbn [Nat.iter nat_rect]. rewrite !Hright. unfold setSelectedIndex.
    cbn [runIdRef results selectedIndex statusMessage isRunning]. f_equal.
    assert (Hc : (sel = 0 \/ sel = 1 \/ sel = 2 \/ sel = 3 \/ sel = 4 \/ sel = 5 \/ sel = 6
                  \/ sel = 7)%Z) by lia.
    repeat (destruct Hc as [->|Hc]; [reflexivity|]). subst sel. reflexivity.
  - intros key H1 H2. unfold handleKeyDown.
    apply String.eqb_neq in H1, H2. now rewrite H1, H2.
  - intros key. reflexivity.
Qed.

Lemma handleKeyDown_moves_selection_witness :
  selectedIndex (handleKeyDown [sample_result None] "ArrowLeft" initial_store) = (-1 mod 8)%Z.
Proof.
  assert (H1 : [sample_result None] <> []) by discriminate.
  assert (H2 : (0 <= selectedIndex initial_store < 8)%Z) by (simpl; lia).
  apply (proj1 (proj2 (@handleKeyDown_moves_selection _ initial_store H1 H2))).
Defined.

(** [handleSelect] changes nothing but the selection, and the
    selection only to an index of the result list of its render: a click on
    a view that is shown selects it, and a number outside the list leaves
    the state as it is. *)
Lemma handleSelect_selects_shown_view :
  forall (rs : list AngleResult) (index : Z) (s : store),
    ((0 <= index < Z.of_nat (List.length rs))%Z ->
     handleSelect rs index s
     = mkStore (runIdRef s) (results s) index (statusMessage s) (isRunning s)) /\
    (~ (0 <= index < Z.of_nat (List.length rs))%Z -> handleSelect rs index s = s) /\
    (selectedIndex (handleSelect rs index s) = selectedIndex s \/
     (0 <= selectedIndex (handleSelect rs index s) < Z.of_nat (List.length rs))%Z).
Proof.
  intros rs index s.
  destruct (handleSelect_cases rs index s) as [[Hn ->] | [Hi ->]].
  - split; [|split; [reflexivity|now left]].
    intros Hi. unfold at_index in Hn. destruct (Z.ltb_spec index 0); [lia|].
    apply nth_error_None in Hn. lia.
  - split; [intros _; reflexivity|]. split; [intros Hn; contradiction|].
    right. exact Hi.
Qed.

(** ** Bounded task runner: how an execution starts and proceeds *)

Lemma launch_spec tasks : forall n q s,
  cursor q = List.length (runners q) ->
  claimed q = map (fun i => (i, i)) (seq 0 (Nat.min (cursor q) (List.length tasks))) ->
  (forall w, (List.length tasks <= w < List.length (runners q))%nat ->
             nth_error (runners q) w = Some Returned) ->
  let q' := fst (launch tasks n q s) in
  cursor q' = (cursor q + n)%nat /\
  List.length (runners q') = (List.length (runners q) + n)%nat /\
  claimed q' = map (fun i => (i, i)) (seq 0 (Nat.min (cursor q + n) (List.length tasks))) /\
  (forall w, (List.length tasks <= w < List.length (runners q) + n)%nat ->
             nth_error (runners q') w = Some Returned).
Proof.
  induction n as [|n IH]; intros q s Hc Hcl Hret; cbn zeta.
  - cbn [launch fst]. rewrite !Nat.add_0_r. auto.
  - cbn [launch].
    destruct (claim tasks (List.length (runners q)) q s) as [[[r q1] s1] k] eqn:Hclaim.
    pose proof (claim_spec _ _ _ _ Hclaim) as (Hrun & Hcur & Hcase).
    set (q2 := with_runners q1 (runners q1 ++ [r])).
    assert (Hc2 : cursor q2 = List.length (runners q2)).
    { unfold q2. cbn [with_runners cursor runners]. rewrite length_app, Hrun, Hcur.
      cbn [List.length]. lia. }
    assert (Hlen2 : List.length (runners q2) = S (List.length (runners q))).
    { unfold q2. cbn [with_runners runners]. rewrite length_app, Hrun. cbn [List.length]. lia. }
    assert (Hcur2 : cursor q2 = S (cursor q)) by (rewrite Hc2, Hlen2, Hc; reflexivity).
    assert (Hcl2 : claimed q2
                   = map (fun i => (i, i)) (seq 0 (Nat.min (cursor q2) (List.length tasks)))).
    { unfold q2 at 1. cbn [with_runners claimed]. rewrite Hcur2.
      destruct Hcase as [(Hge & _ & -> & _) | (t & o & Ht & _ & _ & -> & _)].
      - rewrite Hcl. f_equal. f_equal. lia.
      - assert (Hlt : (cursor q < List.length tasks)%nat) by (apply nth_error_Some; congruence).
        rewrite Hcl. replace (Nat.min (cursor q) (List.length tasks)) with (cursor q) by lia.
        replace (Nat.min (S (cursor q)) (List.length tasks)) with (S (cursor q)) by lia.
        rewrite seq_S, map_app. cbn [map Nat.add]. now rewrite <- Hc. }
    assert (Hret2 : forall w, (List.length tasks <= w < List.length (runners q2))%nat ->
                              nth_error (runners q2) w = Some Returned).
    { intros w Hw. unfold q2. cbn [with_runners runners]. rewrite Hrun.
      destruct (Nat.lt_ge_cases w (List.length (runners q))) as [Hlt|Hge].
      - rewrite nth_error_app1 by exact Hlt. apply Hret. lia.
      - rewrite nth_error_app2 by exact Hge.
        replace (w - List.length (runners q))%nat with 0%nat by lia. cbn [nth_error].
        destruct Hcase as [(_ & -> & _) | (t & o & Ht & _)]; [reflexivity|].
        assert (cursor q < List.length tasks)%nat by (apply nth_error_Some; congruence). lia. }
    specialize (IH q2 s1 Hc2 Hcl2 Hret2). cbn zeta in IH.
    rewrite Hcur2, Hlen2 in IH.
    replace (cursor q + S n)%nat with (S (cursor q) + n)%nat by lia.
    replace (List.length (runners q) + S n)%nat with (S (List.length (runners q)) + n)%nat
      by lia.
    exact IH.
Qed.

Lemma runQueue_launch_cursor tasks concurrency s :
  cursor (fst (runQueue tasks concurrency s)) = runner_count concurrency.
Proof.
  unfold runQueue.
  apply (@launch_spec tasks (runner_count concurrency) (mkQueue 0 [] [] []) s);
    try reflexivity. intros w Hw. cbn in Hw. lia.
Qed.

(** X21. When [runQueue] reaches [Promise.all], it has created
    [max(1, concurrency)] runners; runner [i] has started task [i], for every
    [i] below the number of tasks, in this order, and the runners beyond the
    last task have returned at once; the cursor then stands at the number of
    runners, also when that exceeds the number of tasks. *)
Theorem runQueue_launch :
  forall (tasks : list (async unit)) (concurrency : Z) (s : store),
    let q := fst (runQueue tasks concurrency s) in
    cursor q = runner_count concurrency /\
    List.length (runners q) = runner_count concurrency /\
    claimed q
    = map (fun i => (i, i)) (seq 0 (Nat.min (runner_count concurrency) (List.length tasks))) /\
    (forall w, (List.length tasks <= w < runner_count concurrency)%nat ->
               nth_error (runners q) w = Some Returned).
Proof.
  intros tasks concurrency s. unfold runQueue.
  apply (@launch_spec tasks (runner_count concurrency) (mkQueue 0 [] [] []) s).
  - reflexivity.
  - reflexivity.
  - intros w Hw. cbn in Hw. lia.
Qed.

Lemma qreach_cursor tasks q0 q : qreach tasks q0 q -> (cursor q0 <= cursor q)%nat.
Proof.
  induction 1 as [|q q' _ IH (s & s' & n & Hstep)]; [lia|].
  destruct Hstep as [w index p r p' o s1 n1 Hw Hres Hrun | w index r q1 s1 n1 Hw Hc
                    | w index message Hw]; cbn [cursor with_runners]; try lia.
  pose proof (claim_spec _ _ _ _ Hc) as (_ & Hcur & _). lia.
Qed.

(** X22. In every state of every execution of [runQueue], whatever the
    ceiling: the tasks started so far are the first ones of the list, in
    list order, up to the cursor; each of them has settled or is awaited by
    a runner; the cursor has passed at least one index per runner; and no
    runner has returned while a task is left to start. *)
Theorem runQueue_dispatch_order :
  forall (tasks : list (async unit)) (concurrency : Z) (q : queue),
    running_queue tasks concurrency q ->
    map snd (claimed q) = seq 0 (Nat.min (cursor q) (List.length tasks)) /\
    Permutation (map snd (claimed q)) (resolved q ++ awaited (runners q)) /\
    (runner_count concurrency <= cursor q)%nat /\
    ((cursor q < List.length tasks)%nat -> ~ In Returned (runners q)).
Proof.
  intros tasks concurrency q Hq.
  destruct (running_queue_inv Hq) as [[I1 I2 I3 _] _].
  split; [exact I1|]. split; [exact I2|]. split.
  - destruct Hq as [s0 Hreach]. apply qreach_cursor in Hreach.
    rewrite runQueue_launch_cursor in Hreach. exact Hreach.
  - intros Hlt Hin. specialize (I3 Hin). lia.
Qed.

Lemma runQueue_dispatch_order_witness :
  map snd (claimed (fst (runQueue sample_tasks 3 sample_dispatch)))
  = seq 0 (Nat.min (cursor (fst (runQueue sample_tasks 3 sample_dispatch)))
             (List.length sample_tasks)).
Proof.
  assert (Hq : running_queue sample_tasks 3 (fst (runQueue sample_tasks 3 sample_dispatch)))
    by (exists sample_dispatch; constructor).
  apply (proj1 (runQueue_dispatch_order Hq)).
Defined.

Example runQueue_more_runners_than_tasks :
  cursor (fst (runQueue tasks_first_rejects 5 sample_store)) = 5%nat /\
  claimed (fst (runQueue tasks_first_rejects 5 sample_store)) = [(0, 0); (1, 1)]%nat /\
  map live (runners (fst (runQueue tasks_first_rejects 5 sample_store))) = [1; 1; 0; 0; 0]%nat.
Proof. repeat split. Qed.

(** ** The render proxy *)

Lemma strip_trailing_slash_app s : strip_trailing_slash (s ++ "/") = s.
Proof.
  induction s as [|c s IH]; [reflexivity|].
  cbn [append strip_trailing_slash]. rewrite IH.
  destruct s; reflexivity.
Qed.

Lemma missing_false value :
  missing value = false -> exists s, value = Some s /\ s <> "".
Proof.
  destruct value as [s|]; simpl; [|discriminate]. intros H. exists s. split; [reflexivity|].
  now apply String.eqb_neq.
Qed.

(** X23. [onRequestGet] calls the upstream endpoint only with a non-empty
    job id, a configured key and a configured endpoint; a missing id is
    answered with status 400 before the configuration is looked at, and a
    missing key or endpoint with status 500.  The endpoint is used without
    its trailing slash, so that a configured URL with and without the slash
    gives the same status URL. *)
Theorem onRequestGet_contract :
  forall (env : Env.t) (id : option string),
    match onRequestGet env id with
    | Refused status _ =>
        (status = 400%Z /\ missing id = true) \/
        (status = 500%Z /\ missing id = false /\
         (missing (Env.RUNPOD_API_KEY env) = true \/ missing (resolveEndpoint env) = true))
    | Upstream call =>
        missing id = false /\ id = Some (status_id call) /\
        (exists key, Env.RUNPOD_API_KEY env = Some key /\ key <> "" /\
                     status_authorization call = "Bearer " ++ key) /\
        (exists endpoint, resolveEndpoint env = Some endpoint /\ endpoint <> "" /\
                          status_prefix call = endpoint ++ "/status/")
    end /\
    (forall key base c d,
        key <> "" -> base <> "" -> missing id = false ->
        onRequestGet (Env.mk (Some key) (Some (base ++ "/")) c d) id
        = Upstream (mkStatusCall (base ++ "/status/")
                      (match id with Some i => i | None => "" end) ("Bearer " ++ key))).
Proof.
  intros env id. split.
  - unfold onRequestGet. destruct id as [id|]; [|left; auto].
    cbn [missing]. destruct (String.eqb_spec id "") as [E|E]; [left; auto|].
    destruct (missing (Env.RUNPOD_API_KEY env)) eqn:Ek; [right; auto|].
    destruct (missing_false _ Ek) as (key & Hk & Hkey). rewrite Hk.
    destruct (resolveEndpoint env) as [endpoint|] eqn:Ee; [|right; auto].
    cbn [missing]. destruct (String.eqb_spec endpoint "") as [E'|E']; [right; auto|].
    cbn [status_id status_authorization status_prefix].
    split; [reflexivity|]. split; [reflexivity|]. split.
    + exists key. auto.
    + exists endpoint. auto.
  - intros key base c d Hkey Hbase Hid. destruct id as [id|]; [|discriminate].
    cbn [missing] in Hid. unfold onRequestGet, resolveEndpoint. rewrite Hid.
    cbn [Env.RUNPOD_API_KEY Env.RUNPOD_ENDPOINT_URL missing option_map].
    apply String.eqb_neq in Hkey, Hbase. rewrite Hkey, strip_trailing_slash_app, Hbase.
    reflexivity.
Qed.

Example onRequestGet_sample :
  onRequestGet sample_env (Some "job-1")
  = Upstream (mkStatusCall "https://api.example.test/v2/abc/status/" "job-1" "Bearer key-1") /\
  onRequestGet sample_env None = Refused 400 "id is required.".
Proof. split; reflexivity. Qed.

(** The first stage of [onRequestPost] lets a request through only when
    the key and the endpoint are configured, and then with a non-empty
    inline image or a non-empty URL to fetch.  It refuses a missing
    configuration with status 500 and a request without a usable image
    with status 400. *)
Lemma onRequestPost_image_contract :
  forall (env : Env.t) (body : option jsval),
    match onRequestPost_image env body with
    | ImageRefused status _ =>
        (status = 500%Z /\
         (missing (Env.RUNPOD_API_KEY env) = true \/ missing (resolveEndpoint env) = true)) \/
        (status = 400%Z /\
         missing (Env.RUNPOD_API_KEY env) = false /\ missing (resolveEndpoint env) = false)
    | ImageFound source =>
        missing (Env.RUNPOD_API_KEY env) = false /\
        missing (resolveEndpoint env) = false /\
        match source with
        | FromUrl url => url <> ""
        | Inline imageBase64 => imageBase64 <> ""
        end
    end.
Proof.
  intros env body. unfold onRequestPost_image.
  destruct (missing (Env.RUNPOD_API_KEY env)); [left; auto|].
  destruct (missing (resolveEndpoint env)); [left; auto|].
  destruct (negb (truthy match body with Some v => v | None => JNull end)); [right; auto|].
  match goal with |- context [negb (truthy ?v)] => destruct (negb (truthy v)) end;
    [right; auto|].
  match goal with |- context [stripDataUrl ?v] =>
    destruct (String.eqb_spec (stripDataUrl v) "") as [E|E] end;
    match goal with |- context [match ?g with JStr _ => _ | _ => _ end] =>
      destruct g as [ | | b | n | url | items | props] end;
    try (right; now auto); try (now auto);
    destruct (String.eqb_spec url "") as [Eu|Eu]; try (right; now auto); now auto.
Qed.

(** X24. The first stage of [onRequestPost], which finds the image
    (lines 144 to 177), does not refuse what the page uploads: for a
    configured proxy, the body that [submitAngle] posts with the payload
    that [toBase64] cut out of the uploaded data URL passes that stage
    whenever the payload is not empty, and the image the handler goes on
    with is that very payload.  A client that posts the whole data URL
    goes on with the same image.  The statement stops at line 177: the
    stages after it can still answer with an error before any request is
    sent upstream. *)
Theorem onRequestPost_image_of_upload :
  forall (env : Env.t) (dataUrl : string) (others : list (string * jsval)),
    missing (Env.RUNPOD_API_KEY env) = false ->
    missing (resolveEndpoint env) = false ->
    assoc "image_url" others = JUndefined ->
    toBase64 dataUrl <> "" ->
    onRequestPost_image env (Some (render_body (toBase64 dataUrl) others))
    = ImageFound (Inline (toBase64 dataUrl)) /\
    onRequestPost_image env
      (Some (render_body ("data:image/png;base64," ++ toBase64 dataUrl) others))
    = ImageFound (Inline (toBase64 dataUrl)).
Proof.
  intros env dataUrl others Hk He Hurl Hp.
  pose proof (string_eqb_false Hp) as Hp'.
  unfold onRequestPost_image, render_body. rewrite Hk, He.
  cbn [truthy negb get assoc String.eqb Ascii.eqb Bool.eqb andb nullish].
  rewrite Hurl. cbn [nullish truthy negb js_String]. rewrite Hp'. cbn [negb].
  split.
  - rewrite stripDataUrl_no_comma by apply toBase64_no_comma. now rewrite Hp'.
  - change (stripDataUrl ("data:image/png;base64," ++ toBase64 dataUrl))
      with (toBase64 dataUrl). now rewrite Hp'.
Qed.

Lemma onRequestPost_image_of_upload_witness :
  onRequestPost_image sample_env
    (Some (render_body (toBase64 "data:image/png;base64,aGVsbG8=")
             [("prompt", JStr "<sks> front view"); ("worker_mode", JStr "comfyui")]))
  = ImageFound (Inline (toBase64 "data:image/png;base64,aGVsbG8=")).
Proof.
  assert (Hp : toBase64 "data:image/png;base64,aGVsbG8=" <> "") by discriminate.
  apply (proj1 (@onRequestPost_image_of_upload sample_env "data:image/png;base64,aGVsbG8="
                  [("prompt", JStr "<sks> front view"); ("worker_mode", JStr "comfyui")]
                  eq_refl eq_refl eq_refl Hp)).
Defined.

Example onRequestPost_empty_image_field :
  onRequestPost_image sample_env
    (Some (JObj [("image_base64", JStr ""); ("image_url", JStr "https://example.test/a.png")]))
  = ImageRefused 400 "image is required." /\
  onRequestPost_image sample_env (Some (JObj [("image", JStr "data:image/png;base64,")]))
  = ImageRefused 400 "image is empty." /\
  onRequestPost_image sample_env None = ImageRefused 400 "Invalid request body.".
Proof. repeat split. Qed.
